(** * Agent factory: name sanitizers, code synthesizer, gateway and
      deployment trackers, tool registration and A2A connections.

    A shallow embedding of the Python sources
      utils/validation.py, services/lambda_service.py,
      services/a2a_service.py, builder_agent/tools/create_gateway.py,
      builder_agent/tools/deploy_agent.py,
      builder_agent/tools/create_lambda_tools.py and
      templates/generic_agent.py
    together with the properties stated about them.

    Python [str] values that are processed character by character are
    modelled as [list ascii] (8-bit code points, i.e. the Latin-1 range);
    identifiers used as dictionary keys are [string]. *)

From Stdlib Require Import Ascii String.
From stdpp Require Import base list strings gmap.

Local Open Scope list_scope.

(** ** Text primitives (Python [str] methods and the [re] calls used) *)

Module Text.

Definition text := list ascii.

Definition T (s : string) : text := list_ascii_of_string s.

Definition code (c : ascii) : nat := nat_of_ascii c.

Definition chr (n : nat) : ascii := ascii_of_nat n.

(** The double quote, the newline and a few other characters that are
    awkward to write inside a literal. *)
Definition dq : ascii := chr 34.
Definition sq : ascii := chr 39.
Definition nl : ascii := chr 10.

Definition in_range (lo hi : nat) (c : ascii) : bool :=
  (lo <=? code c) && (code c <=? hi).

Definition is_lower (c : ascii) : bool := in_range 97 122 c.
Definition is_upper (c : ascii) : bool := in_range 65 90 c.
Definition is_digit (c : ascii) : bool := in_range 48 57 c.

(** The regex classes [[a-zA-Z]] and [[a-zA-Z0-9]]. *)
Definition is_ascii_alpha (c : ascii) : bool := is_lower c || is_upper c.
Definition is_ascii_alnum (c : ascii) : bool := is_ascii_alpha c || is_digit c.

(** [str.isalpha] on one character, for code points below 256: the ASCII
    letters and the Latin-1 letters (categories Lu, Ll, Lo). *)
Definition py_isalpha (c : ascii) : bool :=
  is_ascii_alpha c
  || (code c =? 170) || (code c =? 181) || (code c =? 186)
  || in_range 192 214 c || in_range 216 246 c || in_range 248 255 c.

(** [str.isalnum] on one character, for code points below 256: letters,
    decimal digits, the superscript digits and the vulgar fractions. *)
Definition py_isalnum (c : ascii) : bool :=
  py_isalpha c || is_digit c
  || (code c =? 178) || (code c =? 179) || (code c =? 185)
  || in_range 188 190 c.

(** [str.isspace] on one character, for code points below 256; the regex
    class [\s] of a [str] pattern is the same set. *)
Definition py_isspace (c : ascii) : bool :=
  in_range 9 13 c || in_range 28 32 c || (code c =? 133) || (code c =? 160).

(** The regex class [\w] of a [str] pattern: alphanumerics and the
    underscore. *)
Definition is_word (c : ascii) : bool := py_isalnum c || (code c =? 95).

(** [str.lower] on one character (below 256 every character lowers to a
    single character of the same range). *)
Definition lower_char (c : ascii) : ascii :=
  if is_upper c || ((in_range 192 222 c) && negb (code c =? 215))
  then chr (code c + 32) else c.

Definition lower (s : text) : text := map lower_char s.

Definition eqc (a b : ascii) : bool := Ascii.eqb a b.

(** [s.replace(a, b)] for single characters [a] and [b]. *)
Definition replace_char (a b : ascii) (s : text) : text :=
  map (fun c => if eqc c a then b else c) s.

(** [re.sub('[^...]', repl, s)] for a character class given as a predicate
    [keep] and a one-character replacement. *)
Definition sub_not_in_class (keep : ascii -> bool) (repl : ascii) (s : text) : text :=
  map (fun c => if keep c then c else repl) s.

(** [re.sub('[^...]', '', s)]. *)
Definition remove_not_in_class (keep : ascii -> bool) (s : text) : text :=
  filter (fun c => keep c = true) s.

(** [re.sub('c+', 'c', s)]: every maximal run of [c] becomes one [c]. *)
Fixpoint collapse (c : ascii) (s : text) : text :=
  match s with
  | [] => []
  | x :: s' =>
      match s' with
      | y :: _ => if eqc x c && eqc y c then collapse c s' else x :: collapse c s'
      | [] => [x]
      end
  end.

(** [s.lstrip(chars)] and [s.rstrip(chars)], the set [chars] given as a
    predicate. *)
Fixpoint lstrip (p : ascii -> bool) (s : text) : text :=
  match s with
  | [] => []
  | x :: s' => if p x then lstrip p s' else s
  end.

Fixpoint rstrip (p : ascii -> bool) (s : text) : text :=
  match s with
  | [] => []
  | x :: s' =>
      match rstrip p s' with
      | [] => if p x then [] else [x]
      | r => x :: r
      end
  end.

Definition strip (p : ascii -> bool) (s : text) : text := rstrip p (lstrip p s).

(** [s[:n]] *)
Definition slice_to (n : nat) (s : text) : text := firstn n s.

(** [needle in s]: [starts_with] is [str.startswith], [contains] the
    substring test. *)
Fixpoint starts_with (p s : text) : bool :=
  match p, s with
  | [], _ => true
  | _ :: _, [] => false
  | a :: p', b :: s' => eqc a b && starts_with p' s'
  end.

Fixpoint contains (needle s : text) : bool :=
  starts_with needle s ||
  match s with
  | [] => false
  | _ :: s' => contains needle s'
  end.

End Text.

Import Text.

(** ** utils/validation.py: the name sanitizers *)

Module Sanitize.

Definition hyphen : ascii := chr 45.
Definition underscore : ascii := chr 95.
Definition space : ascii := chr 32.

Definition is_hyphen (c : ascii) : bool := eqc c hyphen.
Definition is_underscore (c : ascii) : bool := eqc c underscore.

Definition first_is (p : ascii -> bool) (s : text) : bool :=
  match s with
  | [] => false
  | c :: _ => p c
  end.

(** [if len(s) > max_length: s = s[:max_length].rstrip(ch)] *)
Definition truncate (p : ascii -> bool) (max_length : nat) (s : text) : text :=
  if max_length <? length s then rstrip p (slice_to max_length s) else s.

(** [if not s: s = fallback] *)
Definition or_default (fallback : text) (s : text) : text :=
  match s with
  | [] => fallback
  | _ => s
  end.

(** [sanitize_aws_name(name, max_length=63)] *)
Definition sanitize_aws_name (name : text) (max_length : nat) : text :=
  let sanitized := lower name in
  let sanitized := replace_char underscore hyphen (replace_char space hyphen sanitized) in
  let sanitized :=
    remove_not_in_class (fun c => is_lower c || is_digit c || is_hyphen c) sanitized in
  let sanitized := collapse hyphen sanitized in
  let sanitized :=
    match sanitized with
    | c :: _ => if py_isalpha c then sanitized else T "a-" ++ sanitized
    | [] => sanitized
    end in
  let sanitized := strip is_hyphen sanitized in
  let sanitized := truncate is_hyphen max_length sanitized in
  or_default (T "agent") sanitized.

(** [sanitize_memory_name(name, max_length=48)] *)
Definition sanitize_memory_name (name : text) (max_length : nat) : text :=
  let sanitized := lower name in
  let sanitized := replace_char hyphen underscore (replace_char space underscore sanitized) in
  let sanitized :=
    remove_not_in_class (fun c => is_lower c || is_digit c || is_underscore c) sanitized in
  let sanitized := collapse underscore sanitized in
  let sanitized :=
    match sanitized with
    | c :: _ => if py_isalpha c then sanitized else T "a_" ++ sanitized
    | [] => sanitized
    end in
  let sanitized := strip is_underscore sanitized in
  let sanitized := truncate is_underscore max_length sanitized in
  or_default (T "agent_memory") sanitized.

(** [sanitize_runtime_name(name, max_length=48)] *)
Definition sanitize_runtime_name (name : text) (max_length : nat) : text :=
  let sanitized := sub_not_in_class is_ascii_alnum underscore name in
  let sanitized := collapse underscore sanitized in
  let sanitized := strip is_underscore sanitized in
  let sanitized :=
    match sanitized with
    | c :: _ => if py_isalpha c then sanitized else T "agent_" ++ sanitized
    | [] => sanitized
    end in
  let sanitized := truncate is_underscore max_length sanitized in
  or_default (T "agent") sanitized.

(** [sanitize_gateway_name(name, max_length=48)] *)
Definition sanitize_gateway_name (name : text) (max_length : nat) : text :=
  let sanitized :=
    sub_not_in_class (fun c => is_ascii_alnum c || is_hyphen c) hyphen name in
  let sanitized := collapse hyphen sanitized in
  let sanitized := strip is_hyphen sanitized in
  let sanitized :=
    match sanitized with
    | c :: _ =>
        if py_isalnum c then sanitized else T "gw-" ++ lstrip is_hyphen sanitized
    | [] => sanitized
    end in
  let sanitized := truncate is_hyphen max_length sanitized in
  or_default (T "gateway") sanitized.

(** [sanitize_gateway_target_name(name, max_length=100)] *)
Definition sanitize_gateway_target_name (name : text) (max_length : nat) : text :=
  let sanitized :=
    sub_not_in_class (fun c => is_ascii_alnum c || is_hyphen c) hyphen name in
  let sanitized := collapse hyphen sanitized in
  let sanitized := strip is_hyphen sanitized in
  let sanitized := truncate is_hyphen max_length sanitized in
  or_default (T "tool") sanitized.

(** The five kinds of the sanitizer, each with the default length cap of
    its Python signature. *)
Inductive kind := AwsName | MemoryName | RuntimeName | GatewayName | GatewayTargetName.

Definition default_max_length (k : kind) : nat :=
  match k with
  | AwsName => 63
  | MemoryName => 48
  | RuntimeName => 48
  | GatewayName => 48
  | GatewayTargetName => 100
  end.

Definition sanitize (x : text) (k : kind) : text :=
  match k with
  | AwsName => sanitize_aws_name x (default_max_length k)
  | MemoryName => sanitize_memory_name x (default_max_length k)
  | RuntimeName => sanitize_runtime_name x (default_max_length k)
  | GatewayName => sanitize_gateway_name x (default_max_length k)
  | GatewayTargetName => sanitize_gateway_target_name x (default_max_length k)
  end.

End Sanitize.

(** ** The [re.sub] scan and the three patterns of the synthesizer *)

Module Regex.

(** One successful match at the current position: the text it covers, the
    text that replaces it and the input that follows it. *)
Record hit := Hit { matched : text; replacement : text; remainder : text }.

(** A pattern, as a function of the position: [bol] tells whether the
    position is at the start of a line (what [^] asks under
    [re.MULTILINE]), the text is the input from the position on. *)
Definition matcher := bool -> text -> option hit.

Definition last_is_nl (m : text) (bol : bool) : bool :=
  match last m with
  | Some c => eqc c nl
  | None => bol
  end.

(** [re.sub(pattern, repl, s)]: scan from the left; where the pattern
    matches, emit the replacement and resume after the match; elsewhere
    copy one character.  The fuel is the length of the input: every
    pattern below covers at least one character. *)
Fixpoint re_sub_fuel (fuel : nat) (m : matcher) (bol : bool) (s : text) : text :=
  match fuel with
  | 0 => s
  | S fuel' =>
      match s with
      | [] => []
      | c :: s' =>
          match m bol s with
          | Some h =>
              replacement h
                ++ re_sub_fuel fuel' m (last_is_nl (matched h) bol) (remainder h)
          | None => c :: re_sub_fuel fuel' m (eqc c nl) s'
          end
      end
  end.

Definition re_sub (m : matcher) (s : text) : text :=
  re_sub_fuel (length s) m true s.

(** The longest prefix whose characters satisfy [p], and what follows. *)
Fixpoint span (p : ascii -> bool) (s : text) : text * text :=
  match s with
  | [] => ([], [])
  | c :: s' =>
      if p c then let '(a, b) := span p s' in (c :: a, b) else ([], s)
  end.

(** [Some rest] when [s = p ++ rest]. *)
Fixpoint strip_prefix (p s : text) : option text :=
  match p, s with
  | [], _ => Some s
  | _ :: _, [] => None
  | a :: p', b :: s' => if eqc a b then strip_prefix p' s' else None
  end.

Definition is_nl (c : ascii) : bool := eqc c nl.

(** The class [[\w\.]]. *)
Definition is_module_char (c : ascii) : bool := is_word c || eqc c (chr 46).

(** A greedy [\s*] followed by [$] (multi-line): [w] is the whole run of
    white space at the position and [after] the input behind it.  At the
    end of the input the run is taken whole; otherwise the engine backs
    up to just before the last newline of the run. *)
Fixpoint split_last_nl (w : text) : option (text * text) :=
  match w with
  | [] => None
  | c :: w' =>
      match split_last_nl w' with
      | Some (a, b) => Some (c :: a, b)
      | None => if is_nl c then Some ([], w) else None
      end
  end.

(** [^\s*import\s+[\w\.]+\s*$] with [re.MULTILINE]. *)
Definition match_plain_import : matcher := fun bol s =>
  if negb bol then None else
  let '(w0, s1) := span py_isspace s in
  match strip_prefix (T "import") s1 with
  | None => None
  | Some s2 =>
      let '(w1, s3) := span py_isspace s2 in
      let '(name, s4) := span is_module_char s3 in
      let '(w2, s5) := span py_isspace s4 in
      match w1, name with
      | _ :: _, _ :: _ =>
          let head := w0 ++ T "import" ++ w1 ++ name in
          match s5 with
          | [] => Some (Hit (head ++ w2) [] [])
          | _ :: _ =>
              match split_last_nl w2 with
              | Some (a, b) => Some (Hit (head ++ a) [] (b ++ s5))
              | None => None
              end
          end
      | _, _ => None
      end
  end.

(** [^\s*from\s+[\w\.]+\s+import\s+.+$] with [re.MULTILINE].  The final
    [\s+.+$]: when a character that is not white space follows the run
    [w3], [.+] runs to the end of that line; when the run reaches the end
    of the input, the engine backs up inside it to the last character
    that is not a newline. *)
Definition match_from_import : matcher := fun bol s =>
  if negb bol then None else
  let '(w0, s1) := span py_isspace s in
  match strip_prefix (T "from") s1 with
  | None => None
  | Some s2 =>
      let '(w1, s3) := span py_isspace s2 in
      let '(name, s4) := span is_module_char s3 in
      let '(w2, s5) := span py_isspace s4 in
      match strip_prefix (T "import") s5 with
      | None => None
      | Some s6 =>
          let '(w3, s7) := span py_isspace s6 in
          match w1, name, w2, w3 with
          | _ :: _, _ :: _, _ :: _, c3 :: w3' =>
              let head := w0 ++ T "from" ++ w1 ++ name ++ w2 ++ T "import" in
              match s7 with
              | _ :: _ =>
                  let '(d, rest) := span (fun c => negb (is_nl c)) s7 in
                  Some (Hit (head ++ w3 ++ d) [] rest)
              | [] =>
                  match rstrip is_nl w3' with
                  | [] => None
                  | k :: ks =>
                      let kept := c3 :: k :: ks in
                      Some (Hit (head ++ kept) [] (skipn (length kept) w3))
                  end
              end
          | _, _, _, _ => None
          end
      end
  end.

Definition is_quote (c : ascii) : bool := eqc c sq || eqc c dq.

Definition not_close_paren (c : ascii) : bool := negb (eqc c (chr 41)).

(** The optional group [(,\s*[^)]+)?] followed by [\)]: group 3 and the
    input after the closing parenthesis.  The group is the comma and the
    whole run of characters other than [)] behind it, a run that must not
    be empty and must be closed by [)]. *)
Definition match_default (s : text) : option (text * text) :=
  match s with
  | c :: s' =>
      if eqc c (chr 41) then Some ([], s')
      else if eqc c (chr 44) then
        match span not_close_paren s' with
        | (d0 :: d, p :: rest) => Some (c :: d0 :: d, rest)
        | _ => None
        end
      else None
  | [] => None
  end.

(** The groups of
    [(['"])field\1\s*:\s*parameters\.get\((['"])field\2(,\s*[^)]+)?\)]
    at the start of [s]: group 1, group 2, group 3 and the input after
    the match. *)
Definition match_decimal_groups (field : text) (s : text)
  : option (ascii * ascii * text * text) :=
  match s with
  | q :: s1 =>
      if negb (is_quote q) then None else
      match strip_prefix (field ++ [q]) s1 with
      | None => None
      | Some s2 =>
          match snd (span py_isspace s2) with
          | colon :: s3 =>
              if negb (eqc colon (chr 58)) then None else
              match strip_prefix (T "parameters.get(") (snd (span py_isspace s3)) with
              | Some (q2 :: s4) =>
                  if negb (is_quote q2) then None else
                  match strip_prefix (field ++ [q2]) s4 with
                  | None => None
                  | Some s5 =>
                      match match_default s5 with
                      | Some (d, rest) => Some (q, q2, d, rest)
                      | None => None
                      end
                  end
              | _ => None
              end
          | [] => None
          end
      end
  | [] => None
  end.

(** [replace_with_decimal]: the text put in place of a match. *)
Definition replace_with_decimal (field : text) (quote field_quote : ascii)
    (default_part : text) : text :=
  [quote] ++ field ++ [quote] ++ T ": Decimal(str(parameters.get("
    ++ [field_quote] ++ field ++ [field_quote] ++ default_part ++ T ")))".

Definition match_decimal (field : text) : matcher := fun _ s =>
  match match_decimal_groups field s with
  | Some (q, q2, d, rest) =>
      Some (Hit (firstn (length s - length rest) s)
                (replace_with_decimal field q q2 d) rest)
  | None => None
  end.

End Regex.

(** ** services/lambda_service.py: [LambdaService._generate_lambda_code] *)

Module Synth.

Import Regex.

(** [s.split('\n')] and ['\n'.join(lines)]. *)
Fixpoint split_lines (s : text) : list text :=
  match s with
  | [] => [[]]
  | c :: s' =>
      match split_lines s' with
      | l :: ls => if is_nl c then [] :: l :: ls else (c :: l) :: ls
      | [] => [[c]]
      end
  end.

Fixpoint join_lines (ls : list text) : text :=
  match ls with
  | [] => []
  | [l] => l
  | l :: ls' => l ++ nl :: join_lines ls'
  end.

Definition is_blank (l : text) : bool :=
  match strip py_isspace l with
  | [] => true
  | _ => false
  end.

(** [line.strip() or not line] *)
Definition keep_line (l : text) : bool :=
  negb (is_blank l) || match l with [] => true | _ => false end.

(** The line boundaries of [str.splitlines], for code points below 256. *)
Definition is_linebreak (c : ascii) : bool :=
  in_range 10 13 c || in_range 28 30 c || (code c =? 133).

(** Whether the line that starts at [s] (up to its boundary) has only
    white space: [not line.strip()]. *)
Fixpoint line_is_blank (s : text) : bool :=
  match s with
  | [] => true
  | c :: s' =>
      if is_linebreak c then true
      else if py_isspace c then line_is_blank s' else false
  end.

(** [textwrap.indent(text, prefix)]: the prefix goes in front of every
    line of [text.splitlines(True)] that is not blank.  [bol] tells
    whether [s] starts a line; a carriage return directly followed by a
    newline does not end the line by itself. *)
Fixpoint indent_from (prefix : text) (bol : bool) (s : text) : text :=
  match s with
  | [] => []
  | c :: s' =>
      let ends :=
        is_linebreak c && negb (eqc c (chr 13) && starts_with [nl] s') in
      (if bol && negb (line_is_blank s) then prefix else [])
        ++ c :: indent_from prefix ends s'
  end.

Definition indent (s prefix : text) : text := indent_from prefix true s.

(** [LambdaToolSpec], with the two fields the generator reads as text;
    the description and the input schema play no part in the generated
    code and are kept abstract. *)
Record LambdaToolSpec (meta : Type) := {
  name : text;
  description : meta;
  input_schema : meta;
  handler_code : text
}.
Arguments name {meta}.
Arguments description {meta}.
Arguments input_schema {meta}.
Arguments handler_code {meta}.

Definition is_complete (h : text) : bool :=
  contains (T "def handler") h || contains (T "def lambda_handler") h.

Definition needs_boto3 (h : text) : bool :=
  contains (T "boto3") h || contains (T "dynamodb") (lower h).
Definition needs_datetime (h : text) : bool := contains (T "datetime") h.
Definition needs_os (h : text) : bool :=
  contains (T "os.environ") h || contains (T "os.getenv") h.
Definition needs_decimal (h : text) : bool :=
  contains (T "Decimal") h || contains (T "dynamodb") (lower h)
  || contains (T "put_item") h.

(** The two [re.sub] calls that remove import lines, the blank-line
    filter and [lstrip('\n')]. *)
Definition strip_imports (h : text) : text :=
  let h := re_sub match_plain_import h in
  let h := re_sub match_from_import h in
  let h := join_lines (filter (fun l => keep_line l = true) (split_lines h)) in
  lstrip is_nl h.

Definition numeric_fields : list text :=
  [T "amount"; T "price"; T "cost"; T "total"; T "quantity";
   T "days"; T "hours"; T "count"; T "value"; T "balance"].

(** The loop over [numeric_fields], one [re.sub] per field. *)
Definition wrap_fields (fields : list text) (h : text) : text :=
  fold_left (fun h field => re_sub (match_decimal field) h) fields h.

Definition fix_decimals (needs_dec : bool) (h : text) : text :=
  if contains (T "put_item") h && needs_dec then wrap_fields numeric_fields h else h.

(** The logic-only path up to the re-indented body. *)
Definition or_pass (h : text) : text :=
  match strip py_isspace h with
  | [] => T "pass  # No implementation provided"
  | _ => h
  end.

Definition body_of (h : text) : text :=
  fix_decimals (needs_decimal h) (strip_imports h).

Definition imports_of (h : text) : list text :=
  [T "import json"; T "import logging"]
    ++ (if needs_boto3 h then [T "import boto3"] else [])
    ++ (if needs_datetime h then [T "from datetime import datetime"] else [])
    ++ (if needs_os h then [T "import os"] else [])
    ++ (if needs_decimal h then [T "from decimal import Decimal"] else []).

(** The f-string template around the body: what precedes the body (after
    the import block) and what follows it. *)
Definition template_head (tool_name : text) : text :=
  join_lines
    [ [];
      [];
      T "logger = logging.getLogger()";
      T "logger.setLevel(logging.INFO)";
      [];
      T "def handler(event, context):";
      T "    " ++ [dq; dq; dq] ++ T "Lambda handler for " ++ tool_name ++ T " tool"
        ++ [dq; dq; dq];
      T "    try:";
      T "        logger.info(f" ++ [dq] ++ T "Tool " ++ tool_name
        ++ T " invoked with event: {json.dumps(event)}" ++ [dq] ++ T ")";
      T "        ";
      T "        # Extract parameters";
      T "        parameters = event.get('parameters', event)";
      T "        ";
      T "        # Execute tool logic";
      [] ].

Definition template_tail : text :=
  join_lines
    [ [];
      T "        ";
      T "    except Exception as e:";
      T "        logger.error(f" ++ [dq] ++ T "Tool execution failed: {str(e)}" ++ [dq]
        ++ T ", exc_info=True)";
      T "        return {";
      T "            'statusCode': 500,";
      T "            'body': json.dumps({'error': str(e)})";
      T "        }";
      [] ].

Definition complete_header : text :=
  join_lines
    [ T "import json"; T "import logging"; [];
      T "logger = logging.getLogger()"; T "logger.setLevel(logging.INFO)"; []; [] ].

(** The synthesized unit of the logic-only path: the import block and
    the re-indented body, and the source text they are rendered into. *)
Record unit_parts := { imports : list text; body : text }.

Definition wrap_logic (h0 : text) : unit_parts :=
  let h := or_pass h0 in
  {| imports := imports_of h;
     body := indent (body_of h) (T "        ") |}.

Definition render (tool_name : text) (u : unit_parts) : text :=
  join_lines (imports u) ++ template_head tool_name ++ body u ++ template_tail.

Definition _generate_lambda_code {meta} (tool_spec : LambdaToolSpec meta) : text :=
  let h := strip py_isspace (handler_code tool_spec) in
  if is_complete h then
    if negb (contains (T "import json") h) then complete_header ++ h else h
  else render (name tool_spec) (wrap_logic h).

End Synth.

(** ** The control plane seen from the builder tools

    The AWS clients are external.  Every API call is a [request]; the
    control plane is an [oracle] that answers a request, given the
    requests made before it, with a response dictionary or with an
    exception.  The builder tools run in a state-and-exception monad
    over the [world]: the two module-level trackers and the log of the
    requests made so far. *)

Module Cloud.

Inductive exn_kind :=
| ResourceNotFoundException
| ResourceConflictException
| ConflictException
| OtherClientError
| LambdaServiceError
| ValueError
| KeyError
| AttributeError
| OtherException.

Record exn := Exn { exn_class : exn_kind; exn_msg : string }.

(** [isinstance(e, botocore.exceptions.ClientError)] *)
Definition is_client_error (e : exn) : bool :=
  match exn_class e with
  | ResourceNotFoundException | ResourceConflictException
  | ConflictException | OtherClientError => true
  | _ => false
  end.

(** A value parsed by [json.loads]; a number is kept as its literal. *)
#[warnings="-register-all"]
Inductive json :=
| JNull
| JBool (b : bool)
| JNumber (literal : string)
| JString (s : string)
| JArray (items : list json)
| JObject (members : gmap string json).

(** The parameters shared by [create_agent_runtime] and
    [update_agent_runtime]; the network mode is always ['PUBLIC']. *)
Record runtime_params := {
  containerUri : string;
  roleArn : string;
  environmentVariables : gmap string string;
  protocolConfiguration : option string
}.

Inductive request :=
| GetCallerIdentity
| CreateGateway (name description role_arn : string)
| CreateAgentRuntime (agentRuntimeName : string) (p : runtime_params)
| ListAgentRuntimes
| UpdateAgentRuntime (agentRuntimeId : string) (p : runtime_params)
| GetFunction (function_name : string)
| UpdateFunctionCode (function_name : string) (source : text)
| CreateFunction (function_name role_arn : string) (description : json)
    (tool_name : string) (source : text)
| CreateGatewayTarget (gateway_id target_name : string) (description : json)
    (lambda_arn : string) (tool_name : json) (input_schema : json)
| AddPermission (function_name statement_id source_arn : string).

(** A response dictionary: its string-valued entries and, for the list
    calls, the summaries under its list-valued entry. *)
Record response := {
  fields : gmap string string;
  summaries : list (gmap string string)
}.

Definition oracle := list request -> request -> exn + response.

(** The module-level dictionaries [_gateway_tracker] and
    [_deployment_tracker]. *)
Record gateway_tracker := {
  created : bool;
  gateway_id : option string;
  gateway_name : option string
}.

Record deployment_tracker := {
  deployed : bool;
  agent_name : option string
}.

Record world := {
  gateway : gateway_tracker;
  deployment : deployment_tracker;
  history : list request
}.

Definition set_gateway (t : gateway_tracker) (w : world) : world :=
  {| gateway := t; deployment := deployment w; history := history w |}.

Definition set_deployment (t : deployment_tracker) (w : world) : world :=
  {| gateway := gateway w; deployment := t; history := history w |}.

Definition log (r : request) (w : world) : world :=
  {| gateway := gateway w; deployment := deployment w; history := history w ++ [r] |}.

(** What [invoke_agent] does to the trackers at the start of every
    invocation. *)
Definition reset_trackers (w : world) : world :=
  {| gateway := {| created := false; gateway_id := None; gateway_name := None |};
     deployment := {| deployed := false; agent_name := None |};
     history := history w |}.

Definition M (A : Type) : Type := world -> (exn + A) * world.

Definition ret {A} (a : A) : M A := fun w => (inr a, w).

Definition raise {A} (e : exn) : M A := fun w => (inl e, w).

Definition bind {A B} (c : M A) (k : A -> M B) : M B := fun w =>
  match c w with
  | (inr a, w') => k a w'
  | (inl e, w') => (inl e, w')
  end.

(** [try: c except Exception as e: h(e)] *)
Definition try_except {A} (c : M A) (h : exn -> M A) : M A := fun w =>
  match c w with
  | (inr a, w') => (inr a, w')
  | (inl e, w') => h e w'
  end.

(** Run [c] and hand back its outcome without raising. *)
Definition attempt {A} (c : M A) : M (exn + A) := fun w =>
  match c w with
  | (r, w') => (inr r, w')
  end.

Definition get_world : M world := fun w => (inr w, w).

Definition modify (f : world -> world) : M unit := fun w => (inr tt, f w).

Section calls.
Variable cp : oracle.

(** One API call: it is logged, and the control plane answers. *)
Definition call (r : request) : M response := fun w =>
  (cp (history w) r, log r w).
End calls.

(** [response[key]] and [response.get(key, default)] *)
Definition item (d : gmap string string) (key : string) : M string :=
  match d !! key with
  | Some v => ret v
  | None => raise (Exn KeyError key)
  end.

Definition item_or (d : gmap string string) (key default : string) : string :=
  match d !! key with
  | Some v => v
  | None => default
  end.

(** [os.getenv(key)], [os.getenv(key, default)] and the truth value of
    an optional string. *)
Definition environ := gmap string string.

Definition getenv (env : environ) (key : string) : option string := env !! key.

Definition getenv_or (env : environ) (key default : string) : string :=
  item_or env key default.

Definition truthy (o : option string) : bool :=
  match o with
  | Some s => negb (String.eqb s "")
  | None => false
  end.

End Cloud.

Declare Scope cloud_scope.
Notation "'let*' x ':=' c 'in' k" := (Cloud.bind c (fun x => k))
  (at level 10, x name, c at level 100, k at level 200) : cloud_scope.
Notation "c1 ';;' c2" := (Cloud.bind c1 (fun _ => c2))
  (at level 100, c2 at level 200, right associativity) : cloud_scope.

(** ** utils/validation.py: [validate_tool_schema] *)

Module Schema.

Import Cloud.

(** The [ValidationError]s of [validate_tool_schema], one per message;
    the three messages about a single property share [InvalidProperty]
    (which of several bad properties is reported depends on the
    iteration order of the dictionary).  [Unhashable] is the [TypeError]
    of a [required] entry that is a list or an object. *)
Inductive schema_error :=
| NotADictionary
| MissingType
| TypeNotObject
| MissingProperties
| PropertiesNotADictionary
| PropertiesEmpty
| InvalidProperty
| RequiredNotAList
| RequiredNotFound
| Unhashable.

Definition valid_types : list string :=
  ["string"; "number"; "integer"; "boolean"; "array"; "object"; "null"].

Definition valid_property (prop_schema : json) : bool :=
  match prop_schema with
  | JObject p =>
      match p !! "type" with
      | Some (JString t) => existsb (String.eqb t) valid_types
      | _ => false
      end
  | _ => false
  end.

Fixpoint check_required (properties : gmap string json) (required : list json)
  : schema_error + unit :=
  match required with
  | [] => inr tt
  | JString name :: rest =>
      match properties !! name with
      | Some _ => check_required properties rest
      | None => inl RequiredNotFound
      end
  | JArray _ :: _ | JObject _ :: _ => inl Unhashable
  | _ :: _ => inl RequiredNotFound
  end.

Definition validate_tool_schema (schema : json) : schema_error + unit :=
  match schema with
  | JObject d =>
      match d !! "type" with
      | None => inl MissingType
      | Some (JString "object") =>
          match d !! "properties" with
          | None => inl MissingProperties
          | Some (JObject properties) =>
              if decide (properties = ∅) then inl PropertiesEmpty
              else if negb (forallb valid_property (map_to_list properties).*2)
              then inl InvalidProperty
              else
                match d !! "required" with
                | None => inr tt
                | Some (JArray required) => check_required properties required
                | Some _ => inl RequiredNotAList
                end
          | Some _ => inl PropertiesNotADictionary
          end
      | Some _ => inl TypeNotObject
      end
  | _ => inl NotADictionary
  end.

End Schema.

(** ** builder_agent/tools/create_gateway.py *)

Module Gateway.

Import Cloud.
Local Open Scope cloud_scope.

(** The four texts [create_gateway] can return: the two banners and the
    two [format_deployment_error] reports, each with the values that are
    interpolated into it. *)
Inductive result :=
| DuplicateBlocked (gateway_name gateway_id : option string)
| ConfigurationError
| GatewayCreated (name gateway_id description mcp_url : string)
| GatewayCreationFailed (error_message : string).

Definition sanitize_gateway_name (name : string) : string :=
  string_of_list_ascii (Sanitize.sanitize_gateway_name (T name) 48).

Section create_gateway.
Variable cp : oracle.
Variable env : environ.

Definition create_gateway (name description : string) : M result :=
  let* w := get_world in
  if created (gateway w) then
    ret (DuplicateBlocked (gateway_name (gateway w)) (gateway_id (gateway w)))
  else
    try_except
      (match getenv env "AGENTCORE_EXECUTION_ROLE_ARN" with
       | Some execution_role =>
           if String.eqb execution_role "" then ret ConfigurationError else
           let safe_name := sanitize_gateway_name name in
           let* resp := call cp (CreateGateway safe_name description execution_role) in
           let* gateway_id := item (fields resp) "gatewayId" in
           let mcp_url := item_or (fields resp) "gatewayUrl" "N/A" in
           modify (set_gateway {| created := true;
                                  gateway_id := Some gateway_id;
                                  gateway_name := Some name |}) ;;
           ret (GatewayCreated name gateway_id description mcp_url)
       | None => ret ConfigurationError
       end)
      (fun e => ret (GatewayCreationFailed (exn_msg e))).
End create_gateway.

(** The [create_gateway] requests in a log. *)
Definition is_create_gateway (r : request) : bool :=
  match r with
  | CreateGateway _ _ _ => true
  | _ => false
  end.

Definition create_gateway_calls (h : list request) : nat :=
  length (filter (fun r => is_create_gateway r = true) h).

End Gateway.

(** ** builder_agent/tools/deploy_agent.py *)

Module Deploy.

Import Cloud.
Local Open Scope cloud_scope.

Inductive agent_mode := server | client.

Definition mode_name (m : agent_mode) : string :=
  match m with
  | server => "server"
  | client => "client"
  end.

(** The [if gateway_id: ... elif known_agent_ids and len(known_agent_ids) > 0:
    ... else: ...] chain. *)
Definition derive_agent_mode (gateway_id : option string)
    (known_agent_ids : option (list string)) : agent_mode :=
  if truthy gateway_id then server
  else
    match known_agent_ids with
    | Some (_ :: _) => client
    | _ => server
    end.

(** [','.join(items)] *)
Fixpoint join_commas (items : list string) : string :=
  match items with
  | [] => ""
  | [x] => x
  | x :: rest => x ++ "," ++ join_commas rest
  end.

Definition bool_name (b : bool) : string := if b then "true" else "false".

Record arguments := {
  name : string;
  purpose : string;
  capabilities : list string;
  system_prompt : string;
  gateway_id : option string;
  enable_code_interpreter : bool;
  enable_browser : bool;
  known_agent_ids : option (list string)
}.

Definition env_vars (env : environ) (a : arguments) : gmap string string :=
  <["AWS_REGION" := getenv_or env "AWS_REGION" "us-west-2"]>
  (<["MODEL_ID" := getenv_or env "DEPLOYED_AGENT_MODEL_ID"
                     "us.anthropic.claude-haiku-4-5-20251001-v1:0"]>
  (<["SYSTEM_PROMPT" := system_prompt a]>
  (<["AGENT_NAME" := name a]>
  (<["AGENT_PURPOSE" := purpose a]>
  (<["AGENT_CAPABILITIES" := join_commas (capabilities a)]>
  (<["AGENT_MODE" := mode_name (derive_agent_mode (gateway_id a) (known_agent_ids a))]>
  (<["ENABLE_CODE_INTERPRETER" := bool_name (enable_code_interpreter a)]>
  (<["ENABLE_BROWSER" := bool_name (enable_browser a)]>
  (<["KNOWN_AGENT_IDS" := match known_agent_ids a with
                          | Some (x :: l) => join_commas (x :: l)
                          | _ => ""
                          end]>
  (<["BEDROCK_AGENTCORE_MEMORY_ID" := getenv_or env "BEDROCK_AGENTCORE_MEMORY_ID" ""]>
  (<["GATEWAY_ID" := if truthy (gateway_id a)
                     then default "" (gateway_id a) else ""]> ∅))))))))))).

(** [{'serverProtocol': 'A2A'} if agent_mode == 'server' else None] *)
Definition protocol_config (m : agent_mode) : option string :=
  match m with
  | server => Some "A2A"
  | client => None
  end.

Definition params (env : environ) (account_id execution_role : string) (a : arguments)
  : runtime_params :=
  {| containerUri :=
       account_id ++ ".dkr.ecr." ++ getenv_or env "AWS_REGION" "us-west-2"
         ++ ".amazonaws.com/" ++ getenv_or env "ECR_REPOSITORY_PREFIX" "reinvent/agents"
         ++ ":generic-agent-a2a";
     roleArn := execution_role;
     environmentVariables := env_vars env a;
     protocolConfiguration :=
       protocol_config (derive_agent_mode (gateway_id a) (known_agent_ids a)) |}.

(** The texts [deploy_agent] can return, each with the values that are
    interpolated into it. *)
Inductive result :=
| DuplicateBlocked (agent_name : option string)
| NotConfigured
| Deployed (agent_id agent_arn status : string) (a : arguments)
| Updated (agent_id : string) (name : string)
| ExistsButNotFound (runtime_name : string)
| PermissionDenied (error_message : string)
| ContainerNotFound
| DeploymentError (error_message : string).

Definition sanitize_runtime_name (name : string) : string :=
  string_of_list_ascii (Sanitize.sanitize_runtime_name (T name) 48).

Definition mentions (needle : string) (msg : string) : bool :=
  contains (T needle) (T msg).

(** The [except Exception as e] at the end of [deploy_agent]. *)
Definition classify (e : exn) : result :=
  let error_msg := exn_msg e in
  if mentions "AccessDenied" error_msg || mentions "UnauthorizedOperation" error_msg
  then PermissionDenied error_msg
  else if mentions "RepositoryNotFoundException" error_msg
          || mentions "ImageNotFoundException" error_msg
  then ContainerNotFound
  else DeploymentError error_msg.

(** The first summary of [list_agent_runtimes] with the given name; a
    summary without a name raises [KeyError]. *)
Fixpoint find_runtime (runtime_name : string) (l : list (gmap string string))
  : M (option (gmap string string)) :=
  match l with
  | [] => ret None
  | r :: l' =>
      let* n := item r "agentRuntimeName" in
      if String.eqb n runtime_name then ret (Some r) else find_runtime runtime_name l'
  end.

Section deploy_agent.
Variable cp : oracle.
Variable env : environ.

Definition mark_deployed (a : arguments) : M unit :=
  modify (set_deployment {| deployed := true; agent_name := Some (name a) |}).

Definition deploy_agent (a : arguments) : M result :=
  let* w := get_world in
  if deployed (deployment w) then
    ret (DuplicateBlocked (agent_name (deployment w)))
  else
    try_except
      (match getenv env "AGENTCORE_EXECUTION_ROLE_ARN" with
       | None => ret NotConfigured
       | Some execution_role =>
           if String.eqb execution_role "" then ret NotConfigured else
           let* ident := call cp GetCallerIdentity in
           let* account_id := item (fields ident) "Account" in
           let runtime_name := sanitize_runtime_name (name a) in
           let p := params env account_id execution_role a in
           let* r := attempt
             (let* resp := call cp (CreateAgentRuntime runtime_name p) in
              let* agent_id := item (fields resp) "agentRuntimeId" in
              let* agent_arn := item (fields resp) "agentRuntimeArn" in
              let status := item_or (fields resp) "status" "CREATING" in
              mark_deployed a ;;
              ret (Deployed agent_id agent_arn status a)) in
           match r with
           | inr res => ret res
           | inl e =>
               match exn_class e with
               | ConflictException =>
                   let* listing := call cp ListAgentRuntimes in
                   let* existing := find_runtime runtime_name (summaries listing) in
                   match existing with
                   | Some runtime =>
                       let* agent_id := item runtime "agentRuntimeId" in
                       let* upd := call cp (UpdateAgentRuntime agent_id p) in
                       let* agent_arn := item (fields upd) "agentRuntimeArn" in
                       mark_deployed a ;;
                       ret (Updated agent_id (name a))
                   | None => ret (ExistsButNotFound runtime_name)
                   end
               | _ => raise e
               end
           end
       end)
      (fun e => ret (classify e)).
End deploy_agent.

End Deploy.

(** ** services/lambda_service.py ([create_tool_function]) and
       builder_agent/tools/create_lambda_tools.py *)

Module Tools.

Import Cloud.
Local Open Scope cloud_scope.

Definition str (t : text) : string := string_of_list_ascii t.

(** [key in d], [d[key]] and [d.get(key, default)] on a parsed object. *)
Definition member (d : gmap string json) (key : string) : bool :=
  match d !! key with
  | Some _ => true
  | None => false
  end.

Definition item_json (d : gmap string json) (key : string) : M json :=
  match d !! key with
  | Some v => ret v
  | None => raise (Exn KeyError key)
  end.

Definition get_json (d : gmap string json) (key : string) (default : json) : json :=
  match d !! key with
  | Some v => v
  | None => default
  end.

(** A method of [str] called on a parsed value raises [AttributeError]
    unless the value is a string. *)
Definition as_str (method : string) (v : json) : M string :=
  match v with
  | JString s => ret s
  | _ => raise (Exn AttributeError method)
  end.

(** [LambdaToolSpec] as [create_lambda_tools] builds it: the dataclass
    checks no types, every field is whatever the parsed object holds. *)
Record LambdaToolSpec := {
  name : json;
  description : json;
  input_schema : json;
  handler_code : json
}.

(** The dictionary returned by [create_tool_function]. *)
Record lambda_result := {
  function_arn : string;
  function_name : string;
  tool_name : json;
  tool_description : json;
  result_schema : json
}.

Section lambda_service.
Variable cp : oracle.

(** [LambdaService.create_tool_function]; [tool_spec.name.lower()] and,
    inside [_generate_lambda_code], [tool_spec.handler_code.strip()]
    need strings. *)
Definition create_tool_function (tool_spec : LambdaToolSpec)
    (execution_role_arn function_prefix : string) : M lambda_result :=
  try_except
    (let* name_str := as_str "lower" (name tool_spec) in
     let safe_name :=
       str (replace_char Sanitize.underscore Sanitize.hyphen
            (replace_char Sanitize.space Sanitize.hyphen (lower (T name_str)))) in
     let function_name := (function_prefix +:+ "-" +:+ safe_name) in
     let* code_str := as_str "strip" (handler_code tool_spec) in
     let lambda_code :=
       Synth._generate_lambda_code
         {| Synth.name := T name_str;
            Synth.description := description tool_spec;
            Synth.input_schema := input_schema tool_spec;
            Synth.handler_code := T code_str |} in
     let* r := attempt
       (call cp (GetFunction function_name) ;;
        call cp (UpdateFunctionCode function_name lambda_code)) in
     let* resp :=
       match r with
       | inr resp => ret resp
       | inl e =>
           match exn_class e with
           | ResourceNotFoundException =>
               call cp (CreateFunction function_name execution_role_arn
                          (description tool_spec) name_str lambda_code)
           | _ => raise e
           end
       end in
     let* arn := item (fields resp) "FunctionArn" in
     ret {| function_arn := arn;
            function_name := function_name;
            tool_name := name tool_spec;
            tool_description := description tool_spec;
            result_schema := input_schema tool_spec |})
    (fun e =>
       if is_client_error e
       then raise (Exn LambdaServiceError
                     ("Failed to create Lambda function: " +:+ exn_msg e))
       else raise e).
End lambda_service.

(** The entries of [created_tools] and [failed_tools]. *)
Record created_tool := {
  created_name : json;
  created_arn : string;
  created_description : json
}.

Record failed_tool := {
  failed_name : json;
  failed_error : string
}.

(** The texts [create_lambda_tools] can return, each with the values
    that are interpolated into it. *)
Inductive result :=
| ConfigurationError
| InvalidJson
| InvalidFormat
| ToolsCreated (gateway_id : string) (created : list created_tool)
| PartialFailure (n_created n_failed : nat) (failed : list failed_tool)
| AllToolsFailed
| ToolsCreationFailed (error_message : string).

Section create_lambda_tools.
Variable json_loads : string -> option json.
Variable cp : oracle.
Variable env : environ.

Definition region : string := getenv_or env "AWS_REGION" "us-west-2".

(** [os.getenv('LAMBDA_EXECUTION_ROLE_ARN') or
    os.getenv('AGENTCORE_EXECUTION_ROLE_ARN')] *)
Definition execution_role : option string :=
  if truthy (getenv env "LAMBDA_EXECUTION_ROLE_ARN")
  then getenv env "LAMBDA_EXECUTION_ROLE_ARN"
  else getenv env "AGENTCORE_EXECUTION_ROLE_ARN".

Definition permission_request (gateway_id account_id : string) (r : lambda_result)
  : request :=
  AddPermission (function_name r) ("AllowGatewayInvoke-" +:+ gateway_id)
    ("arn:aws:bedrock-agentcore:" +:+ region +:+ ":" +:+ account_id
       +:+ ":gateway/" +:+ gateway_id).

(** The part of the loop body's [try] that comes before the permission
    grant: the required-field check, the Lambda function, the gateway
    target and the caller's account. *)
Definition package_and_register (gateway_id role : string)
    (tool_def : gmap string json) : M (lambda_result * string) :=
  if negb (forallb (member tool_def) ["name"; "description"; "input_schema"; "handler_code"])
  then raise (Exn ValueError "Tool missing required fields")
  else
    let* name := item_json tool_def "name" in
    let* description := item_json tool_def "description" in
    let* schema := item_json tool_def "input_schema" in
    let* code := item_json tool_def "handler_code" in
    let tool_spec :=
      {| name := name; description := description;
         input_schema := schema; handler_code := code |} in
    let* lambda_result :=
      create_tool_function cp tool_spec role ("gateway-" +:+ gateway_id) in
    let* name_str := as_str "sub" name in
    let target_name :=
      str (Sanitize.sanitize_gateway_target_name (T name_str) 100) in
    call cp (CreateGatewayTarget gateway_id target_name description
               (function_arn lambda_result) name schema) ;;
    let* ident := call cp GetCallerIdentity in
    let* account_id := item (fields ident) "Account" in
    ret (lambda_result, account_id).

(** The inner [try] around [add_permission]: a
    [ResourceConflictException] and any other exception are logged and
    dropped. *)
Definition grant_invoke (gateway_id account_id : string) (r : lambda_result) : M unit :=
  try_except
    (call cp (permission_request gateway_id account_id r) ;; ret tt)
    (fun e =>
       match exn_class e with
       | ResourceConflictException => ret tt
       | _ => ret tt
       end).

(** The body of the loop's [try]. *)
Definition register_tool (gateway_id role : string) (tool_name : json)
    (tool_def : gmap string json) : M created_tool :=
  let* pr := package_and_register gateway_id role tool_def in
  grant_invoke gateway_id (snd pr) (fst pr) ;;
  let* description := item_json tool_def "description" in
  ret {| created_name := tool_name;
         created_arn := function_arn (fst pr);
         created_description := description |}.

(** One iteration of [for tool_def in tools]: [tool_def.get] is outside
    the [try] and raises when the element is not an object. *)
Definition process_tool (gateway_id role : string) (tool_def : json)
    (acc : list created_tool * list failed_tool)
  : M (list created_tool * list failed_tool) :=
  match tool_def with
  | JObject d =>
      let tool_name := get_json d "name" (JString "unknown") in
      let* r := attempt (register_tool gateway_id role tool_name d) in
      match r with
      | inr entry => ret (fst acc ++ [entry], snd acc)
      | inl e =>
          ret (fst acc,
               snd acc ++ [{| failed_name := tool_name; failed_error := exn_msg e |}])
      end
  | _ => raise (Exn AttributeError "get")
  end.

Fixpoint process_tools (gateway_id role : string) (tools : list json)
    (acc : list created_tool * list failed_tool)
  : M (list created_tool * list failed_tool) :=
  match tools with
  | [] => ret acc
  | tool_def :: rest =>
      let* acc' := process_tool gateway_id role tool_def acc in
      process_tools gateway_id role rest acc'
  end.

(** The three-way report at the end. *)
Definition report (gateway_id : string)
    (acc : list created_tool * list failed_tool) : result :=
  match fst acc, snd acc with
  | _ :: _, [] => ToolsCreated gateway_id (fst acc)
  | _, _ :: _ => PartialFailure (length (fst acc)) (length (snd acc)) (snd acc)
  | [], [] => AllToolsFailed
  end.

Definition create_lambda_tools (gateway_id tools_spec : string) : M result :=
  try_except
    (match execution_role with
     | None => ret ConfigurationError
     | Some role =>
         if String.eqb role "" then ret ConfigurationError else
         match json_loads tools_spec with
         | None => ret InvalidJson
         | Some (JArray tools) =>
             let* acc := process_tools gateway_id role tools ([], []) in
             ret (report gateway_id acc)
         | Some _ => ret InvalidFormat
         end
     end)
    (fun e => ret (ToolsCreationFailed (exn_msg e))).
End create_lambda_tools.

End Tools.

(** ** services/a2a_service.py and [validate_a2a_url] of utils/validation.py

    [urllib.parse.urlparse] and the agent registry are external: the
    first is a function from the URL to its scheme and network location
    ([None] when it raises), the second a lookup of agent records. *)

Module A2A.

Record AgentRecord := {
  agent_id : string;
  agent_name : string;
  agent_arn : string;
  status : string;
  a2a_url : option string;
  capabilities : list string
}.

Record A2AConnection := {
  source_agent_id : string;
  target_agent_id : string;
  target_a2a_url : string;
  target_agent_name : string
}.

Inductive error :=
| A2AValidationError (msg : string)
| A2AConnectionError (msg : string).

(** [not s] and [not s.strip()] *)
Definition is_empty (s : string) : bool := String.eqb s "".

Definition is_blank (s : string) : bool :=
  match strip py_isspace (T s) with
  | [] => true
  | _ => false
  end.

(** The connection service: [self._connections]. *)
Definition connections := gmap string (list A2AConnection).

Section service.
Variable urlparse : string -> option (string * string).
Variable get_agent : string -> option AgentRecord.

(** [utils.validation.validate_a2a_url]: [inl msg] is the
    [ValidationError] raised, [inr tt] the [True] returned. *)
Definition validate_a2a_url (url : string) : string + unit :=
  if is_empty url then inl "A2A URL cannot be empty"
  else if is_blank url then inl "A2A URL cannot be only whitespace"
  else
    match urlparse url with
    | Some (scheme, netloc) =>
        if negb (String.eqb scheme "https")
        then inl ("A2A URL must use HTTPS protocol, got: " +:+ scheme)
        else if is_empty netloc then inl "A2A URL must have a valid hostname"
        else inr tt
    | None => inl "Invalid A2A URL format"
    end.

(** [A2AConnection._validate_a2a_url] *)
Definition _validate_a2a_url (url : string) : error + unit :=
  if is_empty url || is_blank url then inl (A2AValidationError "A2A URL cannot be empty")
  else
    match urlparse url with
    | Some (scheme, netloc) =>
        if negb (String.eqb scheme "https")
        then inl (A2AValidationError
                    ("A2A URL must use HTTPS protocol, got: " +:+ scheme))
        else if is_empty netloc
        then inl (A2AValidationError "A2A URL must have a valid hostname")
        else inr tt
    | None => inl (A2AValidationError "Invalid A2A URL format")
    end.

(** The dataclass constructor with its [__post_init__]: constructing a
    connection is the validation gate. *)
Definition new_connection (source target url name : string) : error + A2AConnection :=
  if is_empty source || is_blank source
  then inl (A2AValidationError "source_agent_id cannot be empty")
  else if is_empty target || is_blank target
  then inl (A2AValidationError "target_agent_id cannot be empty")
  else
    match _validate_a2a_url url with
    | inl e => inl e
    | inr _ =>
        if is_empty name || is_blank name
        then inl (A2AValidationError "target_agent_name cannot be empty")
        else inr {| source_agent_id := source; target_agent_id := target;
                    target_a2a_url := url; target_agent_name := name |}
    end.

(** [get_connections] *)
Definition get_connections (st : connections) (agent : string) : list A2AConnection :=
  default [] (st !! agent).

(** [_update_agent_environment]: [Some e] is the error raised. *)
Definition _update_agent_environment (st : connections) (agent : string) : option error :=
  match get_connections st agent with
  | [] => None
  | _ :: _ =>
      match get_agent agent with
      | Some _ => None
      | None => Some (A2AConnectionError ("Agent not found in registry: " +:+ agent))
      end
  end.

Definition targets (target : string) (c : A2AConnection) : bool :=
  String.eqb (target_agent_id c) target.

(** The store step of [add_connection]: create the source's list when
    missing, drop an existing connection to the same target, append. *)
Definition store (st : connections) (connection : A2AConnection) : connections :=
  let source := source_agent_id connection in
  let target := target_agent_id connection in
  let st := match st !! source with
            | Some _ => st
            | None => <[source := []]> st
            end in
  let current := default [] (st !! source) in
  let existing := filter (fun c => targets target c = true) current in
  let st := match existing with
            | _ :: _ =>
                <[source := filter (fun c => targets target c = false) current]> st
            | [] => st
            end in
  <[source := default [] (st !! source) ++ [connection]]> st.

(** [add_connection]: the outcome and the state it leaves. *)
Definition add_connection (st : connections) (source target url : string)
  : (error + A2AConnection) * connections :=
  match validate_a2a_url url with
  | inl msg => (inl (A2AValidationError ("Invalid A2A URL: " +:+ msg)), st)
  | inr _ =>
      match get_agent target with
      | None =>
          (inl (A2AConnectionError ("Target agent not found in registry: " +:+ target)),
           st)
      | Some target_agent =>
          match new_connection source target url (agent_name target_agent) with
          | inl e => (inl e, st)
          | inr connection =>
              let st' := store st connection in
              match _update_agent_environment st' source with
              | Some e => (inl e, st')
              | None => (inr connection, st')
              end
          end
      end
  end.
End service.

(** A reading of [urlparse] good enough to run the examples: the scheme
    is what precedes the first [:] when it starts with a letter and has
    only scheme characters, lowered; the network location is what
    follows [//] up to the next [/], [?] or [#]. *)
Definition is_scheme_char (c : ascii) : bool :=
  is_ascii_alnum c || eqc c (chr 43) || eqc c (chr 45) || eqc c (chr 46).

Definition example_urlparse (url : string) : option (string * string) :=
  let '(s, rest) := Regex.span is_scheme_char (T url) in
  let '(scheme, after) :=
    match s, rest with
    | c :: _, colon :: after =>
        if is_ascii_alpha c && eqc colon (chr 58) then (lower s, after) else ([], T url)
    | _, _ => ([], T url)
    end in
  let netloc :=
    match Regex.strip_prefix (T "//") after with
    | Some r =>
        fst (Regex.span (fun c => negb (eqc c (chr 47) || eqc c (chr 63) || eqc c (chr 35))) r)
    | None => []
    end in
  Some (string_of_list_ascii scheme, string_of_list_ascii netloc).

End A2A.

(** ** utils/validation.py: [validate_agent_name] and [validate_system_prompt] *)

Module Validate.

Import Regex.

(** The [ValidationError]s of the two validators, each with the values
    its message interpolates; the message about invalid characters
    joins a set, whose order is not fixed, and is kept without it. *)
Inductive name_error :=
| NameEmpty
| NameTooShort (min_length len : nat)
| NameTooLong (max_length len : nat)
| NameBadStart (first : ascii)
| NameTrailingHyphen
| NameInvalidChars
| NameConsecutiveHyphens.

(** [name.endswith(c)] for one character. *)
Definition ends_with (c : ascii) (s : text) : bool :=
  match last s with
  | Some x => eqc x c
  | None => false
  end.

(** [re.match(r'^[a-zA-Z0-9-]+$', name)]: the run of class characters
    at the start is the whole name, or the whole name but a final
    newline (where [$] also matches). *)
Definition matches_name_pattern (name : text) : bool :=
  match span (fun c => is_ascii_alnum c || Sanitize.is_hyphen c) name with
  | (_ :: _, []) => true
  | (_ :: _, [c]) => eqc c nl
  | _ => false
  end.

(** [validate_agent_name(name, min_length=1, max_length=63)]: [inr tt]
    is the [True] returned. *)
Definition validate_agent_name (name : text) (min_length max_length : nat)
  : name_error + unit :=
  match name with
  | [] => inl NameEmpty
  | c :: _ =>
      if length name <? min_length then inl (NameTooShort min_length (length name))
      else if max_length <? length name then inl (NameTooLong max_length (length name))
      else if negb (py_isalpha c) then inl (NameBadStart c)
      else if ends_with Sanitize.hyphen name then inl NameTrailingHyphen
      else if negb (matches_name_pattern name) then inl NameInvalidChars
      else if contains (T "--") name then inl NameConsecutiveHyphens
      else inr tt
  end.

Inductive prompt_error :=
| PromptEmpty
| PromptOnlyWhitespace
| PromptTooShort (min_length len : nat)
| PromptTooLong (max_length len : nat).

(** [validate_system_prompt(prompt, min_length=10, max_length=10000)] *)
Definition validate_system_prompt (prompt : text) (min_length max_length : nat)
  : prompt_error + unit :=
  match prompt with
  | [] => inl PromptEmpty
  | _ :: _ =>
      match strip py_isspace prompt with
      | [] => inl PromptOnlyWhitespace
      | stripped =>
          let prompt_length := length stripped in
          if prompt_length <? min_length
          then inl (PromptTooShort min_length prompt_length)
          else if max_length <? prompt_length
          then inl (PromptTooLong max_length prompt_length)
          else inr tt
      end
  end.

End Validate.


(** ** services/a2a_service.py: [_get_known_agent_urls] *)

Module A2AUrls.

Import A2A.

(** [[conn.target_a2a_url for conn in self.get_connections(agent_id)]] *)
Definition _get_known_agent_urls (st : connections) (agent : string) : list string :=
  map target_a2a_url (get_connections st agent).

End A2AUrls.

(** ** templates/generic_agent.py: the configuration read from the environment *)

Module Template.

Import Cloud.

(** [s.split(',')] *)
Fixpoint split_commas (s : text) : list text :=
  match s with
  | [] => [[]]
  | c :: s' =>
      match split_commas s' with
      | l :: ls => if eqc c (chr 44) then [] :: l :: ls else (c :: l) :: ls
      | [] => [[c]]
      end
  end.

Definition nonempty (s : text) : bool :=
  match s with
  | [] => false
  | _ => true
  end.

Section configuration.
Variable env : environ.

(** [os.getenv(key, 'false').lower() == 'true'] *)
Definition enabled (key : string) : bool :=
  bool_decide (lower (T (getenv_or env key "false")) = T "true").

Definition ENABLE_CODE_INTERPRETER : bool := enabled "ENABLE_CODE_INTERPRETER".
Definition ENABLE_BROWSER : bool := enabled "ENABLE_BROWSER".
Definition GATEWAY_ID : option string := getenv env "GATEWAY_ID".
Definition AGENT_MODE : string := getenv_or env "AGENT_MODE" "server".
Definition KNOWN_AGENT_IDS : string := getenv_or env "KNOWN_AGENT_IDS" "".

(** [[aid.strip() for aid in KNOWN_AGENT_IDS.split(',') if aid.strip()]] *)
Definition agent_ids : list string :=
  map string_of_list_ascii
    (filter (fun aid => nonempty aid = true)
       (map (strip py_isspace) (split_commas (T KNOWN_AGENT_IDS)))).

(** The agents [create_agent] builds A2A client tools for: those of
    [agent_ids] under [if AGENT_MODE == 'client' and KNOWN_AGENT_IDS],
    none otherwise. *)
Definition client_agent_ids : list string :=
  if String.eqb AGENT_MODE "client" && negb (String.eqb KNOWN_AGENT_IDS "")
  then agent_ids else [].

(** The gateway [create_agent] loads tools from, under [if GATEWAY_ID]. *)
Definition tools_gateway : option string :=
  if truthy GATEWAY_ID then GATEWAY_ID else None.

End configuration.

End Template.

(** * Properties *)

(** ** The A2A connection service *)

Module A2AProps.

Import A2A.

Section facts.
Variable urlparse : string -> option (string * string).
Variable get_agent : string -> option AgentRecord.

Abbreviation add := (add_connection urlparse get_agent).

(** The scheme [urlparse] reports is ["https"]. *)
Definition https_scheme (url : string) : bool :=
  match urlparse url with
  | Some (scheme, _) => String.eqb scheme "https"
  | None => false
  end.

Lemma validate_needs_https url :
  https_scheme url = false -> exists msg, validate_a2a_url urlparse url = inl msg.
Proof.
  unfold https_scheme, validate_a2a_url. intros H.
  destruct (is_empty url); [eauto|].
  destruct (is_blank url); [eauto|].
  destruct (urlparse url) as [[scheme netloc]|]; [|eauto].
  rewrite H. simpl. eauto.
Qed.

Lemma filter_none_keeps_all (target : string) (l : list A2AConnection) :
  filter (fun c => targets target c = true) l = [] ->
  filter (fun c => targets target c = false) l = l.
Proof.
  induction l as [|c l IH]; [done|].
  rewrite !filter_cons. case_decide as E.
  - discriminate.
  - rewrite decide_True by (by destruct (targets target c)).
    intros H. by rewrite IH.
Qed.

Definition others (target : string) (l : list A2AConnection) : list A2AConnection :=
  filter (fun c => targets target c = false) l.

Definition same (target : string) (l : list A2AConnection) : list A2AConnection :=
  filter (fun c => targets target c = true) l.

(** What [store] leaves under the source's key and under the others. *)
Lemma store_source st c :
  get_connections (store st c) (source_agent_id c)
  = others (target_agent_id c) (get_connections st (source_agent_id c)) ++ [c].
Proof.
  unfold store, get_connections, others, connections in *.
  destruct (st !! source_agent_id c) as [l|] eqn:E; simpl.
  - rewrite E. simpl.
    destruct (filter _ l) as [|x xs] eqn:F.
    + rewrite lookup_insert_eq, E. simpl. by rewrite filter_none_keeps_all.
    + rewrite !lookup_insert_eq. done.
  - rewrite !lookup_insert_eq. simpl. rewrite !lookup_insert_eq. done.
Qed.

Lemma store_other st c agent :
  agent <> source_agent_id c ->
  get_connections (store st c) agent = get_connections st agent.
Proof.
  intros Hne. unfold store, get_connections, connections in *.
  destruct (st !! source_agent_id c) as [l|] eqn:E; simpl.
  - rewrite E. simpl.
    destruct (filter _ l) as [|x xs] eqn:F;
      repeat rewrite lookup_insert_ne by done; done.
  - rewrite !lookup_insert_eq. simpl.
    repeat rewrite lookup_insert_ne by done. done.
Qed.

(** A call that returns a connection has stored exactly that
    connection, built from the arguments. *)
Lemma add_connection_returns st source target url c st' :
  add st source target url = (inr c, st') ->
  source_agent_id c = source /\ target_agent_id c = target
  /\ target_a2a_url c = url /\ st' = store st c.
Proof.
  unfold add_connection.
  destruct (validate_a2a_url urlparse url); [discriminate|].
  destruct (get_agent target) as [rec|]; [|discriminate].
  unfold new_connection.
  destruct (is_empty source || is_blank source); [discriminate|].
  destruct (is_empty target || is_blank target); [discriminate|].
  destruct (_validate_a2a_url urlparse url); [discriminate|].
  destruct (is_empty (agent_name rec) || is_blank (agent_name rec)); [discriminate|].
  destruct (_update_agent_environment _ _ _); [discriminate|].
  intros [= <- <-]. done.
Qed.

Lemma others_others target l : others target (others target l) = others target l.
Proof.
  unfold others. induction l as [|c l IH]; [done|].
  rewrite filter_cons. case_decide as E; [|done].
  rewrite filter_cons, decide_True by done. by rewrite IH.
Qed.

Lemma same_others target l : same target (others target l) = [].
Proof.
  unfold same, others. induction l as [|c l IH]; [done|].
  rewrite filter_cons. case_decide as E; [|done].
  rewrite filter_cons, decide_False by (rewrite E; done). done.
Qed.

Lemma targets_own c : targets (target_agent_id c) c = true.
Proof. unfold targets. apply String.eqb_refl. Qed.

(** C4: a URL whose scheme is not https makes [add_connection] raise a
    validation error, whatever the source and target ids, and the
    connection state it leaves is the state it was given: nothing is
    added, removed or replaced for any source agent. *)
Theorem add_connection_non_https_rejected st source target url :
  https_scheme url = false ->
  exists msg, add st source target url = (inl (A2AValidationError msg), st).
Proof.
  intros H. destruct (validate_needs_https url H) as [msg Hmsg].
  unfold add_connection. rewrite Hmsg. eauto.
Qed.

(** C5: after two successful [add_connection] calls for the same
    (source, target) pair, the source has exactly one connection to
    that target, namely the one returned by the later call, carrying
    the later URL; its connections to other targets are those it had
    before the two calls, and so are the connections of every other
    source. *)
Theorem add_connection_twice_keeps_latest st source target url1 url2 c1 st1 c2 st2 :
  add st source target url1 = (inr c1, st1) ->
  add st1 source target url2 = (inr c2, st2) ->
  same target (get_connections st2 source) = [c2]
  /\ target_a2a_url c2 = url2
  /\ others target (get_connections st2 source) = others target (get_connections st source)
  /\ forall agent, agent <> source -> get_connections st2 agent = get_connections st agent.
Proof.
  intros H1 H2.
  apply add_connection_returns in H1 as (Hs1 & Ht1 & Hu1 & ->).
  apply add_connection_returns in H2 as (Hs2 & Ht2 & Hu2 & ->).
  pose proof (store_source (store st c1) c2) as E2.
  pose proof (store_source st c1) as E1.
  rewrite Hs2, Ht2 in E2. rewrite Hs1, Ht1 in E1.
  rewrite E1 in E2. unfold others in E2 at 1.
  rewrite filter_app in E2. fold (others target (others target (get_connections st source))) in E2.
  rewrite others_others in E2.
  assert (Hc1 : filter (fun c => targets target c = false) [c1] = []).
  { rewrite filter_cons. rewrite decide_False; [done|].
    rewrite <- Ht1, targets_own. done. }
  rewrite Hc1, app_nil_r in E2.
  assert (Hc2 : targets target c2 = true) by (rewrite <- Ht2; apply targets_own).
  repeat split.
  - rewrite E2. unfold same. rewrite filter_app.
    fold (same target (others target (get_connections st source))).
    rewrite same_others. simpl. rewrite filter_cons, decide_True by done. done.
  - done.
  - rewrite E2. unfold others at 1. rewrite filter_app.
    fold (others target (others target (get_connections st source))).
    rewrite others_others. rewrite filter_cons, decide_False by (rewrite Hc2; done).
    by rewrite filter_nil, app_nil_r.
  - intros agent Hne.
    rewrite store_other by (rewrite Hs2; done).
    rewrite store_other by (rewrite Hs1; done). done.
Qed.

(** C10, amended: with ids and a target name that are not blank, a URL
    that passes validation and a target found in the registry, a
    source that the registry does not know makes [add_connection]
    raise the connection error of the environment update after the
    connection was stored: the state left behind lists the new
    connection for the source. *)
Theorem add_connection_unknown_source_stores_then_raises
    st source target url (target_agent : AgentRecord) :
  is_blank source = false ->
  is_blank target = false ->
  validate_a2a_url urlparse url = inr tt ->
  get_agent target = Some target_agent ->
  is_blank (agent_name target_agent) = false ->
  get_agent source = None ->
  let c := {| source_agent_id := source; target_agent_id := target;
              target_a2a_url := url;
              target_agent_name := agent_name target_agent |} in
  exists st',
    add st source target url
    = (inl (A2AConnectionError ("Agent not found in registry: " +:+ source)), st')
    /\ c ∈ get_connections st' source
    /\ same target (get_connections st' source) = [c].
Proof.
  intros Hs Ht Hv Hreg Hn Hsrc c.
  assert (Hblank : forall s, is_blank s = false -> is_empty s = false).
  { intros s. unfold is_blank, is_empty. destruct s; [simpl; discriminate|done]. }
  assert (Hv' : _validate_a2a_url urlparse url = inr tt).
  { revert Hv. unfold validate_a2a_url, _validate_a2a_url.
    destruct (is_empty url); [discriminate|].
    destruct (is_blank url); [discriminate|]. simpl.
    destruct (urlparse url) as [[scheme netloc]|]; [|discriminate].
    destruct (negb _); [discriminate|].
    destruct (is_empty netloc); [discriminate|done]. }
  exists (store st c). unfold add_connection.
  rewrite Hv, Hreg. unfold new_connection.
  rewrite Hs, Ht, Hn, !Hblank by done. simpl. rewrite Hv'.
  fold c. unfold _update_agent_environment.
  pose proof (store_source st c) as E. simpl in E. rewrite E, Hsrc.
  destruct (others target (get_connections st source) ++ [c]) eqn:F.
  { destruct (others target (get_connections st source)); discriminate. }
  rewrite <- F. split; [done|]. split.
  - apply elem_of_app. right. apply list_elem_of_singleton. done.
  - unfold same. rewrite filter_app.
    fold (same target (others target (get_connections st source))).
    rewrite same_others. simpl.
    rewrite filter_cons, decide_True by (unfold targets; simpl; apply String.eqb_refl).
    done.
Qed.
End facts.

(** A registry that knows one agent, for the examples. *)
Definition support_agent : AgentRecord :=
  {| agent_id := "support-agent-xyz"; agent_name := "Customer Support Agent";
     agent_arn := "arn:aws:bedrock-agentcore:us-west-2:123456789012:runtime/support";
     status := "READY"; a2a_url := Some "https://support.amazonaws.com/a2a";
     capabilities := ["support"] |}.

Definition builder_agent : AgentRecord :=
  {| agent_id := "builder-agent-abc"; agent_name := "Builder Agent";
     agent_arn := "arn:aws:bedrock-agentcore:us-west-2:123456789012:runtime/builder";
     status := "READY"; a2a_url := None; capabilities := ["build"] |}.

Definition registry_with (known : list AgentRecord) (id : string) : option AgentRecord :=
  List.find (fun r => String.eqb (agent_id r) id) known.

Definition link (source url : string) : A2AConnection :=
  {| source_agent_id := source; target_agent_id := "support-agent-xyz";
     target_a2a_url := url; target_agent_name := "Customer Support Agent" |}.

Lemma add_connection_non_https_rejected_witness :
  https_scheme example_urlparse "http://example.com" = false
  /\ exists msg,
       add_connection example_urlparse (registry_with [support_agent]) ∅
         "builder-agent-abc" "support-agent-xyz" "http://example.com"
       = (inl (A2AValidationError msg), ∅).
Proof.
  split; [reflexivity|].
  apply (add_connection_non_https_rejected example_urlparse
           (registry_with [support_agent]) ∅
           "builder-agent-abc" "support-agent-xyz" "http://example.com").
  reflexivity.
Defined.

Lemma add_connection_twice_keeps_latest_witness :
  let reg := registry_with [support_agent; builder_agent] in
  let c1 := link "builder-agent-abc" "https://old.amazonaws.com/a2a" in
  let c2 := link "builder-agent-abc" "https://new.amazonaws.com/a2a" in
  same "support-agent-xyz"
    (get_connections (store (store ∅ c1) c2) "builder-agent-abc") = [c2]
  /\ target_a2a_url c2 = "https://new.amazonaws.com/a2a"
  /\ others "support-agent-xyz"
       (get_connections (store (store ∅ c1) c2) "builder-agent-abc")
     = others "support-agent-xyz" (get_connections ∅ "builder-agent-abc")
  /\ forall agent, agent <> "builder-agent-abc" ->
       get_connections (store (store ∅ c1) c2) agent = get_connections ∅ agent.
Proof.
  intros reg c1 c2.
  apply (add_connection_twice_keeps_latest example_urlparse reg ∅
           "builder-agent-abc" "support-agent-xyz"
           "https://old.amazonaws.com/a2a" "https://new.amazonaws.com/a2a"
           c1 (store ∅ c1) c2 (store (store ∅ c1) c2)).
  - vm_compute. reflexivity.
  - vm_compute. reflexivity.
Defined.

Lemma add_connection_unknown_source_stores_then_raises_witness :
  exists st',
    add_connection example_urlparse (registry_with [support_agent]) ∅
      "builder-agent-abc" "support-agent-xyz" "https://support.amazonaws.com/a2a"
    = (inl (A2AConnectionError "Agent not found in registry: builder-agent-abc"), st')
    /\ link "builder-agent-abc" "https://support.amazonaws.com/a2a"
         ∈ get_connections st' "builder-agent-abc"
    /\ same "support-agent-xyz" (get_connections st' "builder-agent-abc")
       = [link "builder-agent-abc" "https://support.amazonaws.com/a2a"].
Proof.
  apply (add_connection_unknown_source_stores_then_raises example_urlparse
           (registry_with [support_agent]) ∅
           "builder-agent-abc" "support-agent-xyz" "https://support.amazonaws.com/a2a"
           support_agent); reflexivity.
Defined.

(** C10 as stated fails for a blank source id: the empty id is absent
    from the registry, the URL is a valid https URL and the target is
    registered, yet the connection is rejected by its constructor with a
    validation error before anything is stored. *)
Lemma add_connection_blank_source_rejected :
  registry_with [support_agent] "" = None
  /\ validate_a2a_url example_urlparse "https://support.amazonaws.com/a2a" = inr tt
  /\ add_connection example_urlparse (registry_with [support_agent]) ∅
       "" "support-agent-xyz" "https://support.amazonaws.com/a2a"
     = (inl (A2AValidationError "source_agent_id cannot be empty"), ∅)
  /\ get_connections (∅ : connections) "" = [].
Proof. repeat split; reflexivity. Qed.

End A2AProps.

(** ** The gateway tracker *)

Module GatewayProps.

Import Cloud Gateway.

Ltac run :=
  unfold bind, ret, raise, try_except, attempt, get_world, modify, call, item in *;
  simpl in *.

Section facts.
Variable cp : oracle.
Variable env : environ.

(** C3: when the first [create_gateway] of a session returns the
    created banner, a second call in the same session returns the
    duplicate-blocked banner naming the first gateway and its id, and
    the two calls together make exactly one [create_gateway] request:
    the first call appends one to the log, the second leaves the world
    as it found it. *)
Theorem create_gateway_twice_one_request
    w name1 description1 name2 description2 n gid d url w1 :
  create_gateway cp env name1 description1 w
  = (inr (GatewayCreated n gid d url), w1) ->
  create_gateway cp env name2 description2 w1
  = (inr (DuplicateBlocked (Some name1) (Some gid)), w1)
  /\ (exists role,
        history w1
        = history w ++ [CreateGateway (sanitize_gateway_name name1) description1 role])
  /\ create_gateway_calls (history w1) = S (create_gateway_calls (history w)).
Proof.
  unfold create_gateway. run.
  destruct (created (gateway w)) eqn:Hc; [discriminate|].
  destruct (getenv env "AGENTCORE_EXECUTION_ROLE_ARN") as [role|]; [|discriminate].
  destruct (String.eqb role ""); [discriminate|].
  destruct (cp (history w) _) as [e|resp] eqn:Hcp; [discriminate|].
  destruct (fields resp !! "gatewayId") as [g|]; run; [|discriminate].
  intros [= <- <- <- <- <-]. simpl. split; [done|]. split; [eauto|].
  unfold create_gateway_calls. rewrite filter_app, length_app. simpl. lia.
Qed.
End facts.

(** A control plane that creates every gateway under the id [G1]. *)
Definition one_gateway : oracle := fun _ r =>
  match r with
  | CreateGateway _ _ _ =>
      inr {| fields := {[ "gatewayId" := "G1" ]}; summaries := [] |}
  | _ => inl (Exn OtherClientError "unexpected request")
  end.

Definition configured : environ :=
  {[ "AGENTCORE_EXECUTION_ROLE_ARN" := "arn:aws:iam::123456789012:role/factory" ]}.

Definition fresh : world :=
  {| gateway := {| created := false; gateway_id := None; gateway_name := None |};
     deployment := {| deployed := false; agent_name := None |};
     history := [] |}.

Definition after_first : world :=
  {| gateway := {| created := true; gateway_id := Some "G1";
                   gateway_name := Some "Order Gateway" |};
     deployment := deployment fresh;
     history := [CreateGateway "Order-Gateway" "desc"
                   "arn:aws:iam::123456789012:role/factory"] |}.

Lemma create_gateway_twice_one_request_witness :
  create_gateway one_gateway configured "Second Gateway" "again" after_first
  = (inr (DuplicateBlocked (Some "Order Gateway") (Some "G1")), after_first)
  /\ (exists role,
        history after_first
        = history fresh ++ [CreateGateway (sanitize_gateway_name "Order Gateway") "desc" role])
  /\ create_gateway_calls (history after_first) = S (create_gateway_calls (history fresh)).
Proof.
  apply (create_gateway_twice_one_request one_gateway configured fresh
           "Order Gateway" "desc" "Second Gateway" "again"
           "Order Gateway" "G1" "desc" "N/A" after_first).
  vm_compute. reflexivity.
Defined.

End GatewayProps.

(** ** The deployment mode *)

Module DeployProps.

Import Cloud Deploy.

Lemma env_vars_mode env a :
  env_vars env a !! "AGENT_MODE"
  = Some (mode_name (derive_agent_mode (gateway_id a) (known_agent_ids a))).
Proof.
  unfold env_vars. repeat (rewrite lookup_insert_ne by done).
  apply lookup_insert_eq.
Qed.

(** What a request of [deploy_agent] tells the runtime about the mode. *)
Definition carries_mode (a : arguments) (r : request) : Prop :=
  match r with
  | CreateAgentRuntime _ p | UpdateAgentRuntime _ p =>
      environmentVariables p !! "AGENT_MODE"
      = Some (mode_name (derive_agent_mode (gateway_id a) (known_agent_ids a)))
      /\ protocolConfiguration p
         = protocol_config (derive_agent_mode (gateway_id a) (known_agent_ids a))
  | _ => True
  end.

(** [c] only adds requests that satisfy [P] to the log. *)
Definition logs_only {A} (P : request -> Prop) (c : M A) : Prop :=
  forall w r w', c w = (r, w') ->
  exists l, history w' = history w ++ l /\ Forall P l.

Section logs_only.
Context (P : request -> Prop).

Lemma logs_ret {A} (a : A) : logs_only P (ret a).
Proof. intros w r w' [= _ <-]. exists []. by rewrite app_nil_r. Qed.

Lemma logs_raise {A} e : logs_only P (@raise A e).
Proof. intros w r w' [= _ <-]. exists []. by rewrite app_nil_r. Qed.

Lemma logs_get_world : logs_only P get_world.
Proof. intros w r w' [= _ <-]. exists []. by rewrite app_nil_r. Qed.

Lemma logs_modify f :
  (forall w, history (f w) = history w) -> logs_only P (modify f).
Proof. intros Hf w r w' [= _ <-]. exists []. by rewrite app_nil_r, Hf. Qed.

Lemma logs_item d key : logs_only P (item d key).
Proof. unfold item. destruct (d !! key); [apply logs_ret|apply logs_raise]. Qed.

Lemma logs_call cp r : P r -> logs_only P (call cp r).
Proof. intros Hr w x w' [= _ <-]. exists [r]. split; [done|]. by constructor. Qed.

Lemma logs_bind {A B} (c : M A) (k : A -> M B) :
  logs_only P c -> (forall a, logs_only P (k a)) -> logs_only P (bind c k).
Proof.
  intros Hc Hk w r w'. unfold bind.
  destruct (c w) as [[e|a] w1] eqn:E.
  - intros [= _ <-]. eapply Hc, E.
  - intros Hka. destruct (Hc _ _ _ E) as (l1 & E1 & F1).
    destruct (Hk _ _ _ _ Hka) as (l2 & E2 & F2).
    exists (l1 ++ l2). rewrite E2, E1, app_assoc. split; [done|].
    by apply Forall_app.
Qed.

Lemma logs_try_except {A} (c : M A) h :
  logs_only P c -> (forall e, logs_only P (h e)) -> logs_only P (try_except c h).
Proof.
  intros Hc Hh w r w'. unfold try_except.
  destruct (c w) as [[e|a] w1] eqn:E.
  - intros Hhe. destruct (Hc _ _ _ E) as (l1 & E1 & F1).
    destruct (Hh _ _ _ _ Hhe) as (l2 & E2 & F2).
    exists (l1 ++ l2). rewrite E2, E1, app_assoc. split; [done|].
    by apply Forall_app.
  - intros [= _ <-]. eapply Hc, E.
Qed.

Lemma logs_attempt {A} (c : M A) : logs_only P c -> logs_only P (attempt c).
Proof.
  intros Hc w r w'. unfold attempt.
  destruct (c w) as [x w1] eqn:E. intros [= _ <-]. eapply Hc, E.
Qed.
End logs_only.

Lemma logs_find_runtime P runtime_name l : logs_only P (find_runtime runtime_name l).
Proof.
  induction l as [|x l IH]; simpl; [apply logs_ret|].
  apply logs_bind; [apply logs_item|]. intros n.
  destruct (String.eqb n runtime_name); [apply logs_ret|apply IH].
Qed.

(** Every request [deploy_agent] makes carries the derived mode. *)
Lemma deploy_agent_requests cp env a :
  logs_only (carries_mode a) (deploy_agent cp env a).
Proof.
  assert (Hp : forall account role n,
             carries_mode a (CreateAgentRuntime n (params env account role a))).
  { intros. split; [apply env_vars_mode|done]. }
  assert (Hu : forall account role n,
             carries_mode a (UpdateAgentRuntime n (params env account role a))).
  { intros. split; [apply env_vars_mode|done]. }
  assert (Hm : logs_only (carries_mode a) (mark_deployed a)).
  { by apply logs_modify. }
  unfold deploy_agent.
  apply logs_bind; [apply logs_get_world|]. intros w.
  destruct (deployed (deployment w)); [apply logs_ret|].
  apply logs_try_except; [|intros; apply logs_ret].
  destruct (getenv env "AGENTCORE_EXECUTION_ROLE_ARN") as [role|]; [|apply logs_ret].
  destruct (String.eqb role ""); [apply logs_ret|].
  apply logs_bind; [by apply logs_call|]. intros ident.
  apply logs_bind; [apply logs_item|]. intros account.
  apply logs_bind.
  - apply logs_attempt.
    apply logs_bind; [by apply logs_call|]. intros resp.
    apply logs_bind; [apply logs_item|]. intros agent_id.
    apply logs_bind; [apply logs_item|]. intros agent_arn.
    apply logs_bind; [done|]. intros _. apply logs_ret.
  - intros [e|res]; [|apply logs_ret].
    destruct (exn_class e); try apply logs_raise.
    apply logs_bind; [by apply logs_call|]. intros listing.
    apply logs_bind; [apply logs_find_runtime|]. intros [runtime|]; [|apply logs_ret].
    apply logs_bind; [apply logs_item|]. intros agent_id.
    apply logs_bind; [by apply logs_call|]. intros upd.
    apply logs_bind; [apply logs_item|]. intros agent_arn.
    apply logs_bind; [done|]. intros _. apply logs_ret.
Qed.

(** C6: a gateway id that is present makes the mode [server] whatever
    the known agents are; the mode is [client] only when the gateway id
    is absent (missing or empty) and the list of known agents is not
    empty; with both absent it is [server].  The mode reaches the
    runtime through the [AGENT_MODE] variable of the parameters that
    [deploy_agent] sends. *)
Theorem gateway_takes_precedence :
  (forall g known, truthy g = true -> derive_agent_mode g known = server)
  /\ (forall g known,
        derive_agent_mode g known = client
        <-> truthy g = false /\ exists x l, known = Some (x :: l))
  /\ (forall g known,
        truthy g = false -> (known = None \/ known = Some []) ->
        derive_agent_mode g known = server)
  /\ (forall cp env a, logs_only (carries_mode a) (deploy_agent cp env a)).
Proof.
  unfold derive_agent_mode. split; [|split; [|split]].
  - intros g known ->. done.
  - intros g known. split.
    + destruct (truthy g); [discriminate|]. intros H. split; [done|].
      destruct known as [[|x l]|]; [discriminate|eauto|discriminate].
    + intros [-> (x & l & ->)]. done.
  - intros g known -> [-> | ->]; done.
  - apply deploy_agent_requests.
Qed.

Lemma gateway_takes_precedence_witness :
  truthy (Some "G1") = true
  /\ derive_agent_mode (Some "G1") (Some ["agent-a"; "agent-b"]) = server.
Proof.
  split; [reflexivity|].
  apply (proj1 gateway_takes_precedence (Some "G1") (Some ["agent-a"; "agent-b"])).
  reflexivity.
Defined.

End DeployProps.

(** ** Batch tool registration *)

Module ToolsProps.

Import Cloud Tools.

Lemma bind_inr {A B} (c : M A) (k : A -> M B) w a w1 :
  c w = (inr a, w1) -> bind c k w = k a w1.
Proof. unfold bind. by intros ->. Qed.

Lemma bind_inl {A B} (c : M A) (k : A -> M B) w e w1 :
  c w = (inl e, w1) -> bind c k w = (inl e, w1).
Proof. unfold bind. by intros ->. Qed.

Lemma attempt_run {A} (c : M A) w r w1 :
  c w = (r, w1) -> attempt c w = (inr r, w1).
Proof. unfold attempt. by intros ->. Qed.

Definition has_required (d : gmap string json) : bool :=
  forallb (member d) ["name"; "description"; "input_schema"; "handler_code"].

Definition missing_fields (d : gmap string json) : failed_tool :=
  {| failed_name := get_json d "name" (JString "unknown");
     failed_error := "Tool missing required fields" |}.

Section facts.
Variable json_loads : string -> option json.
Variable cp : oracle.
Variable env : environ.
Variable gateway_id role : string.

Abbreviation package := (package_and_register cp gateway_id role).
Abbreviation register := (register_tool cp env gateway_id role).
Abbreviation process := (process_tool cp env gateway_id role).
Abbreviation process_all := (process_tools cp env gateway_id role).

Lemma package_needs_fields d w r w1 :
  package d w = (inr r, w1) -> has_required d = true.
Proof.
  unfold package_and_register. fold (has_required d).
  destruct (has_required d); [done|]. discriminate.
Qed.

Lemma has_required_description d :
  has_required d = true -> exists v, d !! "description" = Some v.
Proof.
  unfold has_required, member. simpl.
  destruct (d !! "name"); [|discriminate].
  destruct (d !! "description"); [eauto|discriminate].
Qed.

(** A spec without one of the four fields fails before any request. *)
Lemma process_missing_fields d acc w :
  has_required d = false ->
  process (JObject d) acc w = (inr (fst acc, snd acc ++ [missing_fields d]), w).
Proof.
  intros H. unfold process_tool.
  assert (E : register (get_json d "name" (JString "unknown")) d w
              = (inl (Exn ValueError "Tool missing required fields"), w)).
  { unfold register_tool. apply bind_inl.
    unfold package_and_register. fold (has_required d). by rewrite H. }
  erewrite bind_inr by (apply attempt_run, E). done.
Qed.

Lemma process_registered d acc w entry w1 :
  register (get_json d "name" (JString "unknown")) d w = (inr entry, w1) ->
  process (JObject d) acc w = (inr (fst acc ++ [entry], snd acc), w1).
Proof.
  intros E. unfold process_tool.
  erewrite bind_inr by (apply attempt_run, E). done.
Qed.

(** An object spec never makes the loop raise: it ends in one of the
    two lists. *)
Lemma process_object_total d acc w :
  exists acc' w1,
    process (JObject d) acc w = (inr acc', w1)
    /\ length (fst acc') + length (snd acc') = S (length (fst acc) + length (snd acc)).
Proof.
  unfold process_tool.
  destruct (register (get_json d "name" (JString "unknown")) d w) as [[e|entry] w1] eqn:E;
    erewrite bind_inr by (apply attempt_run, E); unfold ret; simpl;
    eexists _, _; (split; [done|]); simpl; rewrite length_app; simpl; lia.
Qed.

Lemma process_all_total (ds : list (gmap string json)) acc w :
  exists acc' w1,
    process_all (map JObject ds) acc w = (inr acc', w1)
    /\ length (fst acc') + length (snd acc')
       = length (fst acc) + length (snd acc) + length ds.
Proof.
  revert acc w. induction ds as [|d ds IH]; intros acc w; simpl.
  - eexists _, _. split; [done|]. lia.
  - destruct (process_object_total d acc w) as (acc1 & w1 & E1 & L1).
    destruct (IH acc1 w1) as (acc2 & w2 & E2 & L2).
    exists acc2, w2. split; [|lia].
    erewrite bind_inr by exact E1. done.
Qed.

(** The specs of [ds] registered one after the other, all with
    success: the entries and the world they leave. *)
Fixpoint register_all (ds : list (gmap string json)) (w : world)
  : option (list created_tool * world) :=
  match ds with
  | [] => Some ([], w)
  | d :: ds' =>
      match register (get_json d "name" (JString "unknown")) d w with
      | (inr entry, w1) =>
          match register_all ds' w1 with
          | Some (entries, w2) => Some (entry :: entries, w2)
          | None => None
          end
      | (inl _, _) => None
      end
  end.

Lemma process_all_registered ds acc w entries w1 :
  register_all ds w = Some (entries, w1) ->
  process_all (map JObject ds) acc w = (inr (fst acc ++ entries, snd acc), w1).
Proof.
  revert acc w entries w1. induction ds as [|d ds IH]; intros acc w entries w1; simpl.
  - intros [= <- <-]. rewrite app_nil_r. by destruct acc.
  - destruct (register _ d w) as [[e|entry] w2] eqn:E; [discriminate|].
    destruct (register_all ds w2) as [[es w3]|] eqn:R; [|discriminate].
    intros [= <- <-].
    erewrite bind_inr by (eapply process_registered, E).
    rewrite (IH _ _ _ _ R). simpl. by rewrite <- app_assoc.
Qed.

Lemma process_all_app l1 l2 acc w :
  process_all (l1 ++ l2) acc w
  = bind (process_all l1 acc) (process_all l2) w.
Proof.
  revert acc w. induction l1 as [|x l1 IH]; intros acc w; simpl; [done|].
  unfold bind. destruct (process x acc w) as [[e|acc1] w1]; [done|].
  rewrite IH. done.
Qed.

(** C9: when the steps before the permission grant succeed for a tool
    and the control plane answers the grant with the
    permission-already-exists conflict, the iteration still appends
    the tool to the created list, with the function it just packaged,
    and records no failure. *)
Theorem permission_conflict_counts_as_created d acc w r account w1 msg :
  package d w = (inr (r, account), w1) ->
  cp (history w1) (permission_request env gateway_id account r)
  = inl (Exn ResourceConflictException msg) ->
  exists entry,
    process (JObject d) acc w
    = (inr (fst acc ++ [entry], snd acc),
       log (permission_request env gateway_id account r) w1)
    /\ created_name entry = get_json d "name" (JString "unknown")
    /\ created_arn entry = function_arn r.
Proof.
  intros Hp Hc.
  destruct (has_required_description d (package_needs_fields _ _ _ _ Hp)) as [v Hv].
  eexists. split.
  { apply process_registered. unfold register_tool.
    erewrite bind_inr by exact Hp. simpl.
    unfold grant_invoke, try_except, bind at 1 2, call. rewrite Hc. simpl.
    unfold bind, item_json, ret. rewrite Hv. done. }
  split; reflexivity.
Qed.

(** C8, amended: the registration path checks only that the four
    fields are present.  In a batch where exactly one spec lacks a
    field and the control plane accepts the registration of all the
    others, [create_lambda_tools] reports the partial failure: every
    other spec is created, in order, and the one failure is listed
    with its own error detail. *)
Theorem one_missing_field_fails_alone
    tools_spec before bad after w created1 w1 created2 w2 :
  execution_role env = Some role ->
  String.eqb role "" = false ->
  json_loads tools_spec = Some (JArray (map JObject (before ++ bad :: after))) ->
  has_required bad = false ->
  register_all before w = Some (created1, w1) ->
  register_all after w1 = Some (created2, w2) ->
  create_lambda_tools json_loads cp env gateway_id tools_spec w
  = (inr (PartialFailure (length before + length after) 1 [missing_fields bad]), w2).
Proof.
  intros Hrole Hne Hjson Hbad H1 H2.
  assert (L1 : length created1 = length before).
  { clear -H1. revert w created1 w1 H1.
    induction before as [|d ds IH]; intros w c w1; simpl.
    - by intros [= <- _].
    - destruct (register _ d w) as [[e|entry] w3]; [discriminate|].
      destruct (register_all ds w3) as [[es w4]|] eqn:R; [|discriminate].
      intros [= <- _]. simpl. f_equal. eapply IH, R. }
  assert (L2 : length created2 = length after).
  { clear -H2. revert w1 created2 w2 H2.
    induction after as [|d ds IH]; intros w c w1; simpl.
    - by intros [= <- _].
    - destruct (register _ d w) as [[e|entry] w3]; [discriminate|].
      destruct (register_all ds w3) as [[es w4]|] eqn:R; [|discriminate].
      intros [= <- _]. simpl. f_equal. eapply IH, R. }
  assert (E : process_all (map JObject (before ++ bad :: after)) ([], []) w
              = (inr (created1 ++ created2, [missing_fields bad]), w2)).
  { rewrite map_app. rewrite process_all_app.
    erewrite bind_inr by (eapply process_all_registered, H1).
    change (map JObject (bad :: after)) with (JObject bad :: map JObject after).
    change (process_all (JObject bad :: map JObject after) ?acc)
      with (bind (process (JObject bad) acc) (process_all (map JObject after))).
    erewrite bind_inr by (apply process_missing_fields, Hbad).
    by rewrite (process_all_registered _ _ _ _ _ H2). }
  unfold create_lambda_tools, try_except. rewrite Hrole, Hne, Hjson.
  erewrite bind_inr by exact E.
  unfold ret, report. simpl. rewrite length_app, L1, L2.
  by destruct (created1 ++ created2).
Qed.
End facts.

(** *** The batch of three specs *)

Definition obj (members : list (string * json)) : gmap string json :=
  list_to_map members.

Definition number_property : json := JObject (obj [("type", JString "number")]).

Definition add_tool : gmap string json :=
  obj [("name", JString "add");
       ("description", JString "Add two numbers");
       ("input_schema",
        JObject (obj [("type", JString "object");
                      ("properties",
                       JObject (obj [("a", number_property); ("b", number_property)]));
                      ("required", JArray [JString "a"; JString "b"])]));
       ("handler_code",
        JString "return {'sum': parameters.get('a', 0) + parameters.get('b', 0)}")].

(** A spec whose schema has an empty [properties] map. *)
Definition empty_schema : json :=
  JObject (obj [("type", JString "object"); ("properties", JObject ∅)]).

Definition ping_tool : gmap string json :=
  obj [("name", JString "ping");
       ("description", JString "Answer with pong");
       ("input_schema", empty_schema);
       ("handler_code", JString "return {'answer': 'pong'}")].

Definition echo_tool : gmap string json :=
  obj [("name", JString "echo");
       ("description", JString "Echo the text");
       ("input_schema",
        JObject (obj [("type", JString "object");
                      ("properties",
                       JObject (obj [("text", JObject (obj [("type", JString "string")]))]))]));
       ("handler_code", JString "return {'text': parameters.get('text')}")].

(** A spec without handler code. *)
Definition bare_tool : gmap string json :=
  obj [("name", JString "bare");
       ("description", JString "No code");
       ("input_schema", empty_schema)].

Definition arn_of (function_name : string) : string :=
  "arn:aws:lambda:us-west-2:123456789012:function:" +:+ function_name.

Definition answer (members : list (string * string)) : exn + response :=
  inr {| fields := list_to_map members; summaries := [] |}.

(** A control plane that accepts every request of the registration; no
    function exists beforehand. *)
Definition accepting : oracle := fun _ r =>
  match r with
  | GetFunction _ => inl (Exn ResourceNotFoundException "Function not found")
  | CreateFunction fn _ _ _ _ => answer [("FunctionArn", arn_of fn)]
  | UpdateFunctionCode fn _ => answer [("FunctionArn", arn_of fn)]
  | GetCallerIdentity => answer [("Account", "123456789012")]
  | _ => answer []
  end.

(** The same control plane once the permission has been granted: the
    grant is answered with the conflict. *)
Definition already_granted : oracle := fun h r =>
  match r with
  | AddPermission _ _ _ =>
      inl (Exn ResourceConflictException "The statement id provided already exists")
  | _ => accepting h r
  end.

Definition lambda_role : environ :=
  {[ "LAMBDA_EXECUTION_ROLE_ARN" := "arn:aws:iam::123456789012:role/lambda" ]}.

Definition role_arn : string := "arn:aws:iam::123456789012:role/lambda".

Definition fresh : world :=
  {| gateway := {| created := true; gateway_id := Some "G1";
                   gateway_name := Some "Order Gateway" |};
     deployment := {| deployed := false; agent_name := None |};
     history := [] |}.

Definition entry (name description : string) : created_tool :=
  {| created_name := JString name;
     created_arn := arn_of ("gateway-G1-" +:+ name);
     created_description := JString description |}.

(** C8 as stated fails: of three specs, exactly one has a schema with an
    empty [properties] map, which [validate_tool_schema] would reject;
    the registration never calls the validator, and with a control plane
    that accepts every request the report lists three created tools and
    no failure. *)
Lemma empty_properties_spec_is_created :
  Schema.validate_tool_schema empty_schema = inl Schema.PropertiesEmpty
  /\ fst (create_lambda_tools
            (fun _ => Some (JArray [JObject add_tool; JObject ping_tool; JObject echo_tool]))
            accepting lambda_role "G1" "[...]" fresh)
     = inr (ToolsCreated "G1"
              [entry "add" "Add two numbers";
               entry "ping" "Answer with pong";
               entry "echo" "Echo the text"]).
Proof. split; vm_compute; reflexivity. Qed.

Definition after_add : world :=
  snd (register_tool accepting lambda_role "G1" role_arn (JString "add") add_tool fresh).

Definition after_echo : world :=
  snd (register_tool accepting lambda_role "G1" role_arn (JString "echo") echo_tool after_add).

Lemma one_missing_field_fails_alone_witness :
  create_lambda_tools
    (fun _ => Some (JArray (map JObject ([add_tool] ++ bare_tool :: [echo_tool]))))
    accepting lambda_role "G1" "[...]" fresh
  = (inr (PartialFailure 2 1 [missing_fields bare_tool]), after_echo).
Proof.
  apply (one_missing_field_fails_alone
           (fun _ => Some (JArray (map JObject ([add_tool] ++ bare_tool :: [echo_tool]))))
           accepting lambda_role "G1" role_arn "[...]"
           [add_tool] bare_tool [echo_tool] fresh
           [entry "add" "Add two numbers"] after_add
           [entry "echo" "Echo the text"] after_echo);
    vm_compute; reflexivity.
Defined.

Definition packaged : (exn + (lambda_result * string)) * world :=
  package_and_register already_granted "G1" role_arn add_tool fresh.

Definition add_result : lambda_result :=
  {| function_arn := arn_of "gateway-G1-add";
     function_name := "gateway-G1-add";
     tool_name := JString "add";
     tool_description := JString "Add two numbers";
     result_schema := default JNull (add_tool !! "input_schema") |}.

Lemma permission_conflict_counts_as_created_witness :
  exists entry,
    process_tool already_granted lambda_role "G1" role_arn (JObject add_tool) ([], []) fresh
    = (inr ([] ++ [entry], []),
       log (permission_request lambda_role "G1" "123456789012" add_result) (snd packaged))
    /\ created_name entry = get_json add_tool "name" (JString "unknown")
    /\ created_arn entry = function_arn add_result.
Proof.
  apply (permission_conflict_counts_as_created already_granted lambda_role "G1" role_arn
           add_tool ([], []) fresh add_result "123456789012" (snd packaged)
           "The statement id provided already exists");
    vm_compute; reflexivity.
Defined.

End ToolsProps.

(** ** The name sanitizers *)

Module SanitizeProps.

Import Sanitize.

(** The docstring examples of the five functions. *)
Example aws_doc_1 : sanitize (T "My Agent Name!") AwsName = T "my-agent-name".
Proof. reflexivity. Qed.
Example aws_doc_2 : sanitize (T "123-agent") AwsName = T "a-123-agent".
Proof. reflexivity. Qed.
Example memory_doc_1 : sanitize (T "test-agent-memory") MemoryName = T "test_agent_memory".
Proof. reflexivity. Qed.
Example memory_doc_2 : sanitize (T "123-agent") MemoryName = T "a_123_agent".
Proof. reflexivity. Qed.
Example runtime_doc_1 : sanitize (T "My Agent Name!") RuntimeName = T "My_Agent_Name".
Proof. reflexivity. Qed.
Example runtime_doc_2 : sanitize (T "123-agent") RuntimeName = T "agent_123_agent".
Proof. reflexivity. Qed.
Example gateway_doc_1 :
  sanitize (T "Order Management Gateway") GatewayName = T "Order-Management-Gateway".
Proof. reflexivity. Qed.
Example target_doc_1 : sanitize (T "check_inventory") GatewayTargetName = T "check-inventory".
Proof. reflexivity. Qed.
Example target_doc_2 : sanitize (T "Get User Info!") GatewayTargetName = T "Get-User-Info".
Proof. reflexivity. Qed.

(** C2 fails for the generic AWS name (and for the memory name): the
    letter prefix is added before the leading separator is stripped, so
    a name that starts with a space, an underscore or a hyphen comes out
    with two separators in a row, and sanitizing the result again
    collapses them: the sanitizer is not idempotent there. *)
Theorem sanitize_aws_name_not_idempotent :
  sanitize (T " my agent") AwsName = T "a--my-agent"
  /\ sanitize (sanitize (T " my agent") AwsName) AwsName = T "a-my-agent"
  /\ sanitize (T " my agent") MemoryName = T "a__my_agent"
  /\ sanitize (sanitize (T " my agent") MemoryName) MemoryName = T "a_my_agent".
Proof. repeat split; reflexivity. Qed.

End SanitizeProps.

(** ** Facts about the text primitives *)

Module TextFacts.

Import Regex.

(** [needle] occurs in [s]. *)
Definition occurs (needle s : text) : Prop := exists a b, s = a ++ needle ++ b.

Lemma eqc_eq a b : eqc a b = true <-> a = b.
Proof. apply Ascii.eqb_eq. Qed.

Lemma eqc_refl a : eqc a a = true.
Proof. apply Ascii.eqb_refl. Qed.

Lemma eqc_neq a b : eqc a b = false <-> a <> b.
Proof. apply Ascii.eqb_neq. Qed.

Lemma starts_with_spec p s : starts_with p s = true <-> exists r, s = p ++ r.
Proof.
  revert s. induction p as [|a p IH]; intros s; simpl.
  - split; eauto.
  - destruct s as [|b s].
    + split; [discriminate|]. intros [r Hr]. discriminate.
    + rewrite andb_true_iff, eqc_eq, IH. split.
      * intros [-> [r ->]]. eauto.
      * intros [r [= -> ->]]. eauto.
Qed.

Lemma contains_spec needle s : contains needle s = true <-> occurs needle s.
Proof.
  unfold occurs. induction s as [|c s IH]; simpl.
  - rewrite orb_false_r, starts_with_spec. split.
    + intros [r Hr]. exists [], r. done.
    + intros (a & b & H). destruct a; [|discriminate]. eauto.
  - rewrite orb_true_iff, IH, starts_with_spec. split.
    + intros [[r Hr] | (a & b & ->)].
      * exists [], r. done.
      * exists (c :: a), b. done.
    + intros (a & b & H). destruct a as [|x a].
      * left. eauto.
      * right. injection H as -> ->. eauto.
Qed.

Lemma occurs_app_l needle a s : occurs needle s -> occurs needle (a ++ s).
Proof. intros (x & y & ->). exists (a ++ x), y. by rewrite <- app_assoc. Qed.

Lemma occurs_app_r needle s b : occurs needle s -> occurs needle (s ++ b).
Proof. intros (x & y & ->). exists x, (y ++ b). by rewrite <- !app_assoc. Qed.

Lemma occurs_here needle a b : occurs needle (a ++ needle ++ b).
Proof. by exists a, b. Qed.

Lemma strip_prefix_spec p s r : strip_prefix p s = Some r <-> s = p ++ r.
Proof.
  revert s. induction p as [|a p IH]; intros s; simpl.
  - split; [by intros [= ->]|by intros ->].
  - destruct s as [|b s]; [done|].
    destruct (eqc a b) eqn:E.
    + apply eqc_eq in E as ->. rewrite IH. split; [by intros ->|by intros [= ->]].
    + apply eqc_neq in E. split; [done|]. intros [= -> _]. done.
Qed.

Lemma strip_prefix_app p r : strip_prefix p (p ++ r) = Some r.
Proof. by apply strip_prefix_spec. Qed.

Lemma span_app p s : fst (span p s) ++ snd (span p s) = s.
Proof.
  induction s as [|c s IH]; simpl; [done|].
  destruct (p c); [|done]. destruct (span p s). simpl in *. by rewrite IH.
Qed.

Lemma span_all p s : Forall (fun c => p c = true) (fst (span p s)).
Proof.
  induction s as [|c s IH]; simpl; [constructor|].
  destruct (p c) eqn:E; [|constructor]. destruct (span p s). simpl in *.
  by constructor.
Qed.

(** A run of [p] followed by a character outside [p] is what [span]
    takes. *)
Lemma span_run p a c r :
  Forall (fun x => p x = true) a -> p c = false -> span p (a ++ c :: r) = (a, c :: r).
Proof.
  induction 1 as [|x a Hx Ha IH]; intros Hc; simpl.
  - by rewrite Hc.
  - rewrite Hx, IH by done. done.
Qed.

Lemma span_run_end p a :
  Forall (fun x => p x = true) a -> span p a = (a, []).
Proof.
  induction 1 as [|x a Hx Ha IH]; simpl; [done|]. by rewrite Hx, IH.
Qed.

Lemma span_stop p s a c r : span p s = (a, c :: r) -> p c = false.
Proof.
  revert a. induction s as [|x s IH]; intros a; simpl; [discriminate|].
  destruct (p x) eqn:E.
  - destruct (span p s) as [a' b'] eqn:F. intros [= <- ->]. by eapply IH.
  - by intros [= <- -> ->].
Qed.

End TextFacts.

(** ** The scan that wraps one numeric field *)

Module ScanFacts.

Import Regex Synth TextFacts.

Definition colon : ascii := chr 58.
Definition comma : ascii := chr 44.
Definition close : ascii := chr 41.

Definition lookup_call : text := T "parameters.get(".

Definition decimal_call : text := T ": Decimal(str(parameters.get(".

(** The text the pattern of [f] covers up to the key of the lookup, and
    what the replacement puts in its place. *)
Definition head_raw (f : text) (q q2 : ascii) (w1 w2 : text) : text :=
  q :: f ++ q :: w1 ++ colon :: w2 ++ lookup_call ++ q2 :: f ++ [q2].

Definition head_wrapped (f : text) (q q2 : ascii) : text :=
  q :: f ++ q :: decimal_call ++ q2 :: f ++ [q2].

Arguments head_raw : simpl never.
Arguments head_wrapped : simpl never.

Definition spaces (w : text) : Prop := Forall (fun c => py_isspace c = true) w.

Definition close_free (l : text) : Prop := Forall (fun c => not_close_paren c = true) l.

Definition quote_free (l : text) : Prop := Forall (fun c => is_quote c = false) l.

(** Group 3 of a match: nothing, or a comma and a run without [)]. *)
Definition default_shape (d : text) : Prop :=
  d = [] \/ exists x y, d = comma :: x :: y /\ close_free (x :: y).

(** The field names are words of lower-case letters. *)
Definition plain (f : text) : Prop :=
  f <> [] /\ Forall (fun c => is_lower c = true) f.

Lemma numeric_fields_plain f : In f numeric_fields -> plain f.
Proof.
  unfold numeric_fields. simpl.
  intros H. repeat (destruct H as [<- | H]; [split; [done|]; repeat constructor|]).
  done.
Qed.

Lemma numeric_fields_NoDup : NoDup numeric_fields.
Proof. apply (bool_decide_unpack _). by vm_compute. Qed.

(** What a lower-case letter is not. *)
Lemma lower_facts c :
  is_lower c = true ->
  is_quote c = false /\ py_isspace c = false /\ not_close_paren c = true
  /\ c <> colon /\ c <> comma /\ c <> close.
Proof.
  unfold is_lower, in_range, code. intros H.
  apply andb_true_iff in H as [H1 H2].
  apply Nat.leb_le in H1. apply Nat.leb_le in H2.
  assert (E : c = chr (nat_of_ascii c)) by (unfold chr; by rewrite ascii_nat_embedding).
  remember (nat_of_ascii c) as n eqn:Hn. clear Hn.
  do 97 (destruct n as [|n]; [lia|]).
  do 26 (destruct n as [|n]; [subst c; by vm_compute|]).
  lia.
Qed.

Lemma plain_quote_free f : plain f -> quote_free f.
Proof.
  intros [_ H]. eapply Forall_impl; [exact H|]. intros c Hc. apply (lower_facts c Hc).
Qed.

Lemma plain_close_free f : plain f -> close_free f.
Proof.
  intros [_ H]. eapply Forall_impl; [exact H|]. intros c Hc. apply (lower_facts c Hc).
Qed.

Lemma space_facts c :
  py_isspace c = true -> is_quote c = false /\ not_close_paren c = true /\ is_lower c = false.
Proof.
  intros H.
  assert (E : c = chr (nat_of_ascii c)) by (unfold chr; by rewrite ascii_nat_embedding).
  destruct (is_quote c) eqn:Q.
  { unfold is_quote in Q. apply orb_true_iff in Q as [Q|Q]; apply eqc_eq in Q; subst c;
      discriminate H. }
  destruct (not_close_paren c) eqn:P.
  2:{ unfold not_close_paren in P. apply negb_false_iff, eqc_eq in P. subst c.
      discriminate H. }
  destruct (is_lower c) eqn:L; [|done].
  apply lower_facts in L as (_ & L & _). congruence.
Qed.

Lemma spaces_quote_free w : spaces w -> quote_free w.
Proof. intros H. eapply Forall_impl; [exact H|]. intros c Hc. apply (space_facts c Hc). Qed.

Lemma spaces_close_free w : spaces w -> close_free w.
Proof. intros H. eapply Forall_impl; [exact H|]. intros c Hc. apply (space_facts c Hc). Qed.

Lemma quote_close_free q : is_quote q = true -> not_close_paren q = true.
Proof.
  unfold is_quote. intros H. apply orb_true_iff in H as [H|H]; apply eqc_eq in H; by subst q.
Qed.

Ltac list_norm := repeat (progress (simpl; rewrite <- ?app_assoc)); simpl.

(** *** The matcher, read as a description of the matched text *)

Lemma match_default_spec s d rest :
  match_default s = Some (d, rest) <-> default_shape d /\ s = d ++ close :: rest.
Proof.
  unfold match_default, default_shape. split.
  - destruct s as [|c s]; [discriminate|].
    destruct (eqc c (chr 41)) eqn:E1.
    { apply eqc_eq in E1 as ->. intros [= <- <-]. split; [by left|done]. }
    destruct (eqc c (chr 44)) eqn:E2; [|discriminate].
    apply eqc_eq in E2 as ->.
    destruct (span not_close_paren s) as [[|d0 dd] [|p r]] eqn:F; try discriminate.
    intros [= <- <-].
    pose proof (span_app not_close_paren s) as A.
    pose proof (span_all not_close_paren s) as B.
    pose proof (span_stop _ _ _ _ _ F) as C.
    rewrite F in A, B. simpl in A, B.
    unfold not_close_paren in C. apply negb_false_iff, eqc_eq in C. subst p.
    split; [right; by exists d0, dd|]. simpl. by rewrite <- A.
  - intros [[-> | (x & y & -> & Hxy)] ->]; [done|].
    pose proof (span_run not_close_paren (x :: y) close rest Hxy eq_refl) as E.
    simpl. simpl in E. by rewrite E.
Qed.

Lemma match_groups_hit f s q q2 d rest :
  match_decimal_groups f s = Some (q, q2, d, rest) ->
  exists w1 w2,
    s = head_raw f q q2 w1 w2 ++ d ++ close :: rest
    /\ is_quote q = true /\ is_quote q2 = true
    /\ spaces w1 /\ spaces w2 /\ default_shape d.
Proof.
  unfold match_decimal_groups.
  destruct s as [|q' s1]; [discriminate|].
  destruct (is_quote q') eqn:Q; [|discriminate]. simpl negb. cbv iota.
  destruct (strip_prefix (f ++ [q']) s1) as [s2|] eqn:P1; [|discriminate].
  apply strip_prefix_spec in P1.
  pose proof (span_app py_isspace s2) as A1.
  pose proof (span_all py_isspace s2) as B1.
  destruct (snd (span py_isspace s2)) as [|c s3] eqn:S1; [discriminate|].
  destruct (eqc c (chr 58)) eqn:C; [|discriminate].
  apply eqc_eq in C. subst c. simpl negb. cbv iota.
  pose proof (span_app py_isspace s3) as A2.
  pose proof (span_all py_isspace s3) as B2.
  destruct (strip_prefix (T "parameters.get(") (snd (span py_isspace s3)))
    as [[|q2' s4]|] eqn:P2; try discriminate.
  apply strip_prefix_spec in P2.
  destruct (is_quote q2') eqn:Q2; [|discriminate]. simpl negb. cbv iota.
  destruct (strip_prefix (f ++ [q2']) s4) as [s5|] eqn:P3; [|discriminate].
  apply strip_prefix_spec in P3.
  destruct (match_default s5) as [[d' rest']|] eqn:D; [|discriminate].
  apply match_default_spec in D as [Dshape ->].
  intros [= -> -> -> ->].
  rewrite P2 in A2.
  set (w1 := fst (span py_isspace s2)) in *.
  set (w2 := fst (span py_isspace s3)) in *.
  clearbody w1 w2. clear S1 P2.
  exists w1, w2. repeat split; try done.
  subst s1 s2 s3 s4. unfold head_raw, lookup_call, colon. by list_norm.
Qed.

Lemma colon_not_space : py_isspace colon = false.
Proof. reflexivity. Qed.

Lemma match_groups_build f q q2 w1 w2 d rest :
  is_quote q = true -> is_quote q2 = true -> spaces w1 -> spaces w2 ->
  default_shape d ->
  match_decimal_groups f (head_raw f q q2 w1 w2 ++ d ++ close :: rest)
  = Some (q, q2, d, rest).
Proof.
  intros Q Q2 W1 W2 D.
  assert (E1 : head_raw f q q2 w1 w2 ++ d ++ close :: rest
               = q :: (f ++ [q])
                   ++ (w1 ++ colon :: (w2 ++ T "parameters.get("
                          ++ q2 :: (f ++ [q2]) ++ (d ++ close :: rest)))).
  { unfold head_raw, lookup_call. by list_norm. }
  rewrite E1. unfold match_decimal_groups.
  rewrite Q. simpl negb. cbv iota.
  rewrite strip_prefix_app.
  rewrite (span_run py_isspace w1 colon _ W1 colon_not_space). cbn [snd].
  change (eqc colon (chr 58)) with true. simpl negb. cbv iota.
  change (T "parameters.get(" ++ q2 :: (f ++ [q2]) ++ d ++ close :: rest)
    with (chr 112 :: (T "arameters.get(" ++ q2 :: (f ++ [q2]) ++ d ++ close :: rest)).
  rewrite (span_run py_isspace w2 (chr 112) _ W2 eq_refl). cbn [snd].
  change (chr 112 :: (T "arameters.get(" ++ q2 :: (f ++ [q2]) ++ d ++ close :: rest))
    with (T "parameters.get(" ++ q2 :: (f ++ [q2]) ++ d ++ close :: rest).
  rewrite strip_prefix_app. rewrite Q2. simpl negb. cbv iota.
  rewrite strip_prefix_app.
  assert (E2 : match_default (d ++ close :: rest) = Some (d, rest))
    by (by apply match_default_spec).
  by rewrite E2.
Qed.

(** *** The scan, by its equations *)

Definition wrap (f : text) (s : text) : text := re_sub (match_decimal f) s.

Arguments wrap : simpl never.

Lemma head_raw_length f q q2 w1 w2 : 0 < length (head_raw f q q2 w1 w2).
Proof. unfold head_raw. simpl. lia. Qed.

Lemma match_groups_shorter f s q q2 d rest :
  match_decimal_groups f s = Some (q, q2, d, rest) -> length rest < length s.
Proof.
  intros H. apply match_groups_hit in H as (w1 & w2 & -> & _).
  rewrite !length_app. simpl. lia.
Qed.

Lemma match_decimal_unfold f bol s :
  match_decimal f bol s
  = match match_decimal_groups f s with
    | Some (q, q2, d, rest) =>
        Some (Hit (firstn (length s - length rest) s)
                  (replace_with_decimal f q q2 d) rest)
    | None => None
    end.
Proof. reflexivity. Qed.

Lemma wrap_fuel f k : forall s n bol,
  length s <= k -> length s <= n ->
  re_sub_fuel n (match_decimal f) bol s = wrap f s.
Proof.
  unfold wrap, re_sub.
  induction k as [|k IH]; intros s n bol Hk Hn.
  - destruct s; [|simpl in Hk; lia]. by destruct n.
  - destruct s as [|c s]; [by destruct n|].
    destruct n as [|n]; [simpl in Hn; lia|].
    simpl in Hk, Hn. cbn [length re_sub_fuel]. rewrite !match_decimal_unfold.
    destruct (match_decimal_groups f (c :: s)) as [[[[q q2] d] rest]|] eqn:E.
    + pose proof (match_groups_shorter _ _ _ _ _ _ E) as L. simpl in L.
      cbn [replacement remainder matched].
      rewrite (IH rest n) by lia. rewrite (IH rest (length s)) by lia. done.
    + rewrite (IH s n) by lia. rewrite (IH s (length s) (eqc c nl)) by lia. done.
Qed.

Lemma wrap_nil f : wrap f [] = [].
Proof. reflexivity. Qed.

Lemma wrap_hit f s q q2 d rest :
  match_decimal_groups f s = Some (q, q2, d, rest) ->
  wrap f s = replace_with_decimal f q q2 d ++ wrap f rest.
Proof.
  intros E. pose proof (match_groups_shorter _ _ _ _ _ _ E) as L.
  destruct s as [|c s]; [simpl in L; lia|]. simpl in L.
  unfold wrap at 1, re_sub. cbn [length re_sub_fuel]. rewrite match_decimal_unfold.
  rewrite E. cbn [replacement remainder matched].
  by rewrite (wrap_fuel f (length s)) by lia.
Qed.

Lemma wrap_miss f c s :
  match_decimal_groups f (c :: s) = None -> wrap f (c :: s) = c :: wrap f s.
Proof.
  intros E. unfold wrap at 1, re_sub. cbn [length re_sub_fuel].
  rewrite match_decimal_unfold. rewrite E.
  by rewrite (wrap_fuel f (length s)) by lia.
Qed.

Lemma replace_with_decimal_eq f q q2 d :
  replace_with_decimal f q q2 d = head_wrapped f q q2 ++ d ++ T ")))".
Proof. unfold replace_with_decimal, head_wrapped, decimal_call. by list_norm. Qed.

(** A match starts with a quote: elsewhere the scan copies. *)
Lemma no_match_unless_quote f c s :
  is_quote c = false -> match_decimal_groups f (c :: s) = None.
Proof. intros H. unfold match_decimal_groups. by rewrite H. Qed.

Lemma wrap_skip f b s : quote_free b -> wrap f (b ++ s) = b ++ wrap f s.
Proof.
  induction 1 as [|c b Hc Hb IH]; [done|]. simpl.
  rewrite wrap_miss by (by apply no_match_unless_quote). by rewrite IH.
Qed.

(** Whatever happens at a position, the output starts with the
    character found there. *)
Lemma wrap_keeps_first f c s : exists r, wrap f (c :: s) = c :: r.
Proof.
  destruct (match_decimal_groups f (c :: s)) as [[[[q q2] d] rest]|] eqn:E.
  - rewrite (wrap_hit _ _ _ _ _ _ E).
    apply match_groups_hit in E as (w1 & w2 & E & _).
    unfold head_raw in E. injection E as -> _.
    unfold replace_with_decimal. simpl. eauto.
  - rewrite wrap_miss by done. eauto.
Qed.

(** *** Where a quote can sit inside a match *)

(** Two keys closed by a quote at the same place are the same key. *)
Lemma same_key f g q q' x y :
  quote_free f -> quote_free g -> is_quote q = true -> is_quote q' = true ->
  f ++ q :: x = g ++ q' :: y -> f = g /\ q = q' /\ x = y.
Proof.
  intros Hf. revert g. induction Hf as [|c f Hc Hf IH]; intros g Hg Q Q' E.
  - destruct Hg as [|c g Hc Hg]; simpl in E.
    + by injection E as -> ->.
    + injection E as -> _. congruence.
  - destruct Hg as [|c' g Hc' Hg]; simpl in E.
    + injection E as -> _. congruence.
    + injection E as -> E. destruct (IH g Hg Q Q' E) as (-> & -> & ->). done.
Qed.

(** A quote does not sit inside a block without quotes. *)
Lemma skip_block b a q0 y z :
  quote_free b -> is_quote q0 = true ->
  a ++ q0 :: y = b ++ z -> exists a', a = b ++ a' /\ a' ++ q0 :: y = z.
Proof.
  intros Hb Q. revert a. induction Hb as [|c b Hc Hb IH]; intros a E.
  - by exists a.
  - destruct a as [|x a]; simpl in E.
    + injection E as -> _. congruence.
    + injection E as -> E. destruct (IH a E) as (a' & -> & <-). by exists a'.
Qed.

Lemma skip_char (c : ascii) (a : text) q0 y z :
  a ++ q0 :: y = c :: z ->
  (a = [] /\ q0 = c /\ y = z) \/ exists a', a = c :: a' /\ a' ++ q0 :: y = z.
Proof.
  destruct a as [|x a]; simpl.
  - intros [= -> ->]. by left.
  - intros [= -> <-]. right. eauto.
Qed.

Lemma lookup_call_quote_free : quote_free lookup_call.
Proof. unfold lookup_call. repeat constructor. Qed.

Lemma decimal_call_quote_free : quote_free decimal_call.
Proof. unfold decimal_call. repeat constructor. Qed.

Lemma decimal_call_close_free : close_free decimal_call.
Proof. unfold decimal_call. repeat constructor. Qed.

Lemma lookup_call_close_free : close_free lookup_call.
Proof. unfold lookup_call. repeat constructor. Qed.

(** Where a quoted text [q0 :: y] can start when it starts after the
    first character of a match of [f]: at the quote that closes the
    field, at either quote of the key, inside the default, or behind
    the match. *)
Lemma overlap_cases f q q2 w1 w2 d rest a q0 y :
  a ++ q0 :: y = head_raw f q q2 w1 w2 ++ d ++ close :: rest ->
  a <> [] -> is_quote q0 = true -> quote_free f -> spaces w1 -> spaces w2 ->
  y = w1 ++ colon :: w2 ++ lookup_call ++ q2 :: f ++ q2 :: d ++ close :: rest
  \/ y = f ++ q2 :: d ++ close :: rest
  \/ y = d ++ close :: rest
  \/ (exists d1 l, d = d1 ++ q0 :: l /\ y = l ++ close :: rest)
  \/ (exists a', rest = a' ++ q0 :: y /\ length a' < length a).
Proof.
  intros E Ha Q Hf W1 W2.
  assert (E' : a ++ q0 :: y
               = q :: (f ++ (q :: ((w1 ++ colon :: w2 ++ lookup_call)
                      ++ (q2 :: (f ++ (q2 :: (d ++ close :: rest)))))))).
  { rewrite E. unfold head_raw. by list_norm. }
  clear E.
  apply skip_char in E' as [(-> & _)|(a1 & -> & E)]; [done|].
  apply skip_block in E as (a2 & -> & E); [|done..].
  apply skip_char in E as [(-> & -> & ->)|(a3 & -> & E)].
  { left. by list_norm. }
  assert (Hmid : quote_free (w1 ++ colon :: w2 ++ lookup_call)).
  { apply Forall_app; split; [by apply spaces_quote_free|].
    apply Forall_cons; split; [done|].
    apply Forall_app; split; [by apply spaces_quote_free|apply lookup_call_quote_free]. }
  apply skip_block in E as (a4 & -> & E); [|done..].
  apply skip_char in E as [(-> & -> & ->)|(a5 & -> & E)].
  { right. by left. }
  apply skip_block in E as (a6 & -> & E); [|done..].
  apply skip_char in E as [(-> & -> & ->)|(a7 & -> & E)].
  { right. right. by left. }
  right. right. right.
  (* the text starts in the default or behind the closing parenthesis *)
  assert (H : (exists d1 l, d = d1 ++ q0 :: l /\ y = l ++ close :: rest)
              \/ (exists a', rest = a' ++ q0 :: y /\ length a' < length a7)).
  { clear -E Q. revert a7 E. induction d as [|x d IH]; intros a7 E; simpl in E.
    - apply skip_char in E as [(-> & -> & ->)|(a8 & -> & E)].
      + discriminate Q.
      + right. exists a8. split; [done|]. simpl. lia.
    - apply skip_char in E as [(-> & -> & ->)|(a8 & -> & E)].
      + left. by exists [], d.
      + destruct (IH _ E) as [(d1 & l & -> & ->)|(a' & -> & L)].
        * left. by exists (x :: d1), l.
        * right. exists a'. split; [done|]. simpl. lia. }
  destruct H as [H|(a' & -> & L)]; [by left|].
  right. exists a'. split; [done|].
  cbn [length]. rewrite !length_app. cbn [length]. rewrite !length_app.
  cbn [length]. rewrite !length_app. cbn [length]. lia.
Qed.

(** The first closing parenthesis of a text is where it is. *)
Lemma first_close l1 l2 r1 r2 :
  close_free l1 -> close_free l2 ->
  l1 ++ close :: r1 = l2 ++ close :: r2 -> l1 = l2 /\ r1 = r2.
Proof.
  intros H1. revert l2. induction H1 as [|c l1 Hc H1 IH]; intros l2 H2 E.
  - destruct H2 as [|c l2 Hc H2]; simpl in E.
    + by injection E as ->.
    + injection E as <- _. discriminate Hc.
  - destruct H2 as [|c' l2 Hc' H2]; simpl in E.
    + injection E as -> _. discriminate Hc.
    + injection E as -> E. destruct (IH l2 H2 E) as [-> ->]. done.
Qed.

Lemma before_close x b l rest :
  close_free x -> x ++ b = l ++ close :: rest -> exists l', l = x ++ l'.
Proof.
  intros Hx. revert l. induction Hx as [|c x Hc Hx IH]; intros l E.
  - by exists l.
  - destruct l as [|c' l]; simpl in E.
    + injection E as -> _. discriminate Hc.
    + injection E as -> E. destruct (IH l E) as [l' ->]. by exists l'.
Qed.

Lemma head_raw_close_free f q q2 w1 w2 :
  plain f -> is_quote q = true -> is_quote q2 = true -> spaces w1 -> spaces w2 ->
  close_free (head_raw f q q2 w1 w2).
Proof.
  intros Hf Q Q2 W1 W2. unfold head_raw, close_free.
  pose proof (plain_close_free f Hf) as Cf.
  repeat first [apply Forall_cons; split | apply Forall_app; split];
    try done; try (by apply quote_close_free); try (by apply spaces_close_free);
    try apply lookup_call_close_free; try constructor.
Qed.

Lemma head_wrapped_close_free f q q2 :
  plain f -> is_quote q = true -> is_quote q2 = true ->
  close_free (head_wrapped f q q2).
Proof.
  intros Hf Q Q2. unfold head_wrapped, close_free.
  pose proof (plain_close_free f Hf) as Cf.
  repeat first [apply Forall_cons; split | apply Forall_app; split];
    try done; try (by apply quote_close_free);
    try apply decimal_call_close_free; try constructor.
Qed.

Lemma default_shape_close_free d : default_shape d -> close_free d.
Proof.
  intros [-> | (x & y & -> & H)]; [constructor|]. by constructor.
Qed.

(** *** What the scan for one field leaves of another field *)

Lemma plain_first f : plain f -> exists c f', f = c :: f' /\ is_lower c = true.
Proof.
  intros [Hne H]. destruct f as [|c f']; [done|].
  apply Forall_cons in H as [Hc _]. eauto.
Qed.

Lemma key_not_at_colon field q y w z :
  plain field -> spaces w -> field ++ q :: y = w ++ colon :: z -> False.
Proof.
  intros Hf Hw E. destruct (plain_first _ Hf) as (c & f' & -> & Hc).
  apply lower_facts in Hc as (_ & Hs & _ & Hcolon & _).
  destruct Hw as [|x w Hx Hw]; simpl in E; injection E as -> _; [done|congruence].
Qed.

Lemma key_not_at_default field q y d z :
  plain field -> default_shape d -> field ++ q :: y = d ++ close :: z -> False.
Proof.
  intros Hf Hd E. destruct (plain_first _ Hf) as (c & f' & -> & Hc).
  apply lower_facts in Hc as (_ & _ & _ & _ & Hcomma & Hclose).
  destruct Hd as [-> | (x & y' & -> & _)]; simpl in E; injection E as -> _; done.
Qed.

Lemma head_raw_cons f q q2 w1 w2 z :
  head_raw f q q2 w1 w2 ++ z
  = q :: f ++ q :: (w1 ++ colon :: (w2 ++ lookup_call ++ q2 :: f ++ q2 :: z)).
Proof. unfold head_raw. by list_norm. Qed.

(** The pattern of [f] does not match at the quote that opens another
    key, nor at a quote followed by a colon, white space or a default. *)
Lemma no_match_other_key f field q q' z :
  plain f -> plain field -> f <> field ->
  is_quote q' = true ->
  match_decimal_groups f (q :: field ++ q' :: z) = None.
Proof.
  intros Hf Hg Hne Q'.
  destruct (match_decimal_groups f _) as [[[[q1 q2] d] rest]|] eqn:E; [|done].
  apply match_groups_hit in E as (w1 & w2 & E & Q1 & _).
  rewrite head_raw_cons in E. injection E as -> E.
  apply same_key in E as (-> & _); try done; by apply plain_quote_free.
Qed.

Lemma no_match_at_colon f q w z :
  plain f -> spaces w -> match_decimal_groups f (q :: w ++ colon :: z) = None.
Proof.
  intros Hf Hw.
  destruct (match_decimal_groups f _) as [[[[q1 q2] d] rest]|] eqn:E; [|done].
  apply match_groups_hit in E as (w1 & w2 & E & Q1 & _).
  rewrite head_raw_cons in E. injection E as -> E. symmetry in E.
  by apply key_not_at_colon in E.
Qed.

Lemma no_match_at_default f q d z :
  plain f -> default_shape d -> match_decimal_groups f (q :: d ++ close :: z) = None.
Proof.
  intros Hf Hd.
  destruct (match_decimal_groups f _) as [[[[q1 q2] d'] rest]|] eqn:E; [|done].
  apply match_groups_hit in E as (w1 & w2 & E & Q1 & _).
  rewrite head_raw_cons in E. injection E as -> E. symmetry in E.
  by apply key_not_at_default in E.
Qed.

(** The output holds a wrapped lookup of [field]. *)
Definition wrapped_in (field t : text) : Prop :=
  exists q q2, is_quote q = true /\ is_quote q2 = true
    /\ occurs (head_wrapped field q q2) t.

(** The pattern of [field] matches somewhere in [t]. *)
Definition raw_in (field t : text) : Prop :=
  exists a q q2 w1 w2 s,
    t = a ++ head_raw field q q2 w1 w2 ++ s
    /\ is_quote q = true /\ is_quote q2 = true /\ spaces w1 /\ spaces w2
    /\ is_Some (match_default s).

Section other_field.
Variables f field : text.
Hypothesis Hf : plain f.
Hypothesis Hfield : plain field.
Hypothesis Hne : f <> field.

(** The scan for [f] runs through a wrapped lookup of [field] without
    touching it. *)
Lemma wrap_through_wrapped q q2 b :
  is_quote q = true -> is_quote q2 = true ->
  exists r, wrap f (head_wrapped field q q2 ++ b) = head_wrapped field q q2 ++ r.
Proof.
  intros Q Q2. unfold head_wrapped.
  destruct (wrap_keeps_first f q2 b) as [r Hr]. exists r.
  assert (E1 : (q :: field ++ q :: decimal_call ++ q2 :: field ++ [q2]) ++ b
               = q :: field ++ q :: (decimal_call ++ q2 :: field ++ q2 :: b))
    by (by list_norm).
  rewrite E1.
  rewrite wrap_miss by (by apply no_match_other_key).
  rewrite wrap_skip by (by apply plain_quote_free).
  rewrite wrap_miss by (apply (no_match_at_colon f q [] _ Hf); constructor).
  rewrite wrap_skip by apply decimal_call_quote_free.
  rewrite wrap_miss by (by apply no_match_other_key).
  rewrite wrap_skip by (by apply plain_quote_free).
  rewrite Hr. by list_norm.
Qed.

Lemma wrap_keeps_occurrence q q2 n : forall a b,
  is_quote q = true -> is_quote q2 = true -> length a <= n ->
  occurs (head_wrapped field q q2) (wrap f (a ++ head_wrapped field q q2 ++ b)).
Proof.
  induction n as [|n IH]; intros a b Q Q2 Hn.
  { destruct a; [|simpl in Hn; lia]. rewrite app_nil_l.
    destruct (wrap_through_wrapped q q2 b Q Q2) as [r ->]. by exists [], r. }
  destruct a as [|c a].
  { rewrite app_nil_l.
    destruct (wrap_through_wrapped q q2 b Q Q2) as [r ->]. by exists [], r. }
  simpl in Hn.
  destruct (match_decimal_groups f ((c :: a) ++ head_wrapped field q q2 ++ b))
    as [[[[q1 q1'] d] rest]|] eqn:E.
  - rewrite (wrap_hit _ _ _ _ _ _ E), replace_with_decimal_eq.
    apply match_groups_hit in E as (w1 & w2 & E & Q1 & Q1' & W1 & W2 & D).
    assert (E' : (c :: a) ++ q :: ((field ++ q :: decimal_call ++ q2 :: field ++ [q2]) ++ b)
                 = head_raw f q1 q1' w1 w2 ++ d ++ close :: rest).
    { rewrite <- E. unfold head_wrapped. by list_norm. }
    apply overlap_cases in E' as [A|[B|[C|[(d1 & l & -> & Hl)|(a' & -> & La)]]]];
      try done; try (by apply plain_quote_free).
    + exfalso. rewrite <- app_assoc in A. simpl in A.
      by apply key_not_at_colon in A.
    + exfalso. rewrite <- app_assoc in B. simpl in B.
      apply same_key in B as (-> & _); try done; by apply plain_quote_free.
    + exfalso. rewrite <- app_assoc in C. simpl in C.
      by apply key_not_at_default in C.
    + apply before_close in Hl as [l' ->].
      2:{ pose proof (head_wrapped_close_free field q q2 Hfield Q Q2) as Hc.
          unfold head_wrapped in Hc. by apply Forall_cons in Hc as [_ Hc]. }
      exists (head_wrapped f q1 q1' ++ d1), (l' ++ T ")))" ++ wrap f rest).
      unfold head_wrapped. by list_norm.
    + apply occurs_app_l.
      cbn [length] in La.
      change (q :: (field ++ q :: decimal_call ++ q2 :: field ++ [q2]) ++ b)
        with (head_wrapped field q q2 ++ b).
      apply (IH a' b Q Q2 ltac:(lia)).
  - rewrite <- app_comm_cons. rewrite wrap_miss by done.
    apply (occurs_app_l _ [c]). by apply IH; [..|lia].
Qed.

Lemma wrap_keeps_wrapped t : wrapped_in field t -> wrapped_in field (wrap f t).
Proof.
  intros (q & q2 & Q & Q2 & a & b & ->). exists q, q2. split; [done|]. split; [done|].
  by apply (wrap_keeps_occurrence q q2 (length a)).
Qed.

(** The scan for [f] leaves a default a default. *)
Lemma wrap_before_close n : forall d s1,
  length d <= n -> close_free d ->
  exists d' s',
    wrap f (d ++ close :: s1) = d' ++ close :: s'
    /\ close_free d'
    /\ forall x y, d = x :: y -> exists y', d' = x :: y'.
Proof.
  induction n as [|n IH]; intros d s1 Hn Hd.
  { destruct d; [|simpl in Hn; lia]. cbn [app].
    rewrite wrap_miss by (by apply no_match_unless_quote).
    exists [], (wrap f s1). repeat split; [constructor|done]. }
  destruct d as [|x y].
  { cbn [app]. rewrite wrap_miss by (by apply no_match_unless_quote).
    exists [], (wrap f s1). repeat split; [constructor|done]. }
  simpl in Hn. apply Forall_cons in Hd as Hxy. destruct Hxy as [Hx Hy].
  destruct (match_decimal_groups f ((x :: y) ++ close :: s1))
    as [[[[q1 q1'] dd] rest]|] eqn:E.
  - rewrite (wrap_hit _ _ _ _ _ _ E), replace_with_decimal_eq.
    apply match_groups_hit in E as (w1 & w2 & E & Q1 & Q1' & W1 & W2 & D).
    exists (head_wrapped f q1 q1' ++ dd), (T "))" ++ wrap f rest).
    split; [by list_norm|]. split.
    + apply Forall_app; split;
        [by apply head_wrapped_close_free|by apply default_shape_close_free].
    + intros x' y' [= <- <-]. unfold head_raw in E. injection E as -> _.
      unfold head_wrapped. simpl. eauto.
  - rewrite <- app_comm_cons. rewrite wrap_miss by done.
    destruct (IH y s1 ltac:(lia) Hy) as (d' & s' & -> & Hd' & _).
    exists (x :: d'), s'. split; [done|]. split; [by constructor|].
    intros x' y' [= <- <-]. eauto.
Qed.

Lemma wrap_keeps_default s :
  is_Some (match_default s) -> is_Some (match_default (wrap f s)).
Proof.
  intros [[d rest] H]. apply match_default_spec in H as [Hd ->].
  destruct Hd as [-> | (x & y & -> & Hxy)].
  - cbn [app]. rewrite wrap_miss by (by apply no_match_unless_quote). by eexists.
  - cbn [app]. rewrite wrap_miss by (by apply no_match_unless_quote).
    change (x :: y ++ close :: rest) with ((x :: y) ++ close :: rest).
    destruct (wrap_before_close (length (x :: y)) (x :: y) rest ltac:(lia) Hxy)
      as (d' & s' & -> & Hd' & Hfirst).
    destruct (Hfirst x y eq_refl) as [y' ->].
    exists (comma :: x :: y', s'). apply match_default_spec.
    split; [|done]. right. by exists x, y'.
Qed.

(** The scan for [f] runs through the head of a match of [field]. *)
Lemma wrap_through_raw q q2 w1 w2 s :
  is_quote q = true -> is_quote q2 = true -> spaces w1 -> spaces w2 ->
  is_Some (match_default s) ->
  wrap f (head_raw field q q2 w1 w2 ++ s) = head_raw field q q2 w1 w2 ++ wrap f s.
Proof.
  intros Q Q2 W1 W2 [[d rest] D]. apply match_default_spec in D as [Hd ->].
  unfold head_raw.
  assert (E1 : (q :: field ++ q :: w1 ++ colon :: w2 ++ lookup_call
                  ++ q2 :: field ++ [q2]) ++ d ++ close :: rest
               = q :: field ++ q :: (w1 ++ colon :: w2 ++ lookup_call)
                   ++ q2 :: field ++ q2 :: d ++ close :: rest)
    by (by list_norm).
  rewrite E1.
  rewrite wrap_miss by (by apply no_match_other_key).
  rewrite wrap_skip by (by apply plain_quote_free).
  rewrite wrap_miss.
  2:{ rewrite <- app_assoc. simpl. by apply no_match_at_colon. }
  rewrite wrap_skip.
  2:{ apply Forall_app; split; [by apply spaces_quote_free|].
      apply Forall_cons; split; [done|].
      apply Forall_app; split; [by apply spaces_quote_free|apply lookup_call_quote_free]. }
  rewrite wrap_miss by (by apply no_match_other_key).
  rewrite wrap_skip by (by apply plain_quote_free).
  rewrite wrap_miss by (by apply no_match_at_default).
  by list_norm.
Qed.

Lemma wrap_keeps_match q q2 w1 w2 n : forall a s,
  is_quote q = true -> is_quote q2 = true -> spaces w1 -> spaces w2 ->
  is_Some (match_default s) -> length a <= n ->
  raw_in field (wrap f (a ++ head_raw field q q2 w1 w2 ++ s)).
Proof.
  induction n as [|n IH]; intros a s Q Q2 W1 W2 D Hn.
  { destruct a; [|simpl in Hn; lia]. rewrite app_nil_l, wrap_through_raw by done.
    exists [], q, q2, w1, w2, (wrap f s). repeat split; try done.
    by apply wrap_keeps_default. }
  destruct a as [|c a].
  { rewrite app_nil_l, wrap_through_raw by done.
    exists [], q, q2, w1, w2, (wrap f s). repeat split; try done.
    by apply wrap_keeps_default. }
  simpl in Hn.
  destruct (match_decimal_groups f ((c :: a) ++ head_raw field q q2 w1 w2 ++ s))
    as [[[[q1 q1'] d] rest]|] eqn:E.
  - rewrite (wrap_hit _ _ _ _ _ _ E), replace_with_decimal_eq.
    apply match_groups_hit in E as (v1 & v2 & E & Q1 & Q1' & V1 & V2 & Dd).
    pose proof D as [[dA rA] DA]. apply match_default_spec in DA as [HdA ->].
    set (tail := field ++ q :: w1 ++ colon :: w2 ++ lookup_call ++ q2 :: field ++ [q2]).
    assert (Htail : head_raw field q q2 w1 w2 = q :: tail) by done.
    assert (Ctail : close_free tail).
    { pose proof (head_raw_close_free field q q2 w1 w2 Hfield Q Q2 W1 W2) as Hc.
      rewrite Htail in Hc. by apply Forall_cons in Hc as [_ Hc]. }
    assert (E' : (c :: a) ++ q :: (tail ++ dA ++ close :: rA)
                 = head_raw f q1 q1' v1 v2 ++ d ++ close :: rest).
    { rewrite <- E, Htail. by list_norm. }
    apply overlap_cases in E' as [A|[B|[C|[(d1 & l & -> & Hl)|(a' & -> & La)]]]];
      try done; try (by apply plain_quote_free).
    + exfalso. unfold tail in A. rewrite <- app_assoc in A. simpl in A.
      by apply key_not_at_colon in A.
    + exfalso. unfold tail in B. rewrite <- app_assoc in B. simpl in B.
      apply same_key in B as (-> & _); try done; by apply plain_quote_free.
    + exfalso. unfold tail in C. rewrite <- app_assoc in C. simpl in C.
      by apply key_not_at_default in C.
    + rewrite app_assoc in Hl.
      apply default_shape_close_free in Dd.
      apply Forall_app in Dd as [_ Dl]. apply Forall_cons in Dl as [_ Dl].
      apply first_close in Hl as [<- ->]; [|
        by apply Forall_app; split; [|apply default_shape_close_free]|done].
      exists (head_wrapped f q1 q1' ++ d1), q, q2, w1, w2,
        (dA ++ close :: T "))" ++ wrap f rest).
      split; [rewrite Htail; by list_norm|].
      repeat split; try done.
      exists (dA, T "))" ++ wrap f rest). by apply match_default_spec.
    + cbn [length] in La.
      assert (D' : is_Some (match_default (dA ++ close :: rA)))
        by (eexists; by apply match_default_spec).
      destruct (IH a' (dA ++ close :: rA) Q Q2 W1 W2 D' ltac:(lia))
        as (x & y1 & y2 & u1 & u2 & s' & Hx & Hrest).
      change (a' ++ q :: tail ++ dA ++ close :: rA)
        with (a' ++ head_raw field q q2 w1 w2 ++ dA ++ close :: rA).
      rewrite Hx.
      exists ((head_wrapped f q1 q1' ++ d ++ T ")))") ++ x), y1, y2, u1, u2, s'.
      split; [by rewrite <- !app_assoc|done].
  - rewrite <- app_comm_cons. rewrite wrap_miss by done.
    destruct (IH a s Q Q2 W1 W2 D ltac:(lia))
      as (x & y1 & y2 & u1 & u2 & s' & -> & ?).
    by exists (c :: x), y1, y2, u1, u2, s'.
Qed.

Lemma wrap_keeps_raw t : raw_in field t -> raw_in field (wrap f t).
Proof.
  intros (a & q & q2 & w1 & w2 & s & -> & Q & Q2 & W1 & W2 & D).
  by apply (wrap_keeps_match q q2 w1 w2 (length a)).
Qed.

End other_field.

(** *** The scan for the field itself, and the loop over the fields *)

(** [re.search]: the pattern of [field] matches somewhere in [t]. *)
Fixpoint matches_somewhere (field t : text) : bool :=
  match match_decimal_groups field t with
  | Some _ => true
  | None =>
      match t with
      | [] => false
      | _ :: t' => matches_somewhere field t'
      end
  end.

Lemma matches_somewhere_unfold field t :
  matches_somewhere field t
  = match match_decimal_groups field t with
    | Some _ => true
    | None =>
        match t with
        | [] => false
        | _ :: t' => matches_somewhere field t'
        end
    end.
Proof. by destruct t. Qed.

Lemma matches_somewhere_raw field t :
  matches_somewhere field t = true -> raw_in field t.
Proof.
  induction t as [|c t IH]; rewrite matches_somewhere_unfold.
  - destruct (match_decimal_groups field []) eqn:E; [|discriminate].
    unfold match_decimal_groups in E. discriminate.
  - destruct (match_decimal_groups field (c :: t)) as [[[[q q2] d] rest]|] eqn:E.
    + intros _. apply match_groups_hit in E as (w1 & w2 & -> & Q & Q2 & W1 & W2 & D).
      exists [], q, q2, w1, w2, (d ++ close :: rest). repeat split; try done.
      exists (d, rest). by apply match_default_spec.
    + intros H. destruct (IH H) as (a & q & q2 & w1 & w2 & s & -> & ?).
      by exists (c :: a), q, q2, w1, w2, s.
Qed.

Lemma wrap_wraps field t :
  plain field -> raw_in field t -> wrapped_in field (wrap field t).
Proof.
  intros Hf (a & q & q2 & w1 & w2 & s & -> & Q & Q2 & W1 & W2 & [[d rest] D]).
  apply match_default_spec in D as [Hd ->].
  induction a as [|c a IH].
  - rewrite app_nil_l.
    rewrite (wrap_hit _ _ _ _ _ _ (match_groups_build field q q2 w1 w2 d rest Q Q2 W1 W2 Hd)).
    rewrite replace_with_decimal_eq. exists q, q2. split; [done|]. split; [done|].
    exists [], (d ++ T ")))" ++ wrap field rest). by rewrite <- !app_assoc.
  - destruct (match_decimal_groups field
                ((c :: a) ++ head_raw field q q2 w1 w2 ++ d ++ close :: rest))
      as [[[[q1 q1'] d1] rest1]|] eqn:E.
    + rewrite (wrap_hit _ _ _ _ _ _ E), replace_with_decimal_eq.
      apply match_groups_hit in E as (_ & _ & _ & Q1 & Q1' & _).
      exists q1, q1'. split; [done|]. split; [done|].
      exists [], (d1 ++ T ")))" ++ wrap field rest1). by rewrite <- !app_assoc.
    + rewrite <- app_comm_cons. rewrite wrap_miss by done.
      destruct IH as (x & y & X & Y & O). exists x, y. split; [done|]. split; [done|].
      by apply (occurs_app_l _ [c]).
Qed.

Lemma wrap_fields_cons f fields h :
  wrap_fields (f :: fields) h = wrap_fields fields (wrap f h).
Proof. reflexivity. Qed.

Lemma wrap_fields_keeps fields field h :
  plain field -> Forall plain fields -> ~ In field fields ->
  wrapped_in field h -> wrapped_in field (wrap_fields fields h).
Proof.
  intros Hfield Hall. revert h. induction Hall as [|f fields Hf Hall IH]; intros h Hin H.
  - done.
  - rewrite wrap_fields_cons. apply IH.
    + intros Hx. apply Hin. by right.
    + apply wrap_keeps_wrapped; try done. intros ->. apply Hin. by left.
Qed.

Lemma wrap_fields_wraps fields field h :
  Forall plain fields -> NoDup fields -> In field fields ->
  raw_in field h -> wrapped_in field (wrap_fields fields h).
Proof.
  intros Hall Hnd Hin.
  assert (Hfield : plain field).
  { rewrite Forall_forall in Hall. apply Hall. by apply list_elem_of_In. }
  revert h Hnd Hin. induction Hall as [|f fields Hf Hall IH]; intros h Hnd Hin H.
  - destruct Hin.
  - apply NoDup_cons in Hnd as [Hnotin Hnd]. rewrite wrap_fields_cons.
    destruct (decide (f = field)) as [->|Hne].
    + apply wrap_fields_keeps; try done.
      * intros Hx. apply Hnotin. by apply list_elem_of_In.
      * by apply wrap_wraps.
    + apply IH; try done.
      * destruct Hin as [Heq|Hin]; [by destruct Hne|done].
      * by apply wrap_keeps_raw.
Qed.

Lemma numeric_fields_all_plain : Forall plain numeric_fields.
Proof. apply Forall_forall. intros f Hf. apply numeric_fields_plain. by apply list_elem_of_In. Qed.

(** *** Through the indentation *)

Definition breaks_free (x : text) : Prop := Forall (fun c => is_linebreak c = false) x.

Lemma indent_run prefix x b :
  breaks_free x ->
  indent_from prefix false (x ++ b) = x ++ indent_from prefix false b.
Proof.
  induction 1 as [|c x Hc Hx IH]; [done|].
  cbn [app indent_from]. rewrite Hc. cbn [andb app]. by rewrite IH.
Qed.

Lemma indent_reaches prefix a : forall bol s,
  exists o bol', indent_from prefix bol (a ++ s) = o ++ indent_from prefix bol' s.
Proof.
  induction a as [|c a IH]; intros bol s.
  - by exists [], bol.
  - cbn [app indent_from].
    destruct (IH (is_linebreak c && negb (eqc c (chr 13) && starts_with [nl] (a ++ s))) s)
      as (o & bol' & ->).
    eexists (_ ++ c :: o), bol'. by rewrite <- app_assoc.
Qed.

Lemma indent_keeps prefix x h :
  breaks_free x -> occurs x h -> occurs x (indent h prefix).
Proof.
  intros Hx (a & b & ->). unfold indent.
  destruct (indent_reaches prefix a true (x ++ b)) as (o & bol & ->).
  apply occurs_app_l.
  destruct Hx as [|c x Hc Hx]; [by exists [], (indent_from prefix bol b)|].
  cbn [app indent_from]. rewrite Hc. cbn [andb].
  rewrite indent_run by done.
  by exists (if bol && negb (line_is_blank (c :: x ++ b)) then prefix else []),
            (indent_from prefix false b).
Qed.

Lemma linebreak_is_space c : is_linebreak c = true -> py_isspace c = true.
Proof.
  destruct c as [[] [] [] [] [] [] [] []]; vm_compute; intros; congruence.
Qed.

Lemma quote_not_break q : is_quote q = true -> is_linebreak q = false.
Proof.
  unfold is_quote. intros H. apply orb_true_iff in H as [H|H]; apply eqc_eq in H; by subst q.
Qed.

Lemma plain_breaks_free f : plain f -> breaks_free f.
Proof.
  intros [_ H]. eapply Forall_impl; [exact H|]. intros c Hc.
  apply lower_facts in Hc as (_ & Hs & _).
  destruct (is_linebreak c) eqn:E; [|done].
  apply linebreak_is_space in E. congruence.
Qed.

Lemma head_wrapped_breaks_free f q q2 :
  plain f -> is_quote q = true -> is_quote q2 = true -> breaks_free (head_wrapped f q q2).
Proof.
  intros Hf Q Q2. unfold head_wrapped, breaks_free.
  pose proof (plain_breaks_free f Hf) as Bf.
  repeat first [apply Forall_cons; split | apply Forall_app; split];
    try done; try (by apply quote_not_break); try (unfold decimal_call; repeat constructor).
Qed.

(** *** A fragment with text in it is not replaced by the placeholder *)

Lemma lstrip_nil p s : lstrip p s = [] -> Forall (fun c => p c = true) s.
Proof.
  induction s as [|c s IH]; simpl; [constructor|].
  destruct (p c) eqn:E; [|discriminate]. intros H. constructor; auto.
Qed.

Lemma rstrip_nil p s : rstrip p s = [] -> Forall (fun c => p c = true) s.
Proof.
  induction s as [|c s IH]; simpl; [constructor|].
  destruct (rstrip p s) eqn:R; [|discriminate].
  destruct (p c) eqn:E; [|discriminate]. intros _. constructor; auto.
Qed.

Lemma lstrip_all p s : Forall (fun c => p c = true) (lstrip p s) -> lstrip p s = [].
Proof.
  induction s as [|c s IH]; simpl; [done|].
  destruct (p c) eqn:E; [done|]. intros H. apply Forall_cons in H as [H _]. congruence.
Qed.

Lemma strip_nil p s : strip p s = [] -> Forall (fun c => p c = true) s.
Proof.
  unfold strip. intros H. apply rstrip_nil in H. apply lstrip_all in H.
  by apply lstrip_nil.
Qed.

Lemma or_pass_keeps h : occurs (T "put_item") h -> or_pass h = h.
Proof.
  intros (a & b & ->). unfold or_pass.
  destruct (strip py_isspace (a ++ T "put_item" ++ b)) eqn:E; [|done].
  apply strip_nil in E. apply Forall_app in E as [_ E].
  simpl in E. apply Forall_cons in E as [E _]. discriminate E.
Qed.

(** *** Reading the output of the scan back *)

Lemma wrap_first_inv g t c r : wrap g t = c :: r -> exists t1, t = c :: t1.
Proof.
  destruct t as [|x t]; [by rewrite wrap_nil|].
  destruct (wrap_keeps_first g x t) as [r' ->]. intros [= -> _]. eauto.
Qed.

Lemma wrap_unskip g b : forall t r,
  quote_free b -> wrap g t = b ++ r -> exists t', t = b ++ t' /\ wrap g t' = r.
Proof.
  induction b as [|c b IH]; intros t r Hb E.
  - by exists t.
  - apply Forall_cons in Hb as [Hc Hb]. simpl in E.
    destruct (wrap_first_inv _ _ _ _ E) as [t1 ->].
    rewrite wrap_miss in E by (by apply no_match_unless_quote).
    injection E as E. destruct (IH _ _ Hb E) as (t' & -> & <-). by exists t'.
Qed.

(** At a quote the scan either copies the quote or puts a wrapped
    lookup of its field there. *)
Lemma wrap_at_quote g q t r :
  wrap g (q :: t) = q :: r ->
  wrap g t = r
  \/ exists q2 d rest, is_quote q = true /\ is_quote q2 = true /\ default_shape d
       /\ r = g ++ q :: decimal_call ++ q2 :: g ++ q2 :: d ++ T ")))" ++ wrap g rest.
Proof.
  destruct (match_decimal_groups g (q :: t)) as [[[[q1 q1'] d] rest]|] eqn:E.
  - rewrite (wrap_hit _ _ _ _ _ _ E), replace_with_decimal_eq.
    apply match_groups_hit in E as (w1 & w2 & E & Q1 & Q1' & W1 & W2 & D).
    unfold head_raw in E. injection E as <- _.
    unfold head_wrapped. intros H. right. exists q1', d, rest.
    repeat split; try done. revert H. list_norm. by intros [= <-].
  - rewrite wrap_miss by done. intros [= <-]. by left.
Qed.

(** Where a quote sits in a text made of two quoted keys, a middle part
    without quotes, a default and what follows its closing parenthesis. *)
Lemma quote_positions (k1 m k2 : text) (q q' q2 q2' : ascii) d rest a q0 y :
  quote_free k1 -> quote_free m -> quote_free k2 -> is_quote q0 = true ->
  a ++ q0 :: y = q :: k1 ++ q' :: m ++ q2 :: k2 ++ q2' :: d ++ close :: rest ->
  (a = [] /\ y = k1 ++ q' :: m ++ q2 :: k2 ++ q2' :: d ++ close :: rest)
  \/ y = m ++ q2 :: k2 ++ q2' :: d ++ close :: rest
  \/ y = k2 ++ q2' :: d ++ close :: rest
  \/ y = d ++ close :: rest
  \/ (exists d1 l, d = d1 ++ q0 :: l /\ y = l ++ close :: rest)
  \/ (exists a', a = (q :: k1 ++ q' :: m ++ q2 :: k2 ++ q2' :: d ++ [close]) ++ a'
                 /\ rest = a' ++ q0 :: y).
Proof.
  intros K1 M K2 Q E.
  apply skip_char in E as [(-> & _ & ->)|(a1 & -> & E)]; [by left|]. right.
  apply skip_block in E as (a2 & -> & E); [|done..].
  apply skip_char in E as [(-> & _ & ->)|(a3 & -> & E)]; [by left|]. right.
  apply skip_block in E as (a4 & -> & E); [|done..].
  apply skip_char in E as [(-> & _ & ->)|(a5 & -> & E)]; [by left|]. right.
  apply skip_block in E as (a6 & -> & E); [|done..].
  apply skip_char in E as [(-> & _ & ->)|(a7 & -> & E)]; [by left|]. right.
  assert (H : (exists d1 l, d = d1 ++ q0 :: l /\ y = l ++ close :: rest)
              \/ (exists a', a7 = d ++ close :: a' /\ rest = a' ++ q0 :: y)).
  { clear -E Q. revert a7 E. induction d as [|x d IH]; intros a7 E; simpl in E.
    - apply skip_char in E as [(-> & -> & ->)|(a8 & -> & E)].
      + discriminate Q.
      + right. by exists a8.
    - apply skip_char in E as [(-> & -> & ->)|(a8 & -> & E)].
      + left. by exists [], d.
      + destruct (IH _ E) as [(d1 & l & -> & ->)|(a' & -> & ->)].
        * left. by exists (x :: d1), l.
        * right. by exists a'. }
  destruct H as [H|(a' & -> & ->)]; [by left|].
  right. exists a'. split; [|done]. by list_norm.
Qed.

Lemma wrapped_not_raw X w1 w2 Y :
  spaces w1 -> spaces w2 ->
  decimal_call ++ X = w1 ++ colon :: w2 ++ lookup_call ++ Y -> False.
Proof.
  intros W1 W2. unfold decimal_call, lookup_call.
  destruct W1 as [|c w1 Hc W1]; simpl.
  - destruct W2 as [|c w2 Hc W2]; simpl; [discriminate|].
    destruct W2 as [|c' w2 Hc' W2]; simpl; [discriminate|].
    intros [= _ <-]. discriminate Hc'.
  - intros [= <-]. discriminate Hc.
Qed.

Lemma colon_not_default w z d z' :
  spaces w -> default_shape d -> w ++ colon :: z = d ++ close :: z' -> False.
Proof.
  intros W D E.
  destruct W as [|c w Hc W]; simpl in E.
  - destruct D as [-> | (x & y & -> & _)]; simpl in E; discriminate E.
  - destruct D as [-> | (x & y & -> & _)]; simpl in E; injection E as -> _;
      discriminate Hc.
Qed.

(** The tail of a head of [f] behind its opening quote [q]. *)
Definition head_tail (f : text) (q q2 : ascii) (w1 w2 : text) : text :=
  f ++ q :: w1 ++ colon :: w2 ++ lookup_call ++ q2 :: f ++ [q2].

Lemma head_raw_tail f q q2 w1 w2 : head_raw f q q2 w1 w2 = q :: head_tail f q q2 w1 w2.
Proof. reflexivity. Qed.

Lemma head_tail_close_free f q q2 w1 w2 :
  plain f -> is_quote q = true -> is_quote q2 = true -> spaces w1 -> spaces w2 ->
  close_free (head_tail f q q2 w1 w2).
Proof.
  intros Hf Q Q2 W1 W2.
  pose proof (head_raw_close_free f q q2 w1 w2 Hf Q Q2 W1 W2) as H.
  rewrite head_raw_tail in H. by apply Forall_cons in H as [_ H].
Qed.

(** A head of [f] found in the text a match of [g] is replaced by, or
    behind it: the head lies in the default, which the replacement
    copies, or behind the three closing parentheses. *)
Lemma head_in_replacement g f q1 q1' d R a q q2 w1 w2 s :
  plain g -> plain f ->
  is_quote q1 = true -> is_quote q1' = true -> default_shape d ->
  is_quote q = true -> is_quote q2 = true -> spaces w1 -> spaces w2 ->
  a ++ head_raw f q q2 w1 w2 ++ s = head_wrapped g q1 q1' ++ d ++ close :: R ->
  (exists d1 l, d = d1 ++ head_raw f q q2 w1 w2 ++ l /\ s = l ++ close :: R)
  \/ (exists a', a = head_wrapped g q1 q1' ++ d ++ close :: a'
                 /\ R = a' ++ head_raw f q q2 w1 w2 ++ s).
Proof.
  intros Hg Hf Q1 Q1' D Q Q2 W1 W2 E.
  pose proof (plain_quote_free g Hg) as Qg.
  pose proof (plain_quote_free f Hf) as Qf.
  assert (E' : a ++ q :: (head_tail f q q2 w1 w2 ++ s)
               = q1 :: g ++ q1 :: decimal_call ++ q1' :: g ++ q1' :: d ++ close :: R).
  { rewrite head_raw_tail in E.
    change (a ++ (q :: head_tail f q q2 w1 w2) ++ s
            = q1 :: g ++ q1 :: decimal_call ++ q1' :: g ++ q1' :: d ++ close :: R).
    rewrite E. unfold head_wrapped. by list_norm. }
  clear E.
  apply quote_positions in E'
    as [(-> & A)|[B|[C|[F|[(d1 & l & -> & Hl)|(a' & -> & ->)]]]]];
    try done; try apply decimal_call_quote_free.
  - exfalso. unfold head_tail in A. rewrite <- !app_assoc in A. simpl in A.
    apply same_key in A as (_ & _ & A); try done.
    symmetry in A. revert A. rewrite <- !app_assoc. simpl. rewrite <- !app_assoc.
    by apply wrapped_not_raw.
  - exfalso. unfold head_tail in B. rewrite <- !app_assoc in B. simpl in B.
    by apply (key_not_at_colon f q _ [] _ Hf ltac:(constructor)) in B.
  - exfalso. unfold head_tail in C. rewrite <- !app_assoc in C. simpl in C.
    apply same_key in C as (_ & _ & C); try done.
    rewrite <- !app_assoc in C. simpl in C. by apply colon_not_default in C.
  - exfalso. unfold head_tail in F. rewrite <- !app_assoc in F. simpl in F.
    by apply key_not_at_default in F.
  - left.
    pose proof (head_tail_close_free f q q2 w1 w2 Hf Q Q2 W1 W2) as Ct.
    destruct (before_close _ _ _ _ Ct Hl) as [l' ->].
    rewrite <- app_assoc in Hl. apply app_inv_head in Hl as ->.
    exists d1, l'. split; [|done]. rewrite head_raw_tail. by list_norm.
  - right. exists a'. split; [|by rewrite head_raw_tail].
    unfold head_wrapped. by list_norm.
Qed.

(** The scan writes the head of a match of [f] only where it reads one:
    no key of the head is the opening of a match of [g] that the scan
    rewrites, unless [g] is [f] and a colon follows the lookup. *)
Lemma head_read g f q q2 w1 w2 t Z :
  plain g -> plain f ->
  is_quote q = true -> is_quote q2 = true -> spaces w1 -> spaces w2 ->
  g <> f \/ is_Some (match_default Z) ->
  wrap g t = head_raw f q q2 w1 w2 ++ Z ->
  exists s, t = head_raw f q q2 w1 w2 ++ s /\ wrap g (q2 :: s) = q2 :: Z.
Proof.
  intros Hg Hf Q Q2 W1 W2 Hex E.
  pose proof (plain_quote_free g Hg) as Qg.
  pose proof (plain_quote_free f Hf) as Qf.
  rewrite head_raw_cons in E.
  destruct (wrap_first_inv _ _ _ _ E) as [t1 ->].
  apply wrap_at_quote in E as [E | (q3 & d & rest & _ & Q3 & D & E)].
  2:{ exfalso. apply same_key in E as (_ & _ & E); try done.
      symmetry in E. by apply wrapped_not_raw in E. }
  apply wrap_unskip in E as (t2 & -> & E); [|done].
  destruct (wrap_first_inv _ _ _ _ E) as [t3 ->].
  apply wrap_at_quote in E as [E | (q3 & d & rest & _ & Q3 & D & E)].
  2:{ exfalso. symmetry in E. by apply key_not_at_colon in E. }
  assert (E' : wrap g t3 = (w1 ++ colon :: w2 ++ lookup_call) ++ q2 :: f ++ q2 :: Z).
  { rewrite E. by list_norm. }
  clear E.
  apply wrap_unskip in E' as (t4 & -> & E).
  2:{ apply Forall_app; split; [by apply spaces_quote_free|].
      apply Forall_cons; split; [done|].
      apply Forall_app; split; [by apply spaces_quote_free|apply lookup_call_quote_free]. }
  destruct (wrap_first_inv _ _ _ _ E) as [t5 ->].
  apply wrap_at_quote in E as [E | (q3 & d & rest & _ & Q3 & D & E)].
  2:{ exfalso. apply same_key in E as (E1 & _ & E); try done.
      destruct Hex as [Hne | [[d' r'] Hd]]; [done|].
      rewrite E in Hd. discriminate Hd. }
  apply wrap_unskip in E as (t6 & -> & E); [|done].
  destruct (wrap_first_inv _ _ _ _ E) as [s ->].
  exists s. split; [|done]. rewrite head_raw_cons. by list_norm.
Qed.

Lemma split_at_close u :
  close ∈ u -> exists l r, u = l ++ close :: r /\ close_free l.
Proof.
  induction u as [|c u IH]; intros H.
  - by apply elem_of_nil in H.
  - destruct (eqc c close) eqn:E.
    + apply eqc_eq in E as ->. exists [], u. split; [done|constructor].
    + apply elem_of_cons in H as [H|H].
      { apply eqc_neq in E. by destruct E. }
      destruct (IH H) as (l & r & -> & Hl). exists (c :: l), r. split; [done|].
      constructor; [|done]. unfold not_close_paren. fold close. by rewrite E.
Qed.

Lemma close_not_free x : close_free x -> close ∈ x -> False.
Proof.
  intros Hx Hc. unfold close_free in Hx. rewrite Forall_forall in Hx.
  specialize (Hx _ Hc). discriminate Hx.
Qed.

(** The scan writes a closing parenthesis only where it reads one. *)
Lemma close_reflect g u : close ∈ wrap g u -> close ∈ u.
Proof.
  induction u as [|c u IH].
  - by rewrite wrap_nil.
  - destruct (match_decimal_groups g (c :: u)) as [[[[q1 q1'] d] rest]|] eqn:E.
    + intros _. apply match_groups_hit in E as (w1 & w2 & -> & _).
      apply elem_of_app. right. apply elem_of_app. right. by left.
    + rewrite wrap_miss by done. intros H.
      apply elem_of_cons in H as [->|H]; [by left|]. right. by apply IH.
Qed.

Lemma default_reflect g u :
  is_Some (match_default (wrap g u)) -> is_Some (match_default u).
Proof.
  intros [[d' r'] H]. apply match_default_spec in H as [D E].
  destruct D as [-> | (x & y & -> & Hxy)].
  - simpl in E. destruct (wrap_first_inv _ _ _ _ E) as [u1 ->]. by eexists.
  - simpl in E. destruct (wrap_first_inv _ _ _ _ E) as [u1 ->].
    rewrite wrap_miss in E by (by apply no_match_unless_quote).
    injection E as E.
    destruct (wrap_first_inv _ _ _ _ E) as [u2 ->].
    assert (Hc : close ∈ x :: u2).
    { apply (close_reflect g). rewrite E. right.
      apply elem_of_app. right. by left. }
    destruct (split_at_close _ Hc) as (l & r & El & Hl).
    apply Forall_cons in Hxy as [Hx _].
    destruct l as [|x0 l]; simpl in El.
    { injection El as -> _. discriminate Hx. }
    rewrite El. exists (comma :: x0 :: l, r). apply match_default_spec.
    split; [|done]. right. by exists x0, l.
Qed.

(** *** What a scan can leave or create of the pattern of a field *)

(** [H] is the text of a match of [f] up to the key of the lookup. *)
Definition is_head (f H : text) : Prop :=
  exists q q2 w1 w2,
    H = head_raw f q q2 w1 w2
    /\ is_quote q = true /\ is_quote q2 = true /\ spaces w1 /\ spaces w2.

(** Two assignments of [f] from its lookup with no closing parenthesis
    between them: the second starts inside the call of the first. *)
Definition twice (f t : text) : Prop :=
  exists a H1 x H2 s,
    t = a ++ H1 ++ x ++ H2 ++ s /\ is_head f H1 /\ is_head f H2 /\ close_free x.

Lemma is_head_close_free f H : plain f -> is_head f H -> close_free H.
Proof.
  intros Hf (q & q2 & w1 & w2 & -> & Q & Q2 & W1 & W2). by apply head_raw_close_free.
Qed.

Lemma twice_app_l f a t : twice f t -> twice f (a ++ t).
Proof.
  intros (a0 & H1 & x & H2 & s & -> & ?). exists (a ++ a0), H1, x, H2, s.
  split; [by rewrite <- app_assoc|done].
Qed.

Lemma raw_in_app_l f a t : raw_in f t -> raw_in f (a ++ t).
Proof.
  intros (a0 & q & q2 & w1 & w2 & s & -> & ?). exists (a ++ a0), q, q2, w1, w2, s.
  split; [by rewrite <- app_assoc|done].
Qed.

(** Behind the replacement of a match come two closing parentheses:
    a head found there lies in what the scan makes of the rest. *)
Lemma behind_replacement a H s w f :
  is_head f H -> a ++ H ++ s = T "))" ++ w ->
  exists a', a = T "))" ++ a' /\ w = a' ++ H ++ s.
Proof.
  intros (q & q2 & w1 & w2 & -> & Q & _) E. rewrite head_raw_tail in E.
  destruct a as [|c a]; simpl in E.
  { injection E as -> _. discriminate Q. }
  injection E as -> E.
  destruct a as [|c a]; simpl in E.
  { injection E as -> _. discriminate Q. }
  injection E as -> E. exists a. by rewrite head_raw_tail.
Qed.

Section another_field.
Variables g f : text.
Hypothesis Hg : plain g.
Hypothesis Hf : plain f.
Hypothesis Hne : g <> f.

(** A head of [f] the scan for [g] writes before the first closing
    parenthesis is a head it reads before the first closing
    parenthesis. *)
Lemma head_after_reflect n : forall u x' H s',
  length u <= n -> close_free x' -> is_head f H ->
  wrap g u = x' ++ H ++ s' ->
  exists x s, u = x ++ H ++ s /\ close_free x
    /\ forall c y, x' = c :: y -> exists y', x = c :: y'.
Proof.
  induction n as [|n IH]; intros u x' H s' Hn Hx' HH E.
  { destruct u; [|simpl in Hn; lia]. rewrite wrap_nil in E.
    destruct HH as (q & q2 & w1 & w2 & -> & _). rewrite head_raw_tail in E.
    destruct x'; discriminate E. }
  destruct u as [|c u].
  { rewrite wrap_nil in E.
    destruct HH as (q & q2 & w1 & w2 & -> & _). rewrite head_raw_tail in E.
    destruct x'; discriminate E. }
  simpl in Hn.
  destruct (match_decimal_groups g (c :: u)) as [[[[q1 q1'] d] rest]|] eqn:M.
  - rewrite (wrap_hit _ _ _ _ _ _ M), replace_with_decimal_eq in E.
    apply match_groups_hit in M as (v1 & v2 & M & Q1 & Q1' & V1 & V2 & D).
    rewrite M. pose proof HH as (q & q2 & w1 & w2 & -> & Q & Q2 & W1 & W2).
    assert (E' : x' ++ head_raw f q q2 w1 w2 ++ s'
                 = head_wrapped g q1 q1' ++ d ++ close :: (T "))" ++ wrap g rest)).
    { rewrite <- E. by list_norm. }
    apply head_in_replacement in E'
      as [(d1 & l & -> & ->)|(a' & -> & _)]; try done.
    + exists (head_raw g q1 q1' v1 v2 ++ d1), (l ++ close :: rest).
      split; [by list_norm|]. split.
      * apply Forall_app; split; [by apply head_raw_close_free|].
        apply default_shape_close_free in D. by apply Forall_app in D as [D _].
      * intros c0 y ->. rewrite head_raw_tail. simpl. unfold head_wrapped in E.
        simpl in E. injection E as <- _. eauto.
    + exfalso. apply (close_not_free _ Hx').
      apply elem_of_app. right. apply elem_of_app. right. by left.
  - destruct x' as [|c0 x''].
    + rewrite app_nil_l in E. pose proof HH as (q & q2 & w1 & w2 & -> & Q & Q2 & W1 & W2).
      apply head_read in E as (s & -> & _); try done; [|by left].
      exists [], s. split; [done|]. split; [constructor|done].
    + rewrite wrap_miss in E by done. simpl in E. injection E as -> E.
      apply Forall_cons in Hx' as [Hc Hx''].
      destruct (IH u x'' H s' ltac:(lia) Hx'' HH E) as (x & s & -> & Cx & _).
      exists (c0 :: x), s. split; [done|]. split; [by constructor|].
      intros c1 y [= <- <-]. eauto.
Qed.

(** The scan for [g] creates no match of [f]. *)
Lemma wrap_reflects_match n : forall t a' H s',
  length t <= n -> is_head f H -> is_Some (match_default s') ->
  wrap g t = a' ++ H ++ s' -> raw_in f t.
Proof.
  induction n as [|n IH]; intros t a' H s' Hn HH Hs' E.
  { destruct t; [|simpl in Hn; lia]. rewrite wrap_nil in E.
    destruct HH as (q & q2 & w1 & w2 & -> & _). rewrite head_raw_tail in E.
    destruct a'; discriminate E. }
  destruct t as [|c t].
  { rewrite wrap_nil in E.
    destruct HH as (q & q2 & w1 & w2 & -> & _). rewrite head_raw_tail in E.
    destruct a'; discriminate E. }
  simpl in Hn.
  destruct (match_decimal_groups g (c :: t)) as [[[[q1 q1'] d] rest]|] eqn:M.
  - rewrite (wrap_hit _ _ _ _ _ _ M), replace_with_decimal_eq in E.
    pose proof (match_groups_shorter _ _ _ _ _ _ M) as L. simpl in L.
    apply match_groups_hit in M as (v1 & v2 & M & Q1 & Q1' & V1 & V2 & D).
    rewrite M. pose proof HH as (q & q2 & w1 & w2 & -> & Q & Q2 & W1 & W2).
    assert (E' : a' ++ head_raw f q q2 w1 w2 ++ s'
                 = head_wrapped g q1 q1' ++ d ++ close :: (T "))" ++ wrap g rest)).
    { rewrite <- E. by list_norm. }
    apply head_in_replacement in E'
      as [(d1 & l & -> & ->)|(a'' & -> & E')]; try done.
    + destruct Hs' as [[d' r'] Hd']. apply match_default_spec in Hd' as [D' Hd'].
      apply default_shape_close_free in D as Cd.
      apply Forall_app in Cd as [_ Cd]. apply Forall_app in Cd as [_ Cl].
      apply first_close in Hd' as [-> _]; [|done|by apply default_shape_close_free].
      exists (head_raw g q1 q1' v1 v2 ++ d1), q, q2, w1, w2, (d' ++ close :: rest).
      split; [by list_norm|]. repeat split; try done.
      exists (d', rest). by apply match_default_spec.
    + symmetry in E'. apply (behind_replacement _ _ _ _ f) in E' as (a3 & _ & E'); [|done].
      assert (R : raw_in f rest)
        by (by apply (IH rest a3 (head_raw f q q2 w1 w2) s'); [lia|..]).
      apply (raw_in_app_l f (head_raw g q1 q1' v1 v2 ++ d ++ [close])) in R.
      revert R. by list_norm.
  - destruct a' as [|c0 a''].
    + rewrite app_nil_l in E. pose proof HH as (q & q2 & w1 & w2 & -> & Q & Q2 & W1 & W2).
      apply head_read in E as (s & -> & E); try done; [|by left].
      apply wrap_at_quote in E as [E | (q3 & d & rest & _ & Q3 & D & E)].
      * exists [], q, q2, w1, w2, s. repeat split; try done.
        apply (default_reflect g). by rewrite E.
      * exfalso. destruct Hs' as [[d' r'] Hd']. apply match_default_spec in Hd' as [D' ->].
        symmetry in E. by apply key_not_at_default in E.
    + rewrite wrap_miss in E by done. simpl in E. injection E as -> E.
      apply (raw_in_app_l f [c0]). by apply (IH t a'' H s'); [lia|..].
Qed.

Lemma wrap_reflects_raw t : raw_in f (wrap g t) -> raw_in f t.
Proof.
  intros (a & q & q2 & w1 & w2 & s & E & Q & Q2 & W1 & W2 & D).
  apply (wrap_reflects_match (length t) t a (head_raw f q q2 w1 w2) s); try done.
  by exists q, q2, w1, w2.
Qed.

(** The scan for [g] creates no pair of heads of [f] that no closing
    parenthesis separates. *)
Lemma wrap_reflects_pair n : forall t a' H1 x' H2 s',
  length t <= n -> is_head f H1 -> is_head f H2 -> close_free x' ->
  wrap g t = a' ++ H1 ++ x' ++ H2 ++ s' -> twice f t.
Proof.
  induction n as [|n IH]; intros t a' H1 x' H2 s' Hn HH1 HH2 Hx' E.
  { destruct t; [|simpl in Hn; lia]. rewrite wrap_nil in E.
    destruct HH1 as (q & q2 & w1 & w2 & -> & _). rewrite head_raw_tail in E.
    destruct a'; discriminate E. }
  destruct t as [|c t].
  { rewrite wrap_nil in E.
    destruct HH1 as (q & q2 & w1 & w2 & -> & _). rewrite head_raw_tail in E.
    destruct a'; discriminate E. }
  simpl in Hn.
  destruct (match_decimal_groups g (c :: t)) as [[[[q1 q1'] d] rest]|] eqn:M.
  - rewrite (wrap_hit _ _ _ _ _ _ M), replace_with_decimal_eq in E.
    pose proof (match_groups_shorter _ _ _ _ _ _ M) as L. simpl in L.
    apply match_groups_hit in M as (v1 & v2 & M & Q1 & Q1' & V1 & V2 & D).
    rewrite M. pose proof HH1 as (q & q2 & w1 & w2 & -> & Q & Q2 & W1 & W2).
    assert (E' : a' ++ head_raw f q q2 w1 w2 ++ (x' ++ H2 ++ s')
                 = head_wrapped g q1 q1' ++ d ++ close :: (T "))" ++ wrap g rest)).
    { rewrite <- E. by list_norm. }
    apply head_in_replacement in E'
      as [(d1 & l & -> & E')|(a'' & -> & E')]; try done.
    + assert (C2 : close_free (x' ++ H2)).
      { apply Forall_app; split; [done|by apply (is_head_close_free f)]. }
      rewrite app_assoc in E'.
      destruct (before_close _ _ _ _ C2 E') as [l' ->].
      exists (head_raw g q1 q1' v1 v2 ++ d1), (head_raw f q q2 w1 w2), x', H2,
        (l' ++ close :: rest).
      split; [by list_norm|done].
    + symmetry in E'.
      apply (behind_replacement _ _ _ _ f) in E' as (a3 & _ & E'); [|done].
      assert (R : twice f rest)
        by (by apply (IH rest a3 (head_raw f q q2 w1 w2) x' H2 s'); [lia|..]).
      apply (twice_app_l f (head_raw g q1 q1' v1 v2 ++ d ++ [close])) in R.
      revert R. by list_norm.
  - destruct a' as [|c0 a''].
    + rewrite app_nil_l in E. pose proof HH1 as (q & q2 & w1 & w2 & -> & Q & Q2 & W1 & W2).
      apply head_read in E as (s & -> & E); try done; [|by left].
      change (q2 :: x' ++ H2 ++ s') with ((q2 :: x') ++ H2 ++ s') in E.
      apply (head_after_reflect (length (q2 :: s))) in E
        as (x0 & s0 & E & Cx0 & Hfirst); try done.
      2:{ constructor; [by apply quote_close_free|done]. }
      destruct (Hfirst q2 x' eq_refl) as [y' ->].
      simpl in E. injection E as ->. apply Forall_cons in Cx0 as [_ Cy'].
      by exists [], (head_raw f q q2 w1 w2), y', H2, s0.
    + rewrite wrap_miss in E by done. simpl in E. injection E as -> E.
      apply (twice_app_l f [c0]). by apply (IH t a'' H1 x' H2 s'); [lia|..].
Qed.

Lemma wrap_reflects_twice t : twice f (wrap g t) -> twice f t.
Proof.
  intros (a & H1 & x & H2 & s & E & HH1 & HH2 & Hx).
  by apply (wrap_reflects_pair (length t) t a H1 x H2 s).
Qed.

End another_field.

Section same_field.
Variable f : text.
Hypothesis Hf : plain f.

(** A match of [f] left by the scan for [f] itself was copied with the
    default of a match that the scan rewrote. *)
Lemma wrap_leaves_match n : forall t a' H s',
  length t <= n -> is_head f H -> is_Some (match_default s') ->
  wrap f t = a' ++ H ++ s' -> twice f t.
Proof.
  induction n as [|n IH]; intros t a' H s' Hn HH Hs' E.
  { destruct t; [|simpl in Hn; lia]. rewrite wrap_nil in E.
    destruct HH as (q & q2 & w1 & w2 & -> & _). rewrite head_raw_tail in E.
    destruct a'; discriminate E. }
  destruct t as [|c t].
  { rewrite wrap_nil in E.
    destruct HH as (q & q2 & w1 & w2 & -> & _). rewrite head_raw_tail in E.
    destruct a'; discriminate E. }
  simpl in Hn.
  destruct (match_decimal_groups f (c :: t)) as [[[[q1 q1'] d] rest]|] eqn:M.
  - rewrite (wrap_hit _ _ _ _ _ _ M), replace_with_decimal_eq in E.
    pose proof (match_groups_shorter _ _ _ _ _ _ M) as L. simpl in L.
    apply match_groups_hit in M as (v1 & v2 & M & Q1 & Q1' & V1 & V2 & D).
    rewrite M. pose proof HH as (q & q2 & w1 & w2 & -> & Q & Q2 & W1 & W2).
    assert (E' : a' ++ head_raw f q q2 w1 w2 ++ s'
                 = head_wrapped f q1 q1' ++ d ++ close :: (T "))" ++ wrap f rest)).
    { rewrite <- E. by list_norm. }
    apply head_in_replacement in E'
      as [(d1 & l & -> & ->)|(a'' & -> & E')]; try done.
    + exists [], (head_raw f q1 q1' v1 v2), d1, (head_raw f q q2 w1 w2),
        (l ++ close :: rest).
      split; [by list_norm|]. split; [by exists q1, q1', v1, v2|]. split; [done|].
      apply default_shape_close_free in D. by apply Forall_app in D as [D _].
    + symmetry in E'.
      apply (behind_replacement _ _ _ _ f) in E' as (a3 & _ & E'); [|done].
      assert (R : twice f rest)
        by (by apply (IH rest a3 (head_raw f q q2 w1 w2) s'); [lia|..]).
      apply (twice_app_l f (head_raw f q1 q1' v1 v2 ++ d ++ [close])) in R.
      revert R. by list_norm.
  - destruct a' as [|c0 a''].
    + exfalso. rewrite app_nil_l in E.
      pose proof HH as (q & q2 & w1 & w2 & -> & Q & Q2 & W1 & W2).
      apply head_read in E as (s & Et & E); try done; [|by right].
      apply wrap_at_quote in E as [E | (q3 & d & rest & _ & Q3 & D & E)].
      * rewrite <- E in Hs'. apply default_reflect in Hs' as [[d r] Hd].
        apply match_default_spec in Hd as [D ->].
        rewrite Et, (match_groups_build f q q2 w1 w2 d r) in M by done.
        discriminate M.
      * destruct Hs' as [[d' r'] Hd']. apply match_default_spec in Hd' as [D' ->].
        symmetry in E. by apply key_not_at_default in E.
    + rewrite wrap_miss in E by done. simpl in E. injection E as -> E.
      apply (twice_app_l f [c0]). by apply (IH t a'' H s'); [lia|..].
Qed.

Lemma wrap_clears t : raw_in f (wrap f t) -> twice f t.
Proof.
  intros (a & q & q2 & w1 & w2 & s & E & Q & Q2 & W1 & W2 & D).
  apply (wrap_leaves_match (length t) t a (head_raw f q q2 w1 w2) s); try done.
  by exists q, q2, w1, w2.
Qed.

End same_field.

(** *** The loop over the fields leaves no match of a field *)

Lemma wrap_fields_reflect_raw fields f h :
  plain f -> Forall plain fields -> ~ In f fields ->
  raw_in f (wrap_fields fields h) -> raw_in f h.
Proof.
  intros Hf Hall. revert h. induction Hall as [|g fields Hg Hall IH]; intros h Hin H.
  - done.
  - rewrite wrap_fields_cons in H. apply (wrap_reflects_raw g f); try done.
    + intros ->. apply Hin. by left.
    + apply IH; [|done]. intros Hx. apply Hin. by right.
Qed.

Lemma wrap_fields_clears fields f h :
  Forall plain fields -> NoDup fields -> In f fields ->
  raw_in f (wrap_fields fields h) -> twice f h.
Proof.
  intros Hall Hnd Hin.
  assert (Hf : plain f).
  { rewrite Forall_forall in Hall. apply Hall. by apply list_elem_of_In. }
  revert h Hnd Hin. induction Hall as [|g fields Hg Hall IH]; intros h Hnd Hin H.
  - destruct Hin.
  - apply NoDup_cons in Hnd as [Hnotin Hnd]. rewrite wrap_fields_cons in H.
    destruct (decide (g = f)) as [->|Hne].
    + apply wrap_clears; [done|].
      apply (wrap_fields_reflect_raw fields); try done.
      intros Hx. apply Hnotin. by apply list_elem_of_In.
    + apply (wrap_reflects_twice g f); try done.
      apply IH; try done.
      destruct Hin as [Heq|Hin]; [by destruct Hne|done].
Qed.

(** *** Reading the indented text back *)

Lemma run_prefix (P : ascii -> bool) X : forall R w' c0 r,
  Forall (fun c => P c = true) X -> P c0 = false ->
  X ++ R = w' ++ c0 :: r -> exists w'', w' = X ++ w''.
Proof.
  induction X as [|c X IH]; intros R w' c0 r HX Hc0 E.
  - by exists w'.
  - apply Forall_cons in HX as [Hc HX]. destruct w' as [|c' w']; simpl in E.
    + injection E as -> _. congruence.
    + injection E as -> E. destruct (IH _ _ _ _ HX Hc0 E) as [w'' ->]. by exists w''.
Qed.

Lemma first_stop (P : ascii -> bool) l1 : forall l2 c1 c2 r1 r2,
  Forall (fun c => P c = true) l1 -> Forall (fun c => P c = true) l2 ->
  P c1 = false -> P c2 = false ->
  l1 ++ c1 :: r1 = l2 ++ c2 :: r2 -> l1 = l2 /\ c1 = c2 /\ r1 = r2.
Proof.
  induction l1 as [|c l1 IH]; intros l2 c1 c2 r1 r2 H1 H2 Hc1 Hc2 E.
  - destruct l2 as [|c' l2]; simpl in E.
    + by injection E as -> ->.
    + injection E as -> _. apply Forall_cons in H2 as [H2 _]. congruence.
  - apply Forall_cons in H1 as [Hc H1]. destruct l2 as [|c' l2]; simpl in E.
    + injection E as -> _. congruence.
    + injection E as -> E. apply Forall_cons in H2 as [_ H2].
      destruct (IH _ _ _ _ _ H1 H2 Hc1 Hc2 E) as (-> & -> & ->). done.
Qed.

Section indented.
Variable prefix : text.
Hypothesis Hprefix : spaces prefix.

(** One step of the indentation: the character, behind the prefix or
    behind nothing. *)
Lemma indent_step bol c s :
  exists pre,
    spaces pre /\ (bol = false -> pre = [])
    /\ indent_from prefix bol (c :: s)
       = pre ++ c :: indent_from prefix
                       (is_linebreak c && negb (eqc c (chr 13) && starts_with [nl] s)) s.
Proof.
  cbn [indent_from]. destruct (bol && negb (line_is_blank (c :: s))) eqn:B.
  - exists prefix. split; [done|]. split; [|done]. intros ->. discriminate B.
  - exists []. split; [constructor|]. done.
Qed.

Lemma indent_unrun x : forall t r,
  breaks_free x -> indent_from prefix false t = x ++ r ->
  exists t', t = x ++ t' /\ indent_from prefix false t' = r.
Proof.
  induction x as [|c0 x IH]; intros t r Hx E.
  - by exists t.
  - apply Forall_cons in Hx as [Hc0 Hx]. destruct t as [|c t]; [discriminate E|].
    cbn [indent_from andb app] in E. injection E as -> E.
    rewrite Hc0 in E. cbn [andb] in E.
    destruct (IH _ _ Hx E) as (t' & -> & <-). by exists t'.
Qed.

Lemma not_space_not_break c : py_isspace c = false -> is_linebreak c = false.
Proof.
  intros H. destruct (is_linebreak c) eqn:E; [|done].
  apply linebreak_is_space in E. congruence.
Qed.

(** A run of white space of the indented text, up to a character that
    is none, is a run of white space of the text. *)
Lemma indent_space_run t : forall bol w' c0 r,
  spaces w' -> py_isspace c0 = false ->
  indent_from prefix bol t = w' ++ c0 :: r ->
  exists w t', t = w ++ c0 :: t' /\ spaces w /\ indent_from prefix false t' = r.
Proof.
  induction t as [|c t IH]; intros bol w' c0 r Hw' Hc0 E.
  - destruct w'; discriminate E.
  - destruct (indent_step bol c t) as (pre & Hpre & _ & Es). rewrite Es in E. clear Es.
    destruct (py_isspace c) eqn:Hc.
    + assert (HX : spaces (pre ++ [c])).
      { apply Forall_app; split; [done|]. by repeat constructor. }
      assert (E' : (pre ++ [c]) ++ indent_from prefix
                (is_linebreak c && negb (eqc c (chr 13) && starts_with [nl] t)) t
              = w' ++ c0 :: r) by (rewrite <- E; by list_norm).
      destruct (run_prefix py_isspace _ _ _ _ _ HX Hc0 E') as [w'' ->].
      rewrite <- !app_assoc in E'. apply app_inv_head in E'.
      simpl in E'. injection E' as E'.
      apply Forall_app in Hw' as [_ Hw''].
      destruct (IH _ _ _ _ Hw'' Hc0 E') as (w & t' & -> & Hw & <-).
      exists (c :: w), t'. split; [done|]. split; [by constructor|done].
    + apply first_stop with (P := py_isspace) in E as (-> & -> & <-); try done.
      rewrite (not_space_not_break _ Hc0). cbn [andb].
      exists [], t. split; [done|]. split; [constructor|done].
Qed.

Lemma indent_close_reflect t : forall bol,
  close ∈ indent_from prefix bol t -> close ∈ t.
Proof.
  induction t as [|c t IH]; intros bol H; [done|].
  destruct (indent_step bol c t) as (pre & Hpre & _ & Es). rewrite Es in H. clear Es.
  apply elem_of_app in H as [H|H].
  { exfalso. by apply (close_not_free pre); [apply spaces_close_free|]. }
  apply elem_of_cons in H as [->|H]; [by left|]. right. by apply (IH _ H).
Qed.

Lemma indent_default_reflect t :
  is_Some (match_default (indent_from prefix false t)) -> is_Some (match_default t).
Proof.
  intros [[d' r'] H]. apply match_default_spec in H as [D E].
  destruct t as [|c t]; [by destruct d'|].
  destruct (indent_step false c t) as (pre & _ & Hpre & Es).
  rewrite Es, (Hpre eq_refl) in E. clear Es Hpre pre. cbn [app] in E.
  destruct D as [-> | (x & y & -> & Hxy)]; cbn [app] in E.
  - injection E as -> _. by eexists.
  - injection E as -> E.
    change (is_linebreak comma) with false in E. cbn [andb] in E.
    apply Forall_cons in Hxy as [Hx _].
    destruct t as [|c1 t]; [discriminate E|].
    assert (Hc : close ∈ c1 :: t).
    { apply (indent_close_reflect _ false). rewrite E. right.
      apply elem_of_app. right. by left. }
    destruct (indent_step false c1 t) as (pre1 & _ & Hpre1 & Es).
    rewrite Es, (Hpre1 eq_refl) in E. clear Es Hpre1. cbn [app] in E.
    injection E as -> _.
    destruct (split_at_close _ Hc) as (l & r & El & Hl).
    destruct l as [|x0 l]; simpl in El.
    { injection El as -> _. discriminate Hx. }
    rewrite El. exists (comma :: x0 :: l, r). apply match_default_spec.
    split; [|done]. right. by exists x0, l.
Qed.

Variable f : text.
Hypothesis Hf : plain f.

(** The indentation creates no match of [f]. *)
Lemma indent_reflects_match t : forall bol a' q q2 w1' w2' s',
  is_quote q = true -> is_quote q2 = true -> spaces w1' -> spaces w2' ->
  is_Some (match_default s') ->
  indent_from prefix bol t = a' ++ head_raw f q q2 w1' w2' ++ s' -> raw_in f t.
Proof.
  induction t as [|c t IH]; intros bol a' q q2 w1' w2' s' Q Q2 W1 W2 Hs' E.
  { rewrite head_raw_tail in E. destruct a'; discriminate E. }
  destruct (indent_step bol c t) as (pre & Hpre & _ & Es). rewrite Es in E. clear Es.
  rewrite head_raw_cons in E. symmetry in E.
  apply skip_block in E as (a'' & -> & E); [|by apply spaces_quote_free|done].
  apply skip_char in E as [(-> & <- & E)|(a3 & -> & E)].
  - rewrite (quote_not_break _ Q) in E. cbn [andb] in E. symmetry in E.
    assert (E1 : indent_from prefix false t
                 = (f ++ [q]) ++ w1' ++ colon
                     :: (w2' ++ lookup_call ++ q2 :: f ++ q2 :: s'))
      by (rewrite E; by list_norm).
    clear E.
    apply indent_unrun in E1 as (t2 & -> & E).
    2:{ apply Forall_app; split; [by apply plain_breaks_free|].
        repeat constructor. by apply quote_not_break. }
    apply indent_space_run in E as (w1 & t3 & -> & Hw1 & E); [|done..].
    change (w2' ++ lookup_call ++ q2 :: f ++ q2 :: s')
      with (w2' ++ chr 112 :: (T "arameters.get(" ++ q2 :: f ++ q2 :: s')) in E.
    apply indent_space_run in E as (w2 & t4 & -> & Hw2 & E); [|done..].
    assert (E1 : indent_from prefix false t4
                 = (T "arameters.get(" ++ q2 :: f ++ [q2]) ++ s')
      by (rewrite E; by list_norm).
    clear E.
    apply indent_unrun in E1 as (t5 & -> & E).
    2:{ apply Forall_app; split; [repeat constructor|].
        apply Forall_cons; split; [by apply quote_not_break|].
        apply Forall_app; split; [by apply plain_breaks_free|].
        repeat constructor. by apply quote_not_break. }
    exists [], q, q2, w1, w2, t5. split.
    { rewrite head_raw_cons. unfold lookup_call. by list_norm. }
    repeat split; try done.
    apply indent_default_reflect. by rewrite E.
  - symmetry in E. rewrite <- head_raw_cons in E. apply (raw_in_app_l f [c]).
    by apply (IH _ a3 q q2 w1' w2' s' Q Q2 W1 W2 Hs' E).
Qed.

Lemma indent_reflects_raw t : raw_in f (indent t prefix) -> raw_in f t.
Proof.
  intros (a & q & q2 & w1 & w2 & s & E & Q & Q2 & W1 & W2 & D).
  by apply (indent_reflects_match t true a q q2 w1 w2 s).
Qed.

End indented.

(** *** Deciding whether a fragment assigns a field twice in one call *)

(** The pattern of [field] up to the key of the lookup, at the start of
    [s]: the input behind it. *)
Definition match_head (field : text) (s : text) : option text :=
  match s with
  | q :: s1 =>
      if negb (is_quote q) then None else
      match strip_prefix (field ++ [q]) s1 with
      | None => None
      | Some s2 =>
          match snd (span py_isspace s2) with
          | c :: s3 =>
              if negb (eqc c (chr 58)) then None else
              match strip_prefix (T "parameters.get(") (snd (span py_isspace s3)) with
              | Some (q2 :: s4) =>
                  if negb (is_quote q2) then None else strip_prefix (field ++ [q2]) s4
              | _ => None
              end
          | [] => None
          end
      end
  | [] => None
  end.

(** A head of [field] starts in [t] before the first closing
    parenthesis. *)
Fixpoint head_before_close (field t : text) : bool :=
  match match_head field t with
  | Some _ => true
  | None =>
      match t with
      | [] => false
      | c :: t' => not_close_paren c && head_before_close field t'
      end
  end.

(** Somewhere in [t] a head of [field] is followed by another one
    before the first closing parenthesis behind it. *)
Fixpoint assigned_twice (field t : text) : bool :=
  match match_head field t with
  | Some r => head_before_close field r
  | None => false
  end
  || match t with
     | [] => false
     | _ :: t' => assigned_twice field t'
     end.

Lemma head_before_close_unfold field t :
  head_before_close field t
  = match match_head field t with
    | Some _ => true
    | None =>
        match t with
        | [] => false
        | c :: t' => not_close_paren c && head_before_close field t'
        end
    end.
Proof. by destruct t. Qed.

Lemma assigned_twice_unfold field t :
  assigned_twice field t
  = (match match_head field t with
     | Some r => head_before_close field r
     | None => false
     end
     || match t with
        | [] => false
        | _ :: t' => assigned_twice field t'
        end).
Proof. by destruct t. Qed.

Lemma match_head_build f q q2 w1 w2 s :
  is_quote q = true -> is_quote q2 = true -> spaces w1 -> spaces w2 ->
  match_head f (head_raw f q q2 w1 w2 ++ s) = Some s.
Proof.
  intros Q Q2 W1 W2.
  assert (E1 : head_raw f q q2 w1 w2 ++ s
               = q :: (f ++ [q])
                   ++ (w1 ++ colon :: (w2 ++ T "parameters.get("
                          ++ q2 :: (f ++ [q2]) ++ s))).
  { unfold head_raw, lookup_call. by list_norm. }
  rewrite E1. unfold match_head.
  rewrite Q. simpl negb. cbv iota.
  rewrite strip_prefix_app.
  rewrite (span_run py_isspace w1 colon _ W1 colon_not_space). cbn [snd].
  change (eqc colon (chr 58)) with true. simpl negb. cbv iota.
  change (T "parameters.get(" ++ q2 :: (f ++ [q2]) ++ s)
    with (chr 112 :: (T "arameters.get(" ++ q2 :: (f ++ [q2]) ++ s)).
  rewrite (span_run py_isspace w2 (chr 112) _ W2 eq_refl). cbn [snd].
  change (chr 112 :: (T "arameters.get(" ++ q2 :: (f ++ [q2]) ++ s))
    with (T "parameters.get(" ++ q2 :: (f ++ [q2]) ++ s).
  rewrite strip_prefix_app. rewrite Q2. simpl negb. cbv iota.
  by rewrite strip_prefix_app.
Qed.

Lemma head_before_close_finds f x H s :
  close_free x -> is_head f H -> head_before_close f (x ++ H ++ s) = true.
Proof.
  intros Hx (q & q2 & w1 & w2 & -> & Q & Q2 & W1 & W2).
  induction Hx as [|c x Hc Hx IH]; rewrite head_before_close_unfold.
  - rewrite app_nil_l. by rewrite match_head_build.
  - destruct (match_head f ((c :: x) ++ _)); [done|].
    cbn [app]. by rewrite Hc, IH.
Qed.

Lemma assigned_twice_finds f t : twice f t -> assigned_twice f t = true.
Proof.
  intros (a & H1 & x & H2 & s & -> & HH1 & HH2 & Hx).
  induction a as [|c a IH]; rewrite assigned_twice_unfold.
  - destruct HH1 as (q & q2 & w1 & w2 & -> & Q & Q2 & W1 & W2).
    rewrite app_nil_l, match_head_build by done.
    by rewrite head_before_close_finds.
  - cbn [app]. rewrite IH. by rewrite orb_true_r.
Qed.

Lemma raw_matches_somewhere f t : raw_in f t -> matches_somewhere f t = true.
Proof.
  intros (a & q & q2 & w1 & w2 & s & -> & Q & Q2 & W1 & W2 & [[d r] D]).
  apply match_default_spec in D as [D ->].
  induction a as [|c a IH]; rewrite matches_somewhere_unfold.
  - by rewrite app_nil_l, (match_groups_build f q q2 w1 w2 d r).
  - destruct (match_decimal_groups f _); [done|]. cbn [app]. exact IH.
Qed.

Lemma eight_spaces : spaces (T "        ").
Proof. repeat constructor. Qed.

(** The body of the unit holds no match of a numeric field unless the
    stripped fragment assigns the field twice in one call. *)
Lemma body_holds_no_match h field :
  In field numeric_fields ->
  or_pass h = h -> needs_decimal h = true ->
  contains (T "put_item") (strip_imports h) = true ->
  assigned_twice field (strip_imports h) = false ->
  matches_somewhere field (body (wrap_logic h)) = false.
Proof.
  intros Hin Hpass Hdec Hput Htwice.
  destruct (matches_somewhere field (body (wrap_logic h))) eqn:M; [|done].
  apply matches_somewhere_raw in M. unfold wrap_logic in M. cbn [body] in M.
  rewrite Hpass in M.
  apply indent_reflects_raw in M; [|apply eight_spaces|by apply numeric_fields_plain].
  unfold body_of, fix_decimals in M. rewrite Hdec, Hput in M. cbn [andb] in M.
  apply wrap_fields_clears in M;
    [|apply numeric_fields_all_plain|apply numeric_fields_NoDup|done].
  apply assigned_twice_finds in M. congruence.
Qed.

End ScanFacts.

(** ** The code synthesizer *)

Module SynthProps.

Import Regex Synth TextFacts ScanFacts.

Definition quoted (s : string) : text := [dq] ++ T s ++ [dq].

Definition spec_for (tool_name : string) (fragment : text) : LambdaToolSpec unit :=
  {| name := T tool_name; description := tt; input_schema := tt;
     handler_code := fragment |}.

(** The fragment of the spec's example: a store write whose payload
    takes the amount straight from the parameters. *)
Definition record_payment : text :=
  T "table = boto3.resource('dynamodb').Table('payments')" ++ [nl]
  ++ T "table.put_item(Item={" ++ quoted "amount" ++ T ": parameters.get("
  ++ quoted "amount" ++ T ")})" ++ [nl]
  ++ T "return {'ok': True}".

Example record_payment_body :
  body (wrap_logic (strip py_isspace record_payment))
  = T "        table = boto3.resource('dynamodb').Table('payments')" ++ [nl]
    ++ T "        table.put_item(Item={" ++ quoted "amount"
    ++ T ": Decimal(str(parameters.get(" ++ quoted "amount" ++ T ")))})" ++ [nl]
    ++ T "        return {'ok': True}".
Proof. vm_compute. reflexivity. Qed.

Example record_payment_imports :
  imports (wrap_logic (strip py_isspace record_payment))
  = [T "import json"; T "import logging"; T "import boto3";
     T "from decimal import Decimal"].
Proof. vm_compute. reflexivity. Qed.

(** A fragment with two import lines the patterns do not cover. *)
Definition list_home : text :=
  T "import os, sys" ++ [nl]
  ++ T "import json as j" ++ [nl]
  ++ T "import logging" ++ [nl]
  ++ T "from pathlib import Path, PurePath" ++ [nl]
  ++ T "return {'home': os.environ.get('HOME')}".

(** C7 fails on the code: a plain import of several names, or one with
    an alias, is not matched by either pattern and stays in the body of
    the synthesized unit (the single-name import and the from-import
    next to it are removed). *)
Theorem multi_name_import_survives :
  is_complete (strip py_isspace list_home) = false
  /\ body (wrap_logic (strip py_isspace list_home))
     = T "        import os, sys" ++ [nl]
       ++ T "        import json as j" ++ [nl] ++ [nl]
       ++ T "        return {'home': os.environ.get('HOME')}"
  /\ contains (T "import os, sys")
       (_generate_lambda_code (spec_for "list_home" list_home)) = true.
Proof. repeat split; vm_compute; reflexivity. Qed.

(** A default that itself holds an assignment of the recognised shape:
    the outer assignment is the match, the inner one is copied with the
    default. *)
Definition nested_default : text :=
  T "table.put_item(Item={'amount': parameters.get('amount', "
  ++ T "{'amount': parameters.get('amount')})})".

(** A numeric field filled from a parameter of another name. *)
Definition other_key : text :=
  T "table.put_item(Item={'amount': parameters.get('total_due')})".

(** C1 as stated fails twice.  The pattern asks for the same key on both
    sides, so a numeric field assigned from the lookup of another key is
    left as it is and nothing is wrapped.  And the scan rewrites the
    leftmost assignment and copies its default part unchanged, so an
    assignment nested in the default stays in the output as a raw,
    unwrapped lookup. *)
Lemma lookup_left_unwrapped :
  (is_complete (strip py_isspace other_key) = false
   /\ body (wrap_logic (strip py_isspace other_key))
      = T "        table.put_item(Item={'amount': parameters.get('total_due')})"
   /\ contains (T "Decimal(str(")
        (_generate_lambda_code (spec_for "pay" other_key)) = false)
  /\ (is_complete (strip py_isspace nested_default) = false
      /\ body (wrap_logic (strip py_isspace nested_default))
         = T "        table.put_item(Item={'amount': Decimal(str(parameters.get('amount', "
           ++ T "{'amount': parameters.get('amount')))})})"
      /\ contains (T "'amount': parameters.get('amount')")
           (_generate_lambda_code (spec_for "pay" nested_default)) = true).
Proof. repeat split; vm_compute; reflexivity. Qed.

(** A payload with two numeric fields, one of them with a default. *)
Definition record_order : text :=
  T "table.put_item(Item={'id': parameters.get('id'), "
  ++ T "'amount': parameters.get('amount'), "
  ++ T "'price' : parameters.get(" ++ quoted "price" ++ T ", 0)})".

Example record_order_body :
  body (wrap_logic (strip py_isspace record_order))
  = T "        table.put_item(Item={'id': parameters.get('id'), "
    ++ T "'amount': Decimal(str(parameters.get('amount'))), "
    ++ T "'price': Decimal(str(parameters.get(" ++ quoted "price" ++ T ", 0)))})".
Proof. vm_compute. reflexivity. Qed.

Example nested_default_assigned_twice :
  assigned_twice (T "amount") (strip_imports (strip py_isspace nested_default)) = true.
Proof. vm_compute. reflexivity. Qed.

(** C1, amended: for a fragment that is not a complete handler and
    that holds [put_item] before and after the import lines are
    stripped, whenever the pattern of a recognized numeric field matches
    somewhere in the stripped fragment (the field, in quotes, assigned
    from [parameters.get] of the same key, with or without a default),
    the synthesized source holds that field assigned from
    [Decimal(str(parameters.get(] of the same key; and unless the
    stripped fragment starts a second such assignment of the field
    before the first closing parenthesis behind an earlier one, the
    body of the synthesized unit (the fragment as rewritten and
    indented, which the source is rendered around) holds no place where
    the pattern of the field still matches. *)
Theorem numeric_lookup_is_wrapped {meta} (tool_spec : LambdaToolSpec meta) (field : text) :
  In field numeric_fields ->
  is_complete (strip py_isspace (handler_code tool_spec)) = false ->
  contains (T "put_item") (strip py_isspace (handler_code tool_spec)) = true ->
  contains (T "put_item") (strip_imports (strip py_isspace (handler_code tool_spec))) = true ->
  matches_somewhere field (strip_imports (strip py_isspace (handler_code tool_spec))) = true ->
  (exists q q2,
     is_quote q = true /\ is_quote q2 = true
     /\ contains (head_wrapped field q q2) (_generate_lambda_code tool_spec) = true)
  /\ _generate_lambda_code tool_spec
     = render (name tool_spec) (wrap_logic (strip py_isspace (handler_code tool_spec)))
  /\ (assigned_twice field (strip_imports (strip py_isspace (handler_code tool_spec))) = false ->
      matches_somewhere field
        (body (wrap_logic (strip py_isspace (handler_code tool_spec)))) = false).
Proof.
  set (h := strip py_isspace (handler_code tool_spec)).
  intros Hin Hlogic Hput Hput' Hmatch.
  assert (Hfield : plain field) by (by apply numeric_fields_plain).
  assert (Hpass : or_pass h = h) by (by apply or_pass_keeps, contains_spec).
  assert (Hdec : needs_decimal h = true).
  { unfold needs_decimal. rewrite Hput. by rewrite orb_true_r. }
  assert (Hcode : _generate_lambda_code tool_spec = render (name tool_spec) (wrap_logic h)).
  { unfold _generate_lambda_code. fold h. by rewrite Hlogic. }
  split; [|split; [done|by apply body_holds_no_match]].
  destruct (wrap_fields_wraps numeric_fields field (strip_imports h))
    as (q & q2 & Q & Q2 & Hocc).
  { apply numeric_fields_all_plain. }
  { apply numeric_fields_NoDup. }
  { done. }
  { by apply matches_somewhere_raw. }
  exists q, q2. split; [done|]. split; [done|].
  apply contains_spec. rewrite Hcode.
  unfold render, wrap_logic. cbn [imports body]. rewrite Hpass.
  unfold body_of, fix_decimals. rewrite Hdec, Hput'. cbn [andb].
  apply occurs_app_l, occurs_app_l, occurs_app_r.
  apply indent_keeps; [by apply head_wrapped_breaks_free|done].
Qed.

Lemma numeric_lookup_is_wrapped_witness :
  (exists q q2,
     is_quote q = true /\ is_quote q2 = true
     /\ contains (head_wrapped (T "amount") q q2)
          (_generate_lambda_code (spec_for "record_payment" record_payment)) = true)
  /\ matches_somewhere (T "amount")
       (body (wrap_logic (strip py_isspace record_payment))) = false.
Proof.
  destruct (numeric_lookup_is_wrapped (spec_for "record_payment" record_payment) (T "amount"))
    as (Hwrapped & _ & Hraw).
  - simpl. left. reflexivity.
  - vm_compute. reflexivity.
  - vm_compute. reflexivity.
  - vm_compute. reflexivity.
  - vm_compute. reflexivity.
  - split; [exact Hwrapped|]. apply Hraw. vm_compute. reflexivity.
Defined.

End SynthProps.

(** ** The name sanitizers: shape and fixed points *)

Module SanitizeFacts.

Import Sanitize Regex TextFacts.

(** The first character is not in [p]; the last one is not. *)
Definition no_lead (p : ascii -> bool) (s : text) : Prop :=
  match s with
  | [] => True
  | x :: _ => p x = false
  end.

Definition no_trail (p : ascii -> bool) (s : text) : Prop := rstrip p s = s.

(** No two [c] in a row. *)
Definition no_double (c : ascii) (s : text) : Prop := ~ occurs [c; c] s.

Section strips.
Variable p : ascii -> bool.

Lemma lstrip_no_lead s : no_lead p (lstrip p s).
Proof.
  induction s as [|x s IH]; simpl; [done|]. destruct (p x) eqn:E; [done|]. by simpl.
Qed.

Lemma no_lead_lstrip s : no_lead p s -> lstrip p s = s.
Proof. destruct s as [|x s]; simpl; [done|]. by intros ->. Qed.

Lemma lstrip_suffix s : exists a, s = a ++ lstrip p s.
Proof.
  induction s as [|x s [a IH]]; simpl; [by exists []|].
  destruct (p x); [|by exists []]. exists (x :: a). simpl. by rewrite <- IH.
Qed.

Lemma rstrip_cons x s :
  rstrip p (x :: s)
  = match rstrip p s with
    | [] => if p x then [] else [x]
    | r => x :: r
    end.
Proof. reflexivity. Qed.

Lemma rstrip_prefix s : exists b, s = rstrip p s ++ b.
Proof.
  induction s as [|x s [b IH]]; [by exists []|]. rewrite rstrip_cons.
  destruct (rstrip p s) as [|y r].
  - destruct (p x); [by exists (x :: s)|]. exists s. done.
  - exists b. simpl. simpl in IH. by rewrite <- IH.
Qed.

Lemma rstrip_no_trail s : no_trail p (rstrip p s).
Proof.
  unfold no_trail. induction s as [|x s IH]; [done|]. rewrite rstrip_cons.
  destruct (rstrip p s) as [|y r] eqn:R.
  - destruct (p x) eqn:E; [done|]. simpl. by rewrite E.
  - rewrite rstrip_cons, IH. done.
Qed.

Lemma rstrip_no_lead s : no_lead p s -> no_lead p (rstrip p s).
Proof.
  destruct s as [|x s]; [done|]. simpl. intros E.
  destruct (rstrip p s); [by rewrite E|done].
Qed.

Lemma rstrip_nonempty x s : p x = false -> rstrip p (x :: s) <> [].
Proof. intros E. rewrite rstrip_cons. destruct (rstrip p s); [by rewrite E|done]. Qed.

Lemma strip_no_lead s : no_lead p (strip p s).
Proof. apply rstrip_no_lead, lstrip_no_lead. Qed.

Lemma strip_no_trail s : no_trail p (strip p s).
Proof. apply rstrip_no_trail. Qed.

Lemma strip_stable s : no_lead p s -> no_trail p s -> strip p s = s.
Proof. intros H1 H2. unfold strip. by rewrite no_lead_lstrip. Qed.

Lemma strip_keeps_first x s : p x = false -> exists r, strip p (x :: s) = x :: r.
Proof.
  intros Hx. unfold strip. rewrite (no_lead_lstrip (x :: s)) by done.
  rewrite rstrip_cons. destruct (rstrip p s); [rewrite Hx|]; eauto.
Qed.

Lemma firstn_no_lead n s : no_lead p s -> no_lead p (firstn n s).
Proof. destruct s as [|x s], n as [|n]; simpl; done. Qed.

Lemma Forall_lstrip (P : ascii -> Prop) s : Forall P s -> Forall P (lstrip p s).
Proof.
  intros H. destruct (lstrip_suffix s) as [a E]. rewrite E in H.
  by apply Forall_app in H as [_ H].
Qed.

Lemma Forall_rstrip (P : ascii -> Prop) s : Forall P s -> Forall P (rstrip p s).
Proof.
  intros H. destruct (rstrip_prefix s) as [b E]. rewrite E in H.
  by apply Forall_app in H as [H _].
Qed.

Lemma Forall_strip (P : ascii -> Prop) s : Forall P s -> Forall P (strip p s).
Proof. intros H. by apply Forall_rstrip, Forall_lstrip. Qed.

Lemma rstrip_length s : length (rstrip p s) <= length s.
Proof.
  destruct (rstrip_prefix s) as [b E]. rewrite E at 2. rewrite length_app. lia.
Qed.

(** *** The length cap *)

Lemma truncate_length n s : length (truncate p n s) <= n.
Proof.
  unfold truncate, slice_to. destruct (n <? length s) eqn:E.
  - etransitivity; [apply rstrip_length|]. rewrite length_firstn. lia.
  - apply Nat.ltb_ge in E. done.
Qed.

Lemma truncate_stable n s : length s <= n -> truncate p n s = s.
Proof. intros H. unfold truncate. apply Nat.ltb_ge in H. by rewrite H. Qed.

Lemma truncate_prefix n s : exists b, s = truncate p n s ++ b.
Proof.
  unfold truncate, slice_to. destruct (n <? length s).
  - destruct (rstrip_prefix (firstn n s)) as [b E]. exists (b ++ skipn n s).
    rewrite app_assoc, <- E. by rewrite firstn_skipn.
  - exists []. by rewrite app_nil_r.
Qed.

Lemma Forall_truncate (P : ascii -> Prop) n s : Forall P s -> Forall P (truncate p n s).
Proof.
  intros H. destruct (truncate_prefix n s) as [b E]. rewrite E in H.
  by apply Forall_app in H as [H _].
Qed.

Lemma truncate_no_lead n s : no_lead p s -> no_lead p (truncate p n s).
Proof.
  intros H. unfold truncate, slice_to. destruct (n <? length s); [|done].
  by apply rstrip_no_lead, firstn_no_lead.
Qed.

Lemma truncate_no_trail n s : no_trail p s -> no_trail p (truncate p n s).
Proof.
  intros H. unfold truncate. destruct (n <? length s); [|done]. apply rstrip_no_trail.
Qed.

Lemma truncate_first n x s :
  0 < n -> p x = false -> exists r, truncate p n (x :: s) = x :: r.
Proof.
  intros Hn Hx. unfold truncate, slice_to. destruct (n <? length (x :: s)); [|eauto].
  destruct n as [|n]; [lia|]. simpl firstn. rewrite rstrip_cons.
  destruct (rstrip p (firstn n s)); [rewrite Hx|]; eauto.
Qed.

End strips.

(** *** Runs of the separator *)

Lemma collapse_cons c x s :
  collapse c (x :: s)
  = match s with
    | y :: _ => if eqc x c && eqc y c then collapse c s else x :: collapse c s
    | [] => [x]
    end.
Proof. reflexivity. Qed.

Lemma collapse_first c x s : exists r, collapse c (x :: s) = x :: r.
Proof.
  revert x. induction s as [|y s IH]; intros x; [by exists []|].
  rewrite collapse_cons. destruct (eqc x c && eqc y c) eqn:E; [|eauto].
  apply andb_true_iff in E as [E1 E2]. apply eqc_eq in E1, E2. subst.
  apply IH.
Qed.

Lemma Forall_collapse (P : ascii -> Prop) c s : Forall P s -> Forall P (collapse c s).
Proof.
  induction s as [|x s IH]; [done|]. intros H. apply Forall_cons in H as [Hx Hs].
  rewrite collapse_cons. destruct s as [|y s]; [by constructor|].
  destruct (eqc x c && eqc y c); [by apply IH|]. constructor; [done|by apply IH].
Qed.

Lemma no_double_cons c x s : no_double c (x :: s) -> no_double c s.
Proof. intros H O. apply H. by apply (occurs_app_l _ [x]). Qed.

Lemma no_double_head c s : no_double c (c :: c :: s) -> False.
Proof. intros H. apply H. by exists [], s. Qed.

Lemma no_double_build c x s :
  no_double c s -> (x = c -> no_lead (fun y => eqc y c) s) -> no_double c (x :: s).
Proof.
  intros H Hx (a & b & E). destruct a as [|z a]; simpl in E.
  - injection E as -> ->. specialize (Hx eq_refl). simpl in Hx.
    by rewrite eqc_refl in Hx.
  - injection E as -> ->. apply H. by exists a, b.
Qed.

Lemma collapse_no_double c s : no_double c (collapse c s).
Proof.
  induction s as [|x s IH]; [by intros ([|??] & ? & ?)|].
  rewrite collapse_cons. destruct s as [|y s].
  { intros ([|? [|??]] & ? & ?); discriminate. }
  destruct (eqc x c && eqc y c) eqn:E; [done|].
  apply no_double_build; [done|]. intros ->. rewrite eqc_refl in E. simpl in E.
  destruct (collapse_first c y s) as [r ->]. simpl. done.
Qed.

Lemma collapse_stable c s : no_double c s -> collapse c s = s.
Proof.
  induction s as [|x s IH]; [done|]. intros H. rewrite collapse_cons.
  destruct s as [|y s]; [done|].
  destruct (eqc x c && eqc y c) eqn:E.
  - apply andb_true_iff in E as [E1 E2]. apply eqc_eq in E1, E2. subst.
    by apply no_double_head in H.
  - f_equal. apply IH. by apply no_double_cons in H.
Qed.

Lemma no_double_prefix c s b : no_double c (s ++ b) -> no_double c s.
Proof. intros H O. apply H. by apply occurs_app_r. Qed.

Lemma no_double_suffix c a s : no_double c (a ++ s) -> no_double c s.
Proof. intros H O. apply H. by apply occurs_app_l. Qed.

Lemma no_double_lstrip p c s : no_double c s -> no_double c (lstrip p s).
Proof.
  intros H. destruct (lstrip_suffix p s) as [a E]. rewrite E in H.
  by apply no_double_suffix in H.
Qed.

Lemma no_double_rstrip p c s : no_double c s -> no_double c (rstrip p s).
Proof.
  intros H. destruct (rstrip_prefix p s) as [b E]. rewrite E in H.
  by apply no_double_prefix in H.
Qed.

Lemma no_double_strip p c s : no_double c s -> no_double c (strip p s).
Proof. intros H. by apply no_double_rstrip, no_double_lstrip. Qed.

Lemma no_double_truncate p c n s : no_double c s -> no_double c (truncate p n s).
Proof.
  intros H. destruct (truncate_prefix p n s) as [b E]. rewrite E in H.
  by apply no_double_prefix in H.
Qed.

Lemma no_double_contains c s : no_double c s <-> contains [c; c] s = false.
Proof.
  unfold no_double. rewrite <- contains_spec. by destruct (contains [c; c] s).
Qed.


Lemma rstrip_app_stable p a s : no_trail p s -> s <> [] -> no_trail p (a ++ s).
Proof.
  unfold no_trail. intros H Hne. induction a as [|x a IH]; [done|].
  simpl app. rewrite rstrip_cons, IH. destruct (a ++ s) eqn:E; [|done].
  by apply app_eq_nil in E as [_ ->].
Qed.

Lemma no_double_app c a s :
  no_double c a -> no_double c s -> no_lead (fun y => eqc y c) s -> no_double c (a ++ s).
Proof.
  intros Ha Hs Hl. induction a as [|x a IH]; [done|]. simpl.
  apply no_double_build.
  - apply IH. by apply no_double_cons in Ha.
  - intros ->. destruct a as [|y a]; [done|]. simpl.
    destruct (eqc y c) eqn:E; [|done]. apply eqc_eq in E as ->.
    by apply no_double_head in Ha.
Qed.

(** *** The character classes *)

Definition name_char (sep : ascii) (c : ascii) : bool := is_ascii_alnum c || eqc c sep.

Definition lower_name_char (sep : ascii) (c : ascii) : bool :=
  is_lower c || is_digit c || eqc c sep.

Lemma alnum_cases c :
  is_ascii_alnum c = true ->
  py_isalnum c = true /\ is_hyphen c = false /\ is_underscore c = false
  /\ (py_isalpha c = true -> is_ascii_alpha c = true).
Proof. destruct c as [[] [] [] [] [] [] [] []]; vm_compute; intuition congruence. Qed.

Lemma alpha_cases c :
  is_ascii_alpha c = true ->
  py_isalpha c = true /\ is_ascii_alnum c = true.
Proof. destruct c as [[] [] [] [] [] [] [] []]; vm_compute; intuition congruence. Qed.

Lemma lower_cases c :
  is_lower c = true ->
  py_isalpha c = true /\ is_ascii_alpha c = true /\ is_hyphen c = false
  /\ is_underscore c = false /\ lower_char c = c.
Proof. destruct c as [[] [] [] [] [] [] [] []]; vm_compute; intuition congruence. Qed.

Lemma digit_cases c :
  is_digit c = true ->
  py_isalpha c = false /\ is_hyphen c = false /\ is_underscore c = false
  /\ is_ascii_alnum c = true /\ is_lower (lower_char c) = false /\ lower_char c = c.
Proof. destruct c as [[] [] [] [] [] [] [] []]; vm_compute; intuition congruence. Qed.

Lemma lower_name_alpha sep c :
  lower_name_char sep c = true -> py_isalpha c = true ->
  sep = hyphen \/ sep = underscore -> is_lower c = true.
Proof.
  unfold lower_name_char. intros H A S.
  destruct (is_lower c) eqn:L; [done|]. simpl in H.
  destruct (is_digit c) eqn:D.
  { apply digit_cases in D as (D & _). congruence. }
  simpl in H. apply eqc_eq in H. subst c. destruct S as [-> | ->]; discriminate A.
Qed.

Section shapes.
Variable sep : ascii.
Hypothesis Hsep : sep = hyphen \/ sep = underscore.

Let is_sep (c : ascii) : bool := eqc c sep.

Lemma sep_not_alnum : is_ascii_alnum sep = false.
Proof. by destruct Hsep as [-> | ->]. Qed.

Lemma sub_name_chars x :
  Forall (fun c => name_char sep c = true)
    (sub_not_in_class (fun c => is_ascii_alnum c || is_sep c) sep x).
Proof.
  unfold sub_not_in_class. apply Forall_map, Forall_forall. intros c _.
  unfold name_char, is_sep. destruct (is_ascii_alnum c || eqc c sep) eqn:E; [done|].
  by rewrite eqc_refl, orb_true_r.
Qed.

Lemma sub_alnum_chars x :
  Forall (fun c => name_char sep c = true) (sub_not_in_class is_ascii_alnum sep x).
Proof.
  unfold sub_not_in_class. apply Forall_map, Forall_forall. intros c _.
  unfold name_char. destruct (is_ascii_alnum c) eqn:E; [by rewrite E|].
  by rewrite eqc_refl, orb_true_r.
Qed.

Lemma sub_name_stable y :
  Forall (fun c => name_char sep c = true) y ->
  sub_not_in_class (fun c => is_ascii_alnum c || is_sep c) sep y = y.
Proof.
  unfold sub_not_in_class, name_char, is_sep. induction 1 as [|c y Hc Hy IH]; [done|].
  simpl. by rewrite Hc, IH.
Qed.

Lemma sub_alnum_stable y :
  Forall (fun c => name_char sep c = true) y -> sub_not_in_class is_ascii_alnum sep y = y.
Proof.
  unfold sub_not_in_class, name_char. induction 1 as [|c y Hc Hy IH]; [done|].
  simpl. rewrite IH. destruct (is_ascii_alnum c); [done|].
  simpl in Hc. apply eqc_eq in Hc. by subst.
Qed.

(** A name in the class that does not start with the separator starts
    with a letter or a digit. *)
Lemma first_alnum c r :
  Forall (fun c => name_char sep c = true) (c :: r) -> no_lead is_sep (c :: r) ->
  is_ascii_alnum c = true.
Proof.
  intros H L. apply Forall_cons in H as [H _]. simpl in L. unfold is_sep in L.
  unfold name_char in H. rewrite L in H. by rewrite orb_false_r in H.
Qed.

(** What strip, the cap and the fallback leave of a collapsed text. *)
Record tidy (n : nat) (y : text) : Prop := {
  tidy_chars : Forall (fun c => name_char sep c = true) y;
  tidy_first : first_is is_ascii_alnum y = true;
  tidy_trail : no_trail is_sep y;
  tidy_double : no_double sep y;
  tidy_length : length y <= n
}.

Lemma tidy_no_lead n y : tidy n y -> no_lead is_sep y.
Proof.
  intros [_ F _ _ _]. destruct y as [|c y]; [done|]. simpl in *.
  apply alnum_cases in F as (_ & F1 & F2 & _).
  unfold is_sep. by destruct Hsep as [-> | ->].
Qed.

Lemma tidy_nonempty n y : tidy n y -> y <> [].
Proof. intros [_ F _ _ _] ->. discriminate F. Qed.

Lemma tidy_truncate n s :
  0 < n -> s <> [] ->
  Forall (fun c => name_char sep c = true) s -> no_lead is_sep s -> no_trail is_sep s ->
  no_double sep s -> tidy n (truncate is_sep n s).
Proof.
  intros Hn Hne Hc Hl Ht Hd. destruct s as [|c r]; [done|].
  pose proof (first_alnum _ _ Hc Hl) as Fc.
  destruct (truncate_first is_sep n c r Hn Hl) as [r' E].
  split.
  - by apply Forall_truncate.
  - by rewrite E.
  - by apply truncate_no_trail.
  - by apply no_double_truncate.
  - apply truncate_length.
Qed.

Lemma tidy_core n x (s := strip is_sep (collapse sep x)) :
  0 < n -> Forall (fun c => name_char sep c = true) x -> s <> [] ->
  tidy n (truncate is_sep n s).
Proof.
  intros Hn Hc Hne. apply tidy_truncate; try done.
  - by apply Forall_strip, Forall_collapse.
  - apply strip_no_lead.
  - apply strip_no_trail.
  - apply no_double_strip, collapse_no_double.
Qed.

Lemma tidy_pipeline_stable n y :
  tidy n y -> truncate is_sep n (strip is_sep (collapse sep y)) = y.
Proof.
  intros Hy. pose proof (tidy_no_lead _ _ Hy) as Hl. destruct Hy as [Hc Hf Ht Hd Hlen].
  rewrite collapse_stable by done. rewrite strip_stable by done.
  by apply truncate_stable.
Qed.

End shapes.

End SanitizeFacts.

Module SanitizeMore.

Import Sanitize Regex TextFacts SanitizeFacts.

(** The shape of a gateway or target name: letters, digits and hyphens,
    a letter or digit first, no hyphen at either end, no two hyphens in
    a row, at most [n] characters. *)
Definition hyphenated_name (n : nat) (y : text) : Prop :=
  Forall (fun c => is_ascii_alnum c || is_hyphen c = true) y
  /\ first_is is_ascii_alnum y = true
  /\ strip is_hyphen y = y
  /\ contains (T "--") y = false
  /\ length y <= n.

(** The shape of a runtime name: letters, digits and underscores, a
    letter first, no underscore at either end, no two underscores in a
    row, at most [n] characters. *)
Definition underscored_name (n : nat) (y : text) : Prop :=
  first_is is_ascii_alpha y = true
  /\ Forall (fun c => is_ascii_alnum c || is_underscore c = true) y
  /\ length y <= n
  /\ strip is_underscore y = y
  /\ contains (T "__") y = false.

Lemma hyphen_sep : hyphen = hyphen \/ hyphen = underscore.
Proof. by left. Qed.

Lemma underscore_sep : underscore = hyphen \/ underscore = underscore.
Proof. by right. Qed.

Lemma forallb_all (f : ascii -> bool) l :
  forallb f l = true -> Forall (fun c => f c = true) l.
Proof.
  induction l as [|c l IH]; simpl; [constructor|]. intros H.
  apply andb_true_iff in H as [H1 H2]. constructor; auto.
Qed.

Lemma tidy_literal sep n (l : text) :
  forallb (name_char sep) l = true -> first_is is_ascii_alnum l = true ->
  rstrip (fun c => eqc c sep) l = l -> contains [sep; sep] l = false -> length l <= n ->
  tidy sep n l.
Proof.
  intros H1 H2 H3 H4 H5. split; try done.
  - by apply forallb_all.
  - by apply no_double_contains.
Qed.

(** *** [sanitize_gateway_target_name] and [sanitize_gateway_name] *)

Definition hyphenated (x : text) : text :=
  strip is_hyphen
    (collapse hyphen (sub_not_in_class (fun c => is_ascii_alnum c || is_hyphen c) hyphen x)).

Lemma target_unfold x n :
  sanitize_gateway_target_name x n
  = or_default (T "tool") (truncate is_hyphen n (hyphenated x)).
Proof. reflexivity. Qed.

Lemma hyphenated_tidy x n : 0 < n -> hyphenated x <> [] ->
  tidy hyphen n (truncate is_hyphen n (hyphenated x)).
Proof.
  intros Hn Hne. apply (tidy_core hyphen); try done.
  apply (sub_name_chars hyphen).
Qed.

Lemma or_default_tidy sep n d s :
  (s = [] -> tidy sep n d) -> (s <> [] -> tidy sep n s) -> tidy sep n (or_default d s).
Proof. destruct s; simpl; intros H1 H2; [by apply H1|by apply H2]. Qed.

Lemma truncate_nil p n : truncate p n [] = [].
Proof. by rewrite truncate_stable by (simpl; lia). Qed.

Lemma target_tidy x n : 4 <= n -> tidy hyphen n (sanitize_gateway_target_name x n).
Proof.
  intros Hn. rewrite target_unfold.
  destruct (hyphenated x) as [|c r] eqn:E.
  - rewrite truncate_nil. simpl. by apply tidy_literal.
  - pose proof (hyphenated_tidy x n ltac:(lia)) as H. rewrite E in H.
    specialize (H ltac:(done)).
    pose proof (tidy_nonempty _ _ _ H) as Hne.
    by destruct (truncate is_hyphen n (c :: r)).
Qed.

Lemma target_fixed n y : tidy hyphen n y -> sanitize_gateway_target_name y n = y.
Proof.
  intros Hy. rewrite target_unfold. unfold hyphenated.
  rewrite (sub_name_stable hyphen) by apply Hy.
  unfold is_hyphen. rewrite (tidy_pipeline_stable hyphen hyphen_sep n y Hy).
  pose proof (tidy_nonempty _ _ _ Hy). by destruct y.
Qed.

Lemma tidy_hyphenated n y : tidy hyphen n y -> hyphenated_name n y.
Proof.
  intros H. pose proof (tidy_no_lead _ hyphen_sep _ _ H) as Hl.
  destruct H as [H1 H2 H3 H4 H5]. repeat split; try done.
  - by apply strip_stable.
  - by apply (no_double_contains hyphen).
Qed.

Lemma target_shape x n :
  4 <= n -> hyphenated_name n (sanitize_gateway_target_name x n).
Proof. intros Hn. by apply tidy_hyphenated, target_tidy. Qed.

(** X1: [sanitize_gateway_target_name] returns a name of the class the
    gateway asks for: letters, digits and single hyphens, a letter or
    digit first and last, at most [max_length] characters; and it
    leaves such a name as it is. *)
Theorem sanitize_gateway_target_name_sound x n :
  4 <= n ->
  hyphenated_name n (sanitize_gateway_target_name x n)
  /\ sanitize_gateway_target_name (sanitize_gateway_target_name x n) n
     = sanitize_gateway_target_name x n.
Proof.
  intros Hn. split; [by apply target_shape|]. by apply target_fixed, target_tidy.
Qed.

Lemma gateway_unfold x n :
  sanitize_gateway_name x n
  = or_default (T "gateway") (truncate is_hyphen n (hyphenated x)).
Proof.
  unfold sanitize_gateway_name. fold (hyphenated x).
  destruct (hyphenated x) as [|c r] eqn:E; [done|].
  assert (Fc : is_ascii_alnum c = true).
  { apply (first_alnum hyphen c r).
    - rewrite <- E. apply Forall_strip, Forall_collapse, (sub_name_chars hyphen).
    - rewrite <- E. apply strip_no_lead. }
  apply alnum_cases in Fc as (Fc & _). by rewrite Fc.
Qed.

Lemma gateway_tidy x n : 7 <= n -> tidy hyphen n (sanitize_gateway_name x n).
Proof.
  intros Hn. rewrite gateway_unfold.
  destruct (hyphenated x) as [|c r] eqn:E.
  - rewrite truncate_nil. simpl. by apply tidy_literal.
  - pose proof (hyphenated_tidy x n ltac:(lia)) as H. rewrite E in H.
    specialize (H ltac:(done)).
    pose proof (tidy_nonempty _ _ _ H) as Hne.
    by destruct (truncate is_hyphen n (c :: r)).
Qed.

Lemma gateway_shape x n :
  7 <= n -> hyphenated_name n (sanitize_gateway_name x n).
Proof. intros Hn. by apply tidy_hyphenated, gateway_tidy. Qed.

Lemma gateway_stable x n :
  7 <= n ->
  sanitize_gateway_name (sanitize_gateway_name x n) n = sanitize_gateway_name x n.
Proof.
  intros Hn. pose proof (gateway_tidy x n Hn) as Hy.
  set (y := sanitize_gateway_name x n) in *.
  rewrite gateway_unfold. unfold hyphenated.
  rewrite (sub_name_stable hyphen) by apply Hy.
  unfold is_hyphen. rewrite (tidy_pipeline_stable hyphen hyphen_sep n y Hy).
  pose proof (tidy_nonempty _ _ _ Hy). by destruct y.
Qed.

(** X2: The [gw-] prefix of [sanitize_gateway_name] is never added: what
    is left after the strip starts with a letter or a digit, so the
    function is [sanitize_gateway_target_name] with another fallback. *)
Theorem sanitize_gateway_name_never_prefixed x n :
  sanitize_gateway_name x n
  = or_default (T "gateway")
      (truncate is_hyphen n
         (strip is_hyphen
            (collapse hyphen
               (sub_not_in_class (fun c => is_ascii_alnum c || is_hyphen c) hyphen x)))).
Proof. apply gateway_unfold. Qed.

(** X3: [sanitize_gateway_name] returns letters, digits and single
    hyphens, a letter or digit first and last, at most [max_length]
    characters; and it leaves such a name as it is. *)
Theorem sanitize_gateway_name_sound x n :
  7 <= n ->
  hyphenated_name n (sanitize_gateway_name x n)
  /\ sanitize_gateway_name (sanitize_gateway_name x n) n = sanitize_gateway_name x n.
Proof. intros Hn. split; [by apply gateway_shape|by apply gateway_stable]. Qed.

(** *** [sanitize_runtime_name] *)

Definition underscored (x : text) : text :=
  strip is_underscore (collapse underscore (sub_not_in_class is_ascii_alnum underscore x)).

Definition letter_first (s : text) : text :=
  match s with
  | c :: _ => if py_isalpha c then s else T "agent_" ++ s
  | [] => s
  end.

Lemma runtime_unfold x n :
  sanitize_runtime_name x n
  = or_default (T "agent") (truncate is_underscore n (letter_first (underscored x))).
Proof. reflexivity. Qed.

Lemma underscored_facts x (s := underscored x) :
  Forall (fun c => name_char underscore c = true) s
  /\ no_lead is_underscore s /\ no_trail is_underscore s /\ no_double underscore s.
Proof.
  repeat split.
  - apply Forall_strip, Forall_collapse, sub_alnum_chars.
  - apply strip_no_lead.
  - apply strip_no_trail.
  - apply no_double_strip, collapse_no_double.
Qed.

Lemma tidy_first_alpha sep n c r :
  tidy sep n (c :: r) -> is_ascii_alpha c = true -> first_is is_ascii_alpha (c :: r) = true.
Proof. done. Qed.

Lemma runtime_tidy x n :
  5 <= n ->
  tidy underscore n (sanitize_runtime_name x n)
  /\ first_is is_ascii_alpha (sanitize_runtime_name x n) = true.
Proof.
  intros Hn. rewrite runtime_unfold.
  destruct (underscored_facts x) as (Hc & Hl & Ht & Hd).
  destruct (underscored x) as [|c r] eqn:E.
  { simpl letter_first. rewrite truncate_nil. simpl. split; [by apply tidy_literal|done]. }
  pose proof (first_alnum underscore c r Hc Hl) as Fc.
  change (letter_first (c :: r))
    with (if py_isalpha c then c :: r else T "agent_" ++ c :: r).
  destruct (py_isalpha c) eqn:A.
  - apply alnum_cases in Fc as (_ & _ & _ & Fa). specialize (Fa A).
    assert (H : tidy underscore n (truncate is_underscore n (c :: r)))
      by (by apply tidy_truncate; [lia|..]).
    destruct (truncate_first is_underscore n c r ltac:(lia) Hl) as [r' E'].
    rewrite E' in *. simpl. done.
  - assert (H : tidy underscore n (truncate is_underscore n (T "agent_" ++ c :: r))).
    { apply tidy_truncate; [lia|done|..].
      - apply Forall_app; split; [by apply forallb_all|done].
      - done.
      - by apply rstrip_app_stable.
      - apply no_double_app; [by apply no_double_contains|done|done]. }
    assert (Ex : exists r', truncate is_underscore n (T "agent_" ++ c :: r) = chr 97 :: r')
      by (by apply (truncate_first is_underscore n (chr 97)); [lia|]).
    destruct Ex as [r' E']. rewrite E' in *. simpl. done.
Qed.

Lemma runtime_shape x n :
  5 <= n -> underscored_name n (sanitize_runtime_name x n).
Proof.
  intros Hn. destruct (runtime_tidy x n Hn) as [H F].
  pose proof (tidy_no_lead _ underscore_sep _ _ H) as Hl.
  destruct H as [H1 H2 H3 H4 H5]. repeat split; try done.
  - by apply strip_stable.
  - by apply (no_double_contains underscore).
Qed.

Lemma runtime_stable x n :
  5 <= n ->
  sanitize_runtime_name (sanitize_runtime_name x n) n = sanitize_runtime_name x n.
Proof.
  intros Hn. destruct (runtime_tidy x n Hn) as [Hy F].
  set (y := sanitize_runtime_name x n) in *.
  pose proof (tidy_no_lead _ underscore_sep _ _ Hy) as Hl.
  rewrite runtime_unfold. unfold underscored.
  rewrite (sub_alnum_stable underscore) by apply Hy.
  rewrite collapse_stable by apply Hy.
  rewrite strip_stable by (done || apply Hy).
  destruct y as [|c r]; [done|]. simpl in F.
  apply alpha_cases in F as (F & _). simpl letter_first. rewrite F.
  rewrite truncate_stable by apply Hy. done.
Qed.

(** X4: [sanitize_runtime_name] returns a name of the pattern
    [[a-zA-Z][a-zA-Z0-9_]*] of at most [max_length] characters, without
    a doubled or a final underscore; and it leaves such a name as it
    is. *)
Theorem sanitize_runtime_name_sound x n :
  5 <= n ->
  underscored_name n (sanitize_runtime_name x n)
  /\ sanitize_runtime_name (sanitize_runtime_name x n) n = sanitize_runtime_name x n.
Proof. intros Hn. split; [by apply runtime_shape|by apply runtime_stable]. Qed.

(** *** [sanitize_aws_name] and [sanitize_memory_name] *)

Section lowered.
Variable sep : ascii.
Hypothesis Hsep : sep = hyphen \/ sep = underscore.
Variable other : ascii.
Variable fallback : text.

(** The two sanitizers that lower the name, up to the separator, the
    second character they replace by it and the fallback. *)
Definition lowered (x : text) : text :=
  collapse sep
    (remove_not_in_class (fun c => is_lower c || is_digit c || eqc c sep)
       (replace_char other sep (replace_char space sep (lower x)))).

Definition prefixed (s : text) : text :=
  match s with
  | c :: _ => if py_isalpha c then s else chr 97 :: sep :: s
  | [] => s
  end.

Definition sanitize_lowered (x : text) (n : nat) : text :=
  or_default fallback
    (truncate (fun c => eqc c sep) n (strip (fun c => eqc c sep) (prefixed (lowered x)))).

Lemma lowered_chars x : Forall (fun c => lower_name_char sep c = true) (lowered x).
Proof.
  apply Forall_collapse. unfold remove_not_in_class.
  apply Forall_forall. intros c Hc. by apply list_elem_of_filter in Hc as [Hc _].
Qed.

(** What the strip leaves: empty, or a text that starts with a
    lower-case letter. *)
Lemma stripped_shape x (s := strip (fun c => eqc c sep) (prefixed (lowered x))) :
  Forall (fun c => lower_name_char sep c = true) s
  /\ no_trail (fun c => eqc c sep) s
  /\ (s = [] \/ exists c r, s = c :: r /\ is_lower c = true).
Proof.
  pose proof (lowered_chars x) as Hc. subst s.
  destruct (lowered x) as [|c r] eqn:E; simpl prefixed.
  { split; [constructor|]. split; [done|]. by left. }
  assert (La : is_lower (chr 97) = true) by done.
  assert (Na : eqc (chr 97) sep = false) by (by destruct Hsep as [-> | ->]).
  destruct (py_isalpha c) eqn:A.
  - apply Forall_cons in Hc as Hc'. destruct Hc' as [Hc1 _].
    pose proof (lower_name_alpha sep c Hc1 A Hsep) as Lc.
    assert (Nc : eqc c sep = false).
    { apply lower_cases in Lc as (_ & _ & L1 & L2 & _).
      by destruct Hsep as [-> | ->]. }
    split; [by apply Forall_strip|]. split; [apply strip_no_trail|].
    right. destruct (strip_keeps_first (fun c => eqc c sep) c r Nc) as [r' ->]. eauto.
  - split.
    { apply Forall_strip. constructor; [done|]. constructor; [|done].
      unfold lower_name_char. by rewrite eqc_refl, orb_true_r. }
    split; [apply strip_no_trail|].
    right.
    destruct (strip_keeps_first (fun c => eqc c sep) (chr 97) (sep :: c :: r) Na)
      as [r' ->].
    eauto.
Qed.

Lemma lowered_shape x n :
  0 < n ->
  forallb (lower_name_char sep) fallback = true ->
  first_is is_lower fallback = true ->
  rstrip (fun c => eqc c sep) fallback = fallback ->
  length fallback <= n ->
  let y := sanitize_lowered x n in
  first_is is_lower y = true
  /\ Forall (fun c => lower_name_char sep c = true) y
  /\ rstrip (fun c => eqc c sep) y = y
  /\ length y <= n.
Proof.
  intros Hn F1 F2 F3 F4 y. subst y. unfold sanitize_lowered.
  destruct (stripped_shape x) as (Hc & Ht & Hs).
  destruct Hs as [-> | (c & r & Es & Lc)].
  { rewrite truncate_nil. simpl. repeat split; try done. by apply forallb_all. }
  rewrite Es in *.
  assert (Nc : eqc c sep = false).
  { apply lower_cases in Lc as (_ & _ & L1 & L2 & _). by destruct Hsep as [-> | ->]. }
  destruct (truncate_first (fun c => eqc c sep) n c r Hn Nc) as [r' E].
  pose proof (Forall_truncate (fun c => eqc c sep) _ n _ Hc) as Hc'.
  pose proof (truncate_no_trail (fun c => eqc c sep) n _ Ht) as Ht'.
  pose proof (truncate_length (fun c => eqc c sep) n (c :: r)) as Hlen.
  rewrite E in *. done.
Qed.

End lowered.

Lemma aws_unfold x n :
  sanitize_aws_name x n = sanitize_lowered hyphen underscore (T "agent") x n.
Proof. reflexivity. Qed.

Lemma memory_unfold x n :
  sanitize_memory_name x n = sanitize_lowered underscore hyphen (T "agent_memory") x n.
Proof. reflexivity. Qed.

Lemma aws_shape x n :
  5 <= n ->
  let y := sanitize_aws_name x n in
  first_is is_lower y = true
  /\ Forall (fun c => is_lower c || is_digit c || is_hyphen c = true) y
  /\ rstrip is_hyphen y = y
  /\ length y <= n.
Proof.
  intros Hn. rewrite aws_unfold.
  by apply (lowered_shape hyphen hyphen_sep underscore (T "agent") x n); [lia|..].
Qed.

(** X5: [sanitize_aws_name] returns a lower-case letter followed by
    lower-case letters, digits and hyphens, not ending in a hyphen, of
    at most [max_length] characters. *)
Theorem sanitize_aws_name_well_formed x n :
  5 <= n ->
  let y := sanitize_aws_name x n in
  first_is is_lower y = true
  /\ Forall (fun c => is_lower c || is_digit c || is_hyphen c = true) y
  /\ rstrip is_hyphen y = y
  /\ length y <= n.
Proof. apply aws_shape. Qed.

(** X6: [sanitize_memory_name] returns a name of the pattern
    [[a-z][a-z0-9_]*], not ending in an underscore, of at most
    [max_length] characters. *)
Theorem sanitize_memory_name_well_formed x n :
  12 <= n ->
  let y := sanitize_memory_name x n in
  first_is is_lower y = true
  /\ Forall (fun c => is_lower c || is_digit c || is_underscore c = true) y
  /\ rstrip is_underscore y = y
  /\ length y <= n.
Proof.
  intros Hn. rewrite memory_unfold.
  by apply (lowered_shape underscore underscore_sep hyphen (T "agent_memory") x n); [lia|..].
Qed.

(** *** Examples *)

Lemma sanitize_gateway_target_name_sound_witness :
  4 <= 100
  /\ hyphenated_name 100 (sanitize_gateway_target_name (T "Search Tickets!") 100)
  /\ sanitize_gateway_target_name
       (sanitize_gateway_target_name (T "Search Tickets!") 100) 100
     = sanitize_gateway_target_name (T "Search Tickets!") 100.
Proof.
  split; [lia|]. apply (sanitize_gateway_target_name_sound (T "Search Tickets!") 100). lia.
Defined.

Lemma sanitize_gateway_name_sound_witness :
  7 <= 48
  /\ hyphenated_name 48 (sanitize_gateway_name (T "__order tools__") 48)
  /\ sanitize_gateway_name (sanitize_gateway_name (T "__order tools__") 48) 48
     = sanitize_gateway_name (T "__order tools__") 48.
Proof.
  split; [lia|]. apply (sanitize_gateway_name_sound (T "__order tools__") 48). lia.
Defined.

Lemma sanitize_runtime_name_sound_witness :
  5 <= 48
  /\ underscored_name 48 (sanitize_runtime_name (T "42 order-bot") 48)
  /\ sanitize_runtime_name (sanitize_runtime_name (T "42 order-bot") 48) 48
     = sanitize_runtime_name (T "42 order-bot") 48.
Proof.
  split; [lia|]. apply (sanitize_runtime_name_sound (T "42 order-bot") 48). lia.
Defined.

Lemma sanitize_aws_name_well_formed_witness :
  5 <= 63
  /\ (let y := sanitize_aws_name (T "My Agent_2") 63 in
      first_is is_lower y = true
      /\ Forall (fun c => is_lower c || is_digit c || is_hyphen c = true) y
      /\ rstrip is_hyphen y = y
      /\ length y <= 63).
Proof.
  split; [lia|]. apply (sanitize_aws_name_well_formed (T "My Agent_2") 63). lia.
Defined.

Lemma sanitize_memory_name_well_formed_witness :
  12 <= 48
  /\ (let y := sanitize_memory_name (T "My Agent-2") 48 in
      first_is is_lower y = true
      /\ Forall (fun c => is_lower c || is_digit c || is_underscore c = true) y
      /\ rstrip is_underscore y = y
      /\ length y <= 48).
Proof.
  split; [lia|]. apply (sanitize_memory_name_well_formed (T "My Agent-2") 48). lia.
Defined.

End SanitizeMore.


(** ** The validators and the sanitizer they go with *)

Module ValidateProps.

Import Sanitize Regex Validate TextFacts SanitizeFacts SanitizeMore.

Lemma no_trail_last p y :
  no_trail p y <-> match last y with Some z => p z = false | None => True end.
Proof.
  unfold no_trail. induction y as [|x s IH]; [done|]. rewrite rstrip_cons.
  destruct s as [|y' s'].
  - simpl. destruct (p x); split; congruence.
  - change (last (x :: y' :: s')) with (last (y' :: s')). rewrite <- IH.
    destruct (rstrip p (y' :: s')) as [|a l] eqn:R.
    + destruct (p x); split; congruence.
    + split; congruence.
Qed.

Lemma class_cases c :
  is_ascii_alnum c || is_hyphen c = true ->
  lower_name_char hyphen (lower_char c) = true
  /\ eqc (lower_char c) space = false
  /\ eqc (lower_char c) underscore = false
  /\ (py_isalpha c = true -> py_isalpha (lower_char c) = true
                             /\ eqc (lower_char c) hyphen = false)
  /\ (eqc c hyphen = false -> eqc (lower_char c) hyphen = false)
  /\ (is_ascii_alnum c = true -> eqc (lower_char c) hyphen = false).
Proof. destruct c as [[] [] [] [] [] [] [] []]; vm_compute; intuition congruence. Qed.

Lemma lower_name_class c :
  lower_name_char hyphen c = true -> is_ascii_alnum c || is_hyphen c = true.
Proof. destruct c as [[] [] [] [] [] [] [] []]; vm_compute; intuition congruence. Qed.

Lemma remove_cons keep c s :
  remove_not_in_class keep (c :: s)
  = if keep c then c :: remove_not_in_class keep s else remove_not_in_class keep s.
Proof.
  unfold remove_not_in_class, text. rewrite filter_cons.
  destruct (decide (keep c = true)) as [E|E]; [by rewrite E|].
  by destruct (keep c).
Qed.

Lemma remove_all keep l :
  Forall (fun c => keep c = true) l -> remove_not_in_class keep l = l.
Proof.
  induction 1 as [|c l Hc Hl IH]; [done|]. by rewrite remove_cons, Hc, IH.
Qed.

(** *** A sanitized name before the validator *)

Lemma aws_accepted_or_doubled x n :
  5 <= n ->
  validate_agent_name (sanitize_aws_name x n) 1 n
  = if contains (T "--") (sanitize_aws_name x n) then inl NameConsecutiveHyphens
    else inr tt.
Proof.
  intros Hn.
  destruct (aws_shape x n Hn) as (F & Hc & Ht & Hlen).
  destruct (sanitize_aws_name x n) as [|c r] eqn:E; [discriminate F|].
  simpl in F. unfold validate_agent_name.
  assert (L1 : (length (c :: r) <? 1) = false) by (apply Nat.ltb_ge; simpl; lia).
  assert (L2 : (n <? length (c :: r)) = false) by (by apply Nat.ltb_ge).
  rewrite L1, L2. apply lower_cases in F as (F & _). rewrite F. cbn [negb].
  assert (L3 : ends_with hyphen (c :: r) = false).
  { unfold ends_with. apply (no_trail_last is_hyphen) in Ht.
    destruct (last (c :: r)); [exact Ht|done]. }
  rewrite L3.
  assert (L4 : matches_name_pattern (c :: r) = true).
  { unfold matches_name_pattern. rewrite span_run_end; [done|].
    eapply Forall_impl; [exact Hc|]. intros a Ha. by apply lower_name_class. }
  rewrite L4. done.
Qed.

Lemma aws_no_double x n :
  first_is is_ascii_alnum x = true -> no_double hyphen (sanitize_aws_name x n).
Proof.
  intros Fx. rewrite aws_unfold. unfold sanitize_lowered.
  assert (Hd : no_double hyphen (prefixed hyphen (lowered hyphen underscore x))).
  { destruct x as [|c0 x']; [discriminate Fx|]. simpl in Fx.
    assert (Hcls : is_ascii_alnum c0 || is_hyphen c0 = true) by (by rewrite Fx).
    destruct (class_cases c0 Hcls) as (C1 & C2 & C3 & _ & _ & C6).
    specialize (C6 Fx).
    assert (E : exists r1, lowered hyphen underscore (c0 :: x') = lower_char c0 :: r1).
    { unfold lowered, lower, replace_char. cbn [map].
      rewrite C2, C3, remove_cons. unfold lower_name_char in C1. rewrite C1.
      apply collapse_first. }
    destruct E as [r1 E].
    pose proof (collapse_no_double hyphen
      (remove_not_in_class (fun c => is_lower c || is_digit c || eqc c hyphen)
         (replace_char underscore hyphen (replace_char space hyphen (lower (c0 :: x'))))))
      as Hl.
    fold (lowered hyphen underscore (c0 :: x')) in Hl. rewrite E in *.
    unfold prefixed. destruct (py_isalpha (lower_char c0)); [done|].
    apply no_double_build; [|done].
    apply no_double_build; [done|]. intros _. exact C6. }
  destruct (truncate _ n (strip _ _)) as [|c r] eqn:E.
  - simpl. by apply no_double_contains.
  - simpl. rewrite <- E. by apply no_double_truncate, no_double_strip.
Qed.

(** X7: The only thing [validate_agent_name] can hold against a name that
    [sanitize_aws_name] returns is a doubled hyphen; and a name that
    starts with an ASCII letter or digit is sanitized into a name that
    the validator accepts. *)
Theorem sanitized_name_validates x n :
  5 <= n ->
  validate_agent_name (sanitize_aws_name x n) 1 n
  = (if contains (T "--") (sanitize_aws_name x n) then inl NameConsecutiveHyphens
     else inr tt)
  /\ (first_is is_ascii_alnum x = true ->
      validate_agent_name (sanitize_aws_name x n) 1 n = inr tt).
Proof.
  intros Hn. split; [by apply aws_accepted_or_doubled|].
  intros Fx. rewrite aws_accepted_or_doubled by done.
  pose proof (aws_no_double x n Fx) as Hd.
  apply no_double_contains in Hd. change (T "--") with [hyphen; hyphen]. by rewrite Hd.
Qed.

(** *** A validated name before the sanitizer *)

Lemma lower_length s : length (lower s) = length s.
Proof. apply length_map. Qed.

Lemma lower_replaced s :
  Forall (fun c => is_ascii_alnum c || is_hyphen c = true) s ->
  replace_char underscore hyphen (replace_char space hyphen (lower s)) = lower s
  /\ Forall (fun c => lower_name_char hyphen c = true) (lower s).
Proof.
  induction 1 as [|c s Hc Hs [IH1 IH2]]; [by split|].
  destruct (class_cases c Hc) as (C1 & C2 & C3 & _).
  unfold lower, replace_char in *. cbn [map]. rewrite C2, C3. split.
  - f_equal. exact IH1.
  - by constructor.
Qed.

Lemma lower_no_double s :
  Forall (fun c => is_ascii_alnum c || is_hyphen c = true) s ->
  no_double hyphen s -> no_double hyphen (lower s).
Proof.
  induction 1 as [|c s Hc Hs IH]; intros Hd; [done|].
  unfold lower. cbn [map]. apply no_double_build.
  - apply IH. by apply no_double_cons in Hd.
  - intros E. destruct s as [|y s]; [done|]. cbn [map no_lead].
    apply Forall_cons in Hs as [Hy _].
    destruct (class_cases c Hc) as (_ & _ & _ & _ & C5 & _).
    destruct (class_cases y Hy) as (_ & _ & _ & _ & D5 & _).
    destruct (eqc c hyphen) eqn:Ec.
    2:{ specialize (C5 eq_refl). apply eqc_neq in C5. by destruct C5. }
    apply eqc_eq in Ec. subst c.
    destruct (eqc y hyphen) eqn:Ey; [|by apply D5].
    apply eqc_eq in Ey. subst y. by apply no_double_head in Hd.
Qed.

Lemma lower_last s : last (lower s) = lower_char <$> last s.
Proof. unfold lower. apply fmap_last. Qed.

(** X8: On a name that [validate_agent_name] accepts and that holds no
    newline, [sanitize_aws_name] only lowers the letters. *)
Theorem validated_name_is_only_lowered name m n :
  validate_agent_name name m n = inr tt -> nl ∉ name ->
  sanitize_aws_name name n = lower name.
Proof.
  unfold validate_agent_name. destruct name as [|c r]; [discriminate|].
  destruct (length (c :: r) <? m); [discriminate|].
  destruct (n <? length (c :: r)) eqn:L2; [discriminate|]. apply Nat.ltb_ge in L2.
  destruct (py_isalpha c) eqn:A; [|discriminate]. cbn [negb].
  destruct (ends_with hyphen (c :: r)) eqn:L3; [discriminate|].
  destruct (matches_name_pattern (c :: r)) eqn:L4; [|discriminate]. cbn [negb].
  destruct (contains (T "--") (c :: r)) eqn:L5; [discriminate|].
  intros _ Hnl.
  assert (Hcls : Forall (fun c => is_ascii_alnum c || is_hyphen c = true) (c :: r)).
  { unfold matches_name_pattern in L4.
    pose proof (span_app (fun c => is_ascii_alnum c || is_hyphen c) (c :: r)) as Ea.
    pose proof (span_all (fun c => is_ascii_alnum c || is_hyphen c) (c :: r)) as Eb.
    destruct (span _ (c :: r)) as [body rest]. simpl in Ea, Eb.
    destruct body as [|b body]; [discriminate|].
    destruct rest as [|x [|??]]; [| |discriminate].
    - rewrite app_nil_r in Ea. by rewrite <- Ea.
    - apply eqc_eq in L4. subst x. exfalso. apply Hnl. rewrite <- Ea.
      apply elem_of_app. right. by left. }
  assert (Hd : no_double hyphen (c :: r)) by (by apply no_double_contains).
  destruct (lower_replaced _ Hcls) as [R1 R2].
  pose proof (lower_no_double _ Hcls Hd) as R3.
  apply Forall_cons in Hcls as Hc. destruct Hc as [Hc _].
  destruct (class_cases c Hc) as (_ & _ & _ & C4 & _). destruct (C4 A) as [C4a C4b].
  rewrite aws_unfold. unfold sanitize_lowered, lowered.
  rewrite R1. rewrite remove_all by exact R2.
  rewrite collapse_stable by done.
  change (lower (c :: r)) with (lower_char c :: lower r) in *.
  unfold prefixed. rewrite C4a.
  rewrite strip_stable; [| exact C4b |].
  2:{ apply no_trail_last. change (lower_char c :: lower r) with (lower (c :: r)).
      rewrite lower_last. unfold ends_with in L3.
      destruct (last (c :: r)) as [z|] eqn:Lz; [|done]. simpl.
      assert (Hz : is_ascii_alnum z || is_hyphen z = true).
      { rewrite Forall_forall in Hcls. apply Hcls. by apply last_Some_elem_of. }
      destruct (class_cases z Hz) as (_ & _ & _ & _ & Z5 & _). by apply Z5. }
  rewrite truncate_stable; [done|].
  change (lower_char c :: lower r) with (lower (c :: r)). by rewrite lower_length.
Qed.

(** *** The length of a prompt is measured without its margins *)

Definition spaces_only (w : text) : Prop := Forall (fun c => py_isspace c = true) w.

Lemma lstrip_spaces p w s : Forall (fun c => p c = true) w -> lstrip p (w ++ s) = lstrip p s.
Proof. induction 1 as [|c w Hc Hw IH]; [done|]. simpl. by rewrite Hc. Qed.

Lemma rstrip_spaces p s w : Forall (fun c => p c = true) w -> rstrip p (s ++ w) = rstrip p s.
Proof.
  intros Hw. induction s as [|x s IH].
  - simpl. induction Hw as [|c w Hc Hw IHw]; [done|].
    rewrite rstrip_cons, IHw. by rewrite Hc.
  - simpl app. by rewrite !rstrip_cons, IH.
Qed.

Lemma lstrip_app_keep p s w : lstrip p s <> [] -> lstrip p (s ++ w) = lstrip p s ++ w.
Proof.
  induction s as [|x s IH]; [done|]. simpl. destruct (p x); [exact IH|done].
Qed.

Lemma lstrip_all_spaces p s : lstrip p s = [] -> Forall (fun c => p c = true) s.
Proof.
  induction s as [|x s IH]; [constructor|]. simpl. destruct (p x) eqn:E; [|done].
  intros H. constructor; auto.
Qed.

Lemma lstrip_of_spaces p s : Forall (fun c => p c = true) s -> lstrip p s = [].
Proof. induction 1 as [|c s Hc Hs IH]; [done|]. simpl. by rewrite Hc. Qed.

Lemma strip_margins p w1 s w2 :
  Forall (fun c => p c = true) w1 -> Forall (fun c => p c = true) w2 ->
  strip p (w1 ++ s ++ w2) = strip p s.
Proof.
  intros H1 H2. unfold strip. rewrite lstrip_spaces by done.
  destruct (lstrip p s) as [|x l] eqn:E.
  - apply lstrip_all_spaces in E.
    rewrite lstrip_of_spaces; [done|]. apply Forall_app. by split.
  - rewrite lstrip_app_keep by (by rewrite E). rewrite E. by apply rstrip_spaces.
Qed.

(** X9: White space around a prompt that is not empty changes nothing to
    what [validate_system_prompt] answers: the bounds are on the
    stripped length. *)
Theorem prompt_margins_are_ignored prompt w1 w2 m n :
  prompt <> [] -> spaces_only w1 -> spaces_only w2 ->
  validate_system_prompt (w1 ++ prompt ++ w2) m n = validate_system_prompt prompt m n.
Proof.
  intros Hne H1 H2. unfold validate_system_prompt.
  rewrite strip_margins by done.
  destruct prompt as [|c r]; [done|].
  destruct (w1 ++ (c :: r) ++ w2) eqn:E; [|done].
  apply app_eq_nil in E as [_ E]. discriminate E.
Qed.

(** *** Examples *)

Lemma sanitized_name_validates_witness :
  5 <= 63
  /\ first_is is_ascii_alnum (T "Order Bot") = true
  /\ validate_agent_name (sanitize_aws_name (T "Order Bot") 63) 1 63 = inr tt.
Proof.
  split; [lia|]. split; [reflexivity|].
  apply (sanitized_name_validates (T "Order Bot") 63); [lia|reflexivity].
Defined.

Lemma validated_name_is_only_lowered_witness :
  validate_agent_name (T "Order-Bot") 1 63 = inr tt
  /\ sanitize_aws_name (T "Order-Bot") 63 = lower (T "Order-Bot").
Proof.
  split; [reflexivity|].
  apply (validated_name_is_only_lowered (T "Order-Bot") 1 63); [reflexivity|].
  vm_compute. intros H. repeat (apply elem_of_cons in H as [H|H]; [discriminate H|]).
  by apply elem_of_nil in H.
Defined.

Lemma prompt_margins_are_ignored_witness :
  validate_system_prompt (T "  " ++ T "You are a helpful agent." ++ [nl]) 10 500
  = validate_system_prompt (T "You are a helpful agent.") 10 500.
Proof.
  apply (prompt_margins_are_ignored (T "You are a helpful agent.") (T "  ") [nl] 10 500).
  - discriminate.
  - repeat constructor.
  - repeat constructor.
Defined.

End ValidateProps.

(** ** The schemas [validate_tool_schema] accepts *)

Module SchemaProps.

Import Cloud Schema.

(** A property schema the validator lets through: an object whose
    [type] is one of the seven type names. *)
Definition typed_property (p : json) : Prop :=
  exists o t, p = JObject o /\ o !! "type" = Some (JString t) /\ t ∈ valid_types.

(** An entry of [required] the validator lets through: the name of a
    property. *)
Definition names_property (properties : gmap string json) (r : json) : Prop :=
  exists name, r = JString name /\ is_Some (properties !! name).

Definition well_formed_schema (schema : json) : Prop :=
  exists d properties,
    schema = JObject d
    /\ d !! "type" = Some (JString "object")
    /\ d !! "properties" = Some (JObject properties)
    /\ properties <> ∅
    /\ (forall k p, properties !! k = Some p -> typed_property p)
    /\ match d !! "required" with
       | None => True
       | Some (JArray required) => Forall (names_property properties) required
       | Some _ => False
       end.

Lemma valid_property_spec p : valid_property p = true <-> typed_property p.
Proof.
  unfold valid_property, typed_property. split.
  - destruct p as [| | | | |o]; try done.
    destruct (o !! "type") as [[| | |t| |]|] eqn:E; try done.
    intros H. exists o, t. split; [done|]. split; [done|].
    apply existsb_exists in H as (x & Hx & Ex). apply String.eqb_eq in Ex as ->.
    by apply list_elem_of_In.
  - intros (o & t & -> & -> & Ht). apply existsb_exists. exists t.
    split; [by apply list_elem_of_In|apply String.eqb_refl].
Qed.

Lemma properties_checked (properties : gmap string json) :
  forallb valid_property (map_to_list properties).*2 = true
  <-> forall k p, properties !! k = Some p -> typed_property p.
Proof.
  rewrite forallb_forall. split.
  - intros H k p Hkp. apply valid_property_spec, H, list_elem_of_In.
    apply list_elem_of_fmap. exists (k, p). split; [done|].
    by apply elem_of_map_to_list.
  - intros H p Hp. apply list_elem_of_In, list_elem_of_fmap in Hp as ([k p'] & -> & Hkp).
    apply elem_of_map_to_list in Hkp. apply valid_property_spec. by eapply H.
Qed.

Lemma check_required_spec properties required :
  check_required properties required = inr tt
  <-> Forall (names_property properties) required.
Proof.
  induction required as [|r required IH]; simpl.
  - split; [constructor|done].
  - split.
    + destruct r as [| | |name| |]; try done.
      destruct (properties !! name) eqn:E; [|done].
      intros H. constructor; [|by apply IH]. exists name. by rewrite E.
    + intros H. apply Forall_cons in H as [(name & -> & [v Hv]) H].
      rewrite Hv. by apply IH.
Qed.

(** The first character of [s] is tested against the one of the
    constant; any other character answers at once. *)
Ltac peel s :=
  destruct s as [|[[] [] [] [] [] [] [] []] s]; try done.

Lemma type_must_be_object {A} (s : string) (yes no : A) :
  match s with
  | "object"%string => yes
  | _ => no
  end = if String.eqb s "object" then yes else no.
Proof. do 6 (peel s). by destruct s. Qed.

(** X10: [validate_tool_schema] returns exactly on the schemas that are
    objects of type [object] with a map of properties that is not
    empty, every property an object with one of the seven type names,
    and [required], when present, a list of names of properties. *)
Theorem validate_tool_schema_accepts schema :
  validate_tool_schema schema = inr tt <-> well_formed_schema schema.
Proof.
  unfold well_formed_schema. split.
  - destruct schema as [| | | | |d]; try done. simpl.
    destruct (d !! "type") as [[| | |t| |]|] eqn:Et; try done.
    rewrite (type_must_be_object t).
    destruct (String.eqb t "object") eqn:Eo; [|done].
    apply String.eqb_eq in Eo as ->.
    destruct (d !! "properties") as [[| | | | |properties]|] eqn:Ep; try done.
    destruct (decide (properties = ∅)) as [|Hne]; [done|].
    destruct (forallb valid_property _) eqn:Ef; [|done]. simpl.
    intros H. exists d, properties. repeat (split; [done|]).
    split; [by apply properties_checked|].
    destruct (d !! "required") as [[| | | |required|]|]; try done.
    by apply check_required_spec.
  - intros (d & properties & -> & Et & Ep & Hne & Hp & Hr). simpl.
    rewrite Et, Ep. simpl.
    destruct (decide (properties = ∅)); [done|].
    apply properties_checked in Hp. rewrite Hp. simpl.
    destruct (d !! "required") as [[| | | |required|]|]; try done.
    by apply check_required_spec.
Qed.

End SchemaProps.


(** ** The connection store *)

Module A2AStoreProps.

Import A2A A2AUrls A2AProps.

Section facts.
Variable urlparse : string -> option (string * string).
Variable get_agent : string -> option AgentRecord.

(** What the constructor and the URL check let through. *)
Definition valid_connection (agent : string) (c : A2AConnection) : Prop :=
  source_agent_id c = agent
  /\ is_blank (source_agent_id c) = false
  /\ is_blank (target_agent_id c) = false
  /\ is_blank (target_agent_name c) = false
  /\ validate_a2a_url urlparse (target_a2a_url c) = inr tt.

(** Every stored connection is valid and filed under its source. *)
Definition well_formed (st : connections) : Prop :=
  forall agent c, c ∈ get_connections st agent -> valid_connection agent c.

(** No source has two connections to one target. *)
Definition one_per_target (st : connections) : Prop :=
  forall agent, NoDup (map target_agent_id (get_connections st agent)).

(** The state [add_connection] leaves is the state it found or that
    state with one connection stored, and then the connection is
    valid. *)
Lemma add_connection_state st source target url :
  snd (add_connection urlparse get_agent st source target url) = st
  \/ exists c,
       snd (add_connection urlparse get_agent st source target url) = store st c
       /\ valid_connection source c /\ target_agent_id c = target
       /\ target_a2a_url c = url.
Proof.
  unfold add_connection.
  destruct (validate_a2a_url urlparse url) as [msg|[]] eqn:V; [by left|].
  destruct (get_agent target) as [rec|]; [|by left].
  unfold new_connection.
  destruct (is_empty source || is_blank source) eqn:S; [by left|].
  destruct (is_empty target || is_blank target) eqn:Tg; [by left|].
  destruct (_validate_a2a_url urlparse url); [by left|].
  destruct (is_empty (agent_name rec) || is_blank (agent_name rec)) eqn:N; [by left|].
  apply orb_false_iff in S as [_ S]. apply orb_false_iff in Tg as [_ Tg].
  apply orb_false_iff in N as [_ N].
  right. eexists. split.
  { destruct (_update_agent_environment _ _ _); reflexivity. }
  done.
Qed.

Lemma elem_of_others target l (c : A2AConnection) :
  c ∈ others target l -> c ∈ l /\ targets target c = false.
Proof. unfold others. intros H. by apply list_elem_of_filter in H as [? ?]. Qed.

Lemma store_well_formed st c :
  well_formed st -> valid_connection (source_agent_id c) c -> well_formed (store st c).
Proof.
  intros Hst Hc agent x Hx.
  destruct (decide (agent = source_agent_id c)) as [->|Hne].
  - rewrite store_source in Hx. apply elem_of_app in Hx as [Hx|Hx].
    + apply elem_of_others in Hx as [Hx _]. by apply Hst.
    + apply list_elem_of_singleton in Hx. by subst.
  - rewrite store_other in Hx by done. by apply Hst.
Qed.

(** X11: Every connection in the store has passed the checks of
    [add_connection]: it is filed under its own source, its ids and its
    target name are not blank and its URL passes [validate_a2a_url]. *)
Theorem add_connection_keeps_store_valid st source target url :
  well_formed st ->
  well_formed (snd (add_connection urlparse get_agent st source target url)).
Proof.
  intros Hst.
  destruct (add_connection_state st source target url) as [-> | (c & -> & Hc & _)];
    [done|].
  apply store_well_formed; [done|]. destruct Hc as (E & ?). by rewrite E.
Qed.

Lemma others_targets target l :
  target ∉ map target_agent_id (others target l).
Proof.
  intros H. apply list_elem_of_fmap in H as (c & E & Hc).
  apply elem_of_others in Hc as [_ Hc]. unfold targets in Hc.
  rewrite <- E, String.eqb_refl in Hc. discriminate.
Qed.

Lemma others_NoDup target l :
  NoDup (map target_agent_id l) -> NoDup (map target_agent_id (others target l)).
Proof.
  unfold others. induction l as [|c l IH]; [done|].
  cbn [map]. intros H. apply NoDup_cons in H as [Hc Hl].
  rewrite filter_cons. case_decide as E; [|by apply IH].
  cbn [map]. apply NoDup_cons. split; [|by apply IH].
  intros Hin. apply Hc. apply list_elem_of_fmap in Hin as (x & Ex & Hx).
  apply list_elem_of_filter in Hx as [_ Hx]. apply list_elem_of_fmap. eauto.
Qed.

Lemma store_one_per_target st c : one_per_target st -> one_per_target (store st c).
Proof.
  intros Hst agent.
  destruct (decide (agent = source_agent_id c)) as [->|Hne].
  - rewrite store_source, map_app. apply NoDup_app. split; [by apply others_NoDup|].
    split; [|apply NoDup_singleton].
    intros t Ht Hc. apply list_elem_of_singleton in Hc. subst t.
    by apply others_targets in Ht.
  - rewrite store_other by done. apply Hst.
Qed.

(** X12: A source never has two connections to the same target. *)
Theorem add_connection_keeps_one_per_target st source target url :
  one_per_target st ->
  one_per_target (snd (add_connection urlparse get_agent st source target url)).
Proof.
  intros Hst.
  destruct (add_connection_state st source target url) as [-> | (c & -> & _)]; [done|].
  by apply store_one_per_target.
Qed.

(** X13: The connections of the other agents are never touched, whatever
    the outcome. *)
Theorem add_connection_keeps_other_sources st source target url agent :
  agent <> source ->
  get_connections (snd (add_connection urlparse get_agent st source target url)) agent
  = get_connections st agent.
Proof.
  intros Hne.
  destruct (add_connection_state st source target url)
    as [-> | (c & -> & (E & _) & _)]; [done|].
  apply store_other. by rewrite E.
Qed.

(** X14: With a source that the registry knows, a call that raises leaves
    the store as it was. *)
Theorem add_connection_error_keeps_store st source target url e st' (src : AgentRecord) :
  get_agent source = Some src ->
  add_connection urlparse get_agent st source target url = (inl e, st') ->
  st' = st.
Proof.
  intros Hsrc. unfold add_connection.
  destruct (validate_a2a_url urlparse url) as [msg|[]]; [by intros [= _ <-]|].
  destruct (get_agent target) as [rec|]; [|by intros [= _ <-]].
  destruct (new_connection urlparse source target url (agent_name rec)) as [e'|c] eqn:N;
    [by intros [= _ <-]|].
  unfold _update_agent_environment. rewrite Hsrc.
  destruct (get_connections _ source); discriminate.
Qed.

(** X15: After a call that returns, the URLs known to the source are those
    of its connections to the other targets, in their old order,
    followed by the new URL. *)
Theorem known_urls_after_add st source target url c st' :
  add_connection urlparse get_agent st source target url = (inr c, st') ->
  _get_known_agent_urls st' source
  = map target_a2a_url (others target (get_connections st source)) ++ [url].
Proof.
  intros H. apply add_connection_returns in H as (<- & <- & <- & ->).
  unfold _get_known_agent_urls. by rewrite store_source, map_app.
Qed.

End facts.

(** *** Examples *)

Definition registry : string -> option AgentRecord :=
  registry_with [support_agent; builder_agent].

Definition support_url : string := "https://support.amazonaws.com/a2a".

Lemma add_connection_keeps_store_valid_witness :
  well_formed example_urlparse
    (snd (add_connection example_urlparse registry ∅
            "builder-agent-abc" "support-agent-xyz" support_url)).
Proof.
  apply (add_connection_keeps_store_valid example_urlparse registry ∅
           "builder-agent-abc" "support-agent-xyz" support_url).
  intros agent c Hc. vm_compute in Hc. by apply elem_of_nil in Hc.
Defined.

Lemma add_connection_keeps_one_per_target_witness :
  one_per_target
    (snd (add_connection example_urlparse registry ∅
            "builder-agent-abc" "support-agent-xyz" support_url)).
Proof.
  apply (add_connection_keeps_one_per_target example_urlparse registry ∅
           "builder-agent-abc" "support-agent-xyz" support_url).
  intros agent. vm_compute. constructor.
Defined.

Lemma add_connection_keeps_other_sources_witness :
  get_connections
    (snd (add_connection example_urlparse registry
            (store ∅ (link "support-agent-xyz" support_url))
            "builder-agent-abc" "support-agent-xyz" support_url))
    "support-agent-xyz"
  = get_connections (store ∅ (link "support-agent-xyz" support_url)) "support-agent-xyz".
Proof.
  apply (add_connection_keeps_other_sources example_urlparse registry
           (store ∅ (link "support-agent-xyz" support_url))
           "builder-agent-abc" "support-agent-xyz" support_url "support-agent-xyz").
  discriminate.
Defined.

Lemma add_connection_error_keeps_store_witness :
  registry "builder-agent-abc" = Some builder_agent
  /\ snd (add_connection example_urlparse registry
            (store ∅ (link "builder-agent-abc" support_url))
            "builder-agent-abc" "unknown-agent" support_url)
     = store ∅ (link "builder-agent-abc" support_url).
Proof.
  split; [reflexivity|].
  apply (add_connection_error_keeps_store example_urlparse registry
           (store ∅ (link "builder-agent-abc" support_url))
           "builder-agent-abc" "unknown-agent" support_url
           (A2AConnectionError "Target agent not found in registry: unknown-agent")
           _ builder_agent); reflexivity.
Defined.

Lemma known_urls_after_add_witness :
  _get_known_agent_urls
    (store ∅ (link "builder-agent-abc" support_url)) "builder-agent-abc"
  = map target_a2a_url
      (others "support-agent-xyz" (get_connections ∅ "builder-agent-abc"))
    ++ [support_url].
Proof.
  apply (known_urls_after_add example_urlparse registry ∅
           "builder-agent-abc" "support-agent-xyz" support_url
           (link "builder-agent-abc" support_url)).
  reflexivity.
Defined.

End A2AStoreProps.


(** ** The session trackers *)

Module SessionProps.

Import Cloud Gateway Deploy GatewayProps.

Ltac split_matches :=
  repeat match goal with
  | H : context [match ?x with _ => _ end] |- _ => destruct x eqn:?; simpl in H
  | H : context [if ?x then _ else _] |- _ => destruct x eqn:?; simpl in H
  end.

Lemma find_runtime_world runtime_name l w r w' :
  find_runtime runtime_name l w = (r, w') -> w' = w.
Proof.
  revert r. induction l as [|x l IH]; intros r; simpl.
  - by intros [= _ <-].
  - unfold bind, item. destruct (x !! "agentRuntimeName") as [n|]; simpl.
    + destruct (String.eqb n runtime_name); [by intros [= _ <-]|apply IH].
    + by intros [= _ <-].
Qed.

Section facts.
Variable cp : oracle.
Variable env : environ.

(** X16: [create_gateway] never raises; it leaves the deployment tracker
    alone, and it fills the gateway tracker, with the name it was given
    and the id it reports, exactly when it reports a new gateway, which
    it does only when the tracker was not set: a call that fails does
    not block the next one. *)
Theorem create_gateway_outcome name description w x w' :
  create_gateway cp env name description w = (x, w') ->
  exists r,
    x = inr r
    /\ deployment w' = deployment w
    /\ match r with
       | GatewayCreated reported gid _ _ =>
           reported = name
           /\ created (gateway w) = false
           /\ gateway w' = {| created := true; Cloud.gateway_id := Some gid;
                              gateway_name := Some name |}
       | _ => gateway w' = gateway w
       end.
Proof.
  unfold create_gateway. intros H.
  repeat (run; split_matches); simplify_eq; simpl; eexists; (split; [reflexivity|]);
    simpl; repeat split; try done; eauto.
Qed.

(** [deploy_agent] reported a deployment or an update. *)
Definition agent_deployed (r : Deploy.result) : bool :=
  match r with
  | Deployed _ _ _ _ | Updated _ _ => true
  | _ => false
  end.

Definition marked (a : arguments) : deployment_tracker :=
  {| deployed := true; agent_name := Some (name a) |}.

Lemma classify_fails e : agent_deployed (classify e) = false.
Proof. unfold classify. by repeat destruct (_ || _). Qed.

Lemma deploy_agent_marks a w x w' :
  deploy_agent cp env a w = (x, w') ->
  exists r,
    x = inr r
    /\ gateway w' = gateway w
    /\ deployment w' = (if agent_deployed r then marked a else deployment w)
    /\ (agent_deployed r = true -> deployed (deployment w) = false).
Proof.
  unfold deploy_agent, mark_deployed. intros H.
  repeat (run; split_matches);
    repeat match goal with
    | H : find_runtime _ _ _ = _ |- _ => apply find_runtime_world in H
    end;
    simplify_eq; simpl; eexists; (split; [reflexivity|]); simpl;
    rewrite ?classify_fails; done.
Qed.

(** X17: [deploy_agent] never raises; it leaves the gateway tracker alone,
    and it marks the deployment tracker, with the name it was given,
    exactly when it reports a deployment or an update, which it does
    only when the tracker was not marked. *)
Theorem deploy_agent_outcome a w x w' :
  deploy_agent cp env a w = (x, w') ->
  exists r,
    x = inr r
    /\ gateway w' = gateway w
    /\ deployment w' = (if agent_deployed r then marked a else deployment w)
    /\ (agent_deployed r = true -> deployed (deployment w) = false).
Proof. apply deploy_agent_marks. Qed.

(** X18: Once [deploy_agent] has reported a deployment or an update, every
    further call of the session is blocked: it names the agent of the
    first call and makes no request. *)
Theorem deploy_agent_twice_blocked a1 a2 w r w1 :
  deploy_agent cp env a1 w = (inr r, w1) ->
  agent_deployed r = true ->
  deploy_agent cp env a2 w1 = (inr (DuplicateBlocked (Some (name a1))), w1).
Proof.
  intros H Hr. apply deploy_agent_marks in H as (r' & [= <-] & _ & Hd & _).
  rewrite Hr in Hd. unfold deploy_agent, bind, get_world, ret. by rewrite Hd.
Qed.

(** X19: What [invoke_agent] does first makes both tools available again:
    after the reset neither [create_gateway] nor [deploy_agent] answers
    with its duplicate-blocked text, whatever the session did before. *)
Theorem reset_unblocks name description a w :
  (forall n g, fst (create_gateway cp env name description (reset_trackers w))
               <> inr (Gateway.DuplicateBlocked n g))
  /\ (forall n, fst (deploy_agent cp env a (reset_trackers w))
                <> inr (Deploy.DuplicateBlocked n)).
Proof.
  split.
  - intros n g. destruct (create_gateway _ _ _ _ _) as [x w'] eqn:H. simpl.
    unfold create_gateway in H. repeat (run; split_matches); simplify_eq; done.
  - intros n. destruct (deploy_agent _ _ _ _) as [x w'] eqn:H. simpl.
    unfold deploy_agent, mark_deployed in H.
    repeat (run; split_matches); simplify_eq; try done;
      unfold classify; by repeat destruct (_ || _).
Qed.

End facts.

(** *** Examples *)

(** A control plane that knows the caller and creates every runtime
    under the id [R1]. *)
Definition one_runtime : oracle := fun _ r =>
  match r with
  | GetCallerIdentity =>
      inr {| fields := {[ "Account" := "123456789012" ]}; summaries := [] |}
  | CreateAgentRuntime _ _ =>
      inr {| fields := {[ "agentRuntimeId" := "R1";
                          "agentRuntimeArn" := "arn:aws:bedrock-agentcore:runtime/R1" ]};
             summaries := [] |}
  | _ => inl (Exn OtherClientError "unexpected request")
  end.

Definition order_bot : arguments :=
  {| name := "Order Bot"; purpose := "Takes orders"; capabilities := ["orders"];
     system_prompt := "You take orders."; Deploy.gateway_id := None;
     enable_code_interpreter := false; enable_browser := false;
     known_agent_ids := None |}.

Definition help_bot : arguments :=
  {| name := "Help Bot"; purpose := "Answers questions"; capabilities := [];
     system_prompt := "You answer questions."; Deploy.gateway_id := None;
     enable_code_interpreter := false; enable_browser := false;
     known_agent_ids := None |}.

Lemma create_gateway_outcome_witness :
  exists r,
    fst (create_gateway one_gateway configured "Order Gateway" "desc" fresh) = inr r
    /\ deployment (snd (create_gateway one_gateway configured "Order Gateway" "desc" fresh))
       = deployment fresh.
Proof.
  destruct (create_gateway_outcome one_gateway configured "Order Gateway" "desc" fresh
              (fst (create_gateway one_gateway configured "Order Gateway" "desc" fresh))
              (snd (create_gateway one_gateway configured "Order Gateway" "desc" fresh))
              eq_refl) as (r & E & D & _).
  by exists r.
Defined.

Lemma deploy_agent_outcome_witness :
  exists r,
    fst (deploy_agent one_runtime configured order_bot fresh) = inr r
    /\ deployment (snd (deploy_agent one_runtime configured order_bot fresh))
       = (if agent_deployed r then marked order_bot else deployment fresh).
Proof.
  destruct (deploy_agent_outcome one_runtime configured order_bot fresh
              (fst (deploy_agent one_runtime configured order_bot fresh))
              (snd (deploy_agent one_runtime configured order_bot fresh))
              (surjective_pairing _)) as (r & E & _ & D & _).
  by exists r.
Defined.

Lemma deploy_agent_twice_blocked_witness :
  exists w1,
    snd (deploy_agent one_runtime configured order_bot fresh) = w1
    /\ deploy_agent one_runtime configured help_bot w1
       = (inr (Deploy.DuplicateBlocked (Some "Order Bot")), w1).
Proof.
  eexists. split; [reflexivity|].
  apply (deploy_agent_twice_blocked one_runtime configured order_bot help_bot fresh
           (Deployed "R1" "arn:aws:bedrock-agentcore:runtime/R1" "CREATING" order_bot)).
  - vm_compute. reflexivity.
  - reflexivity.
Defined.

End SessionProps.

(** ** The batch as a whole *)

Module BatchProps.

Import Cloud Tools ToolsProps GatewayProps SessionProps.

(** The name under which the loop reports a spec. *)
Definition reported_name (d : gmap string json) : json :=
  get_json d "name" (JString "unknown").

(** The elements of [l] at which [mask] holds [true]. *)
Fixpoint pick {A} (mask : list bool) (l : list A) : list A :=
  match mask, l with
  | b :: mask', x :: l' => if b then x :: pick mask' l' else pick mask' l'
  | _, _ => []
  end.

(** What a report says about a batch of [n] specs. *)
Definition accounts_for (gateway_id : string) (n : nat) (r : result) : Prop :=
  match r with
  | ToolsCreated g created => g = gateway_id /\ length created = n /\ 0 < n
  | PartialFailure n_created n_failed failed =>
      n_created + n_failed = n /\ length failed = n_failed /\ 0 < n_failed
  | AllToolsFailed => n = 0
  | _ => False
  end.

Section facts.
Variable json_loads : string -> option json.
Variable cp : oracle.
Variable env : environ.
Variable gateway_id role : string.

Abbreviation process := (process_tool cp env gateway_id role).
Abbreviation process_all := (process_tools cp env gateway_id role).

Lemma process_object_name d acc w acc' w1 :
  process (JObject d) acc w = (inr acc', w1) ->
  (exists entry, acc' = (fst acc ++ [entry], snd acc)
                 /\ created_name entry = reported_name d)
  \/ (exists failure, acc' = (fst acc, snd acc ++ [failure])
                      /\ failed_name failure = reported_name d).
Proof.
  unfold process_tool, register_tool. fold (reported_name d).
  unfold bind at 1, attempt.
  destruct (bind (package_and_register _ _ _ _) _ w) as [[e|entry] w2] eqn:E;
    unfold ret; intros [= <- <-].
  - right. eexists. split; done.
  - left. exists entry. split; [done|].
    unfold bind in E.
    destruct (package_and_register _ _ _ _ _) as [[e|pr] w3]; [done|].
    destruct (grant_invoke _ _ _ _ _ _) as [[e|u] w4]; [done|].
    unfold item_json in E. destruct (d !! "description"); [|done].
    unfold ret in E. by injection E as <- _.
Qed.

Lemma pick_snoc_true {A} mask (l : list A) x :
  length mask = length l -> pick (mask ++ [true]) (l ++ [x]) = pick mask l ++ [x].
Proof.
  revert l. induction mask as [|b mask IH]; intros [|y l]; simpl; try done.
  intros [= H]. destruct b; simpl; by rewrite IH.
Qed.

Lemma pick_snoc_false {A} mask (l : list A) x :
  length mask = length l -> pick (mask ++ [false]) (l ++ [x]) = pick mask l.
Proof.
  revert l. induction mask as [|b mask IH]; intros [|y l]; simpl; try done.
  intros [= H]. destruct b; simpl; by rewrite IH.
Qed.

Lemma process_all_names ds : forall seen mask acc w acc' w1,
  length mask = length seen ->
  map created_name (fst acc) = map reported_name (pick mask seen) ->
  map failed_name (snd acc) = map reported_name (pick (map negb mask) seen) ->
  process_all (map JObject ds) acc w = (inr acc', w1) ->
  exists mask',
    length mask' = length (seen ++ ds)
    /\ map created_name (fst acc') = map reported_name (pick mask' (seen ++ ds))
    /\ map failed_name (snd acc') = map reported_name (pick (map negb mask') (seen ++ ds)).
Proof.
  induction ds as [|d ds IH]; intros seen mask acc w acc' w1 Hl Hc Hf.
  - intros [= <- <-]. exists mask. by rewrite app_nil_r.
  - change (process_all (map JObject (d :: ds)) acc w)
      with (bind (process (JObject d) acc) (process_all (map JObject ds)) w).
    unfold bind at 1.
    destruct (process (JObject d) acc w) as [[e|acc1] w2] eqn:E; [done|].
    intros H.
    replace (seen ++ d :: ds) with ((seen ++ [d]) ++ ds) by by rewrite <- app_assoc.
    apply process_object_name in E as [(entry & -> & Hn) | (failure & -> & Hn)].
    + apply (IH (seen ++ [d]) (mask ++ [true]) _ _ _ _) in H; [done|..]; simpl.
      * by rewrite !length_app, Hl.
      * rewrite pick_snoc_true, !map_app by done. simpl. by rewrite Hc, Hn.
      * rewrite map_app. simpl. by rewrite pick_snoc_false by by rewrite length_map.
    + apply (IH (seen ++ [d]) (mask ++ [false]) _ _ _ _) in H; [done|..]; simpl.
      * by rewrite !length_app, Hl.
      * by rewrite pick_snoc_false by done.
      * rewrite !map_app. simpl.
        rewrite pick_snoc_true, map_app by by rewrite length_map.
        simpl. by rewrite Hf, Hn.
Qed.

(** X20: The loop puts every spec of the batch into exactly one of the two
    lists, in the order of the batch and under the name it reads from
    the spec (or [unknown]): the created tools are the specs a mask
    selects, the failed ones the specs it leaves. *)
Theorem every_spec_lands_in_one_list ds w created failed w1 :
  process_all (map JObject ds) ([], []) w = (inr (created, failed), w1) ->
  exists mask,
    length mask = length ds
    /\ map created_name created = map reported_name (pick mask ds)
    /\ map failed_name failed = map reported_name (pick (map negb mask) ds).
Proof.
  intros H. by apply (process_all_names ds [] [] ([], [])) in H.
Qed.

(** X21: With the role configured and an array of objects as the batch,
    [create_lambda_tools] answers with one of its three reports, and
    the report accounts for every spec: all created, or the two counts
    add up to the size of the batch with at least one failure.  The
    all-tools-failed report is given for the empty batch only; a batch
    in which every spec fails is reported as a partial failure. *)
Theorem report_accounts_for_every_spec tools_spec ds w :
  execution_role env = Some role ->
  String.eqb role "" = false ->
  json_loads tools_spec = Some (JArray (map JObject ds)) ->
  exists r w1,
    create_lambda_tools json_loads cp env gateway_id tools_spec w = (inr r, w1)
    /\ accounts_for gateway_id (length ds) r.
Proof.
  intros Hrole Hne Hjson.
  destruct (process_all_total cp env gateway_id role ds ([], []) w)
    as ([created failed] & w1 & E & L).
  simpl in L. exists (report gateway_id (created, failed)), w1. split.
  - unfold create_lambda_tools, try_except. rewrite Hrole, Hne, Hjson.
    by erewrite bind_inr by exact E.
  - unfold report, accounts_for. simpl.
    destruct created as [|c created], failed as [|f failed]; simpl in *;
      repeat split; lia.
Qed.

(** X22: An element of the batch that is not an object aborts the batch:
    the specs in front of it are processed, with the requests that
    takes, none behind it is, and the answer is the creation-failed
    report, which lists neither the tools created nor the failures. *)
Theorem non_object_aborts_the_batch tools_spec ds x rest w :
  execution_role env = Some role ->
  String.eqb role "" = false ->
  json_loads tools_spec = Some (JArray (map JObject ds ++ x :: rest)) ->
  (forall d, x <> JObject d) ->
  exists acc w1 msg,
    process_all (map JObject ds) ([], []) w = (inr acc, w1)
    /\ length (fst acc) + length (snd acc) = length ds
    /\ create_lambda_tools json_loads cp env gateway_id tools_spec w
       = (inr (ToolsCreationFailed msg), w1).
Proof.
  intros Hrole Hne Hjson Hx.
  destruct (process_all_total cp env gateway_id role ds ([], []) w)
    as (acc & w1 & E & L).
  exists acc, w1, "get". split; [done|]. split; [done|].
  unfold create_lambda_tools, try_except. rewrite Hrole, Hne, Hjson.
  unfold bind at 1. rewrite process_all_app. unfold bind at 1. rewrite E.
  change (process_all (x :: rest) acc w1)
    with (bind (process x acc) (process_all rest) w1).
  unfold bind at 1.
  destruct x; try done. by destruct (Hx members).
Qed.

End facts.

(** *** Examples *)

Definition batch_of (tools : list json) : string -> option json :=
  fun _ => Some (JArray tools).

Lemma every_spec_lands_in_one_list_witness :
  exists mask,
    length mask = length [add_tool; bare_tool]
    /\ map created_name [entry "add" "Add two numbers"]
       = map reported_name (pick mask [add_tool; bare_tool])
    /\ map failed_name [missing_fields bare_tool]
       = map reported_name (pick (map negb mask) [add_tool; bare_tool]).
Proof.
  apply (every_spec_lands_in_one_list accepting lambda_role "G1" role_arn
           [add_tool; bare_tool] ToolsProps.fresh
           [entry "add" "Add two numbers"] [missing_fields bare_tool] after_add).
  vm_compute. reflexivity.
Defined.

Lemma report_accounts_for_every_spec_witness :
  exists r w1,
    create_lambda_tools (batch_of (map JObject [bare_tool; bare_tool]))
      accepting lambda_role "G1" "[...]" ToolsProps.fresh = (inr r, w1)
    /\ accounts_for "G1" (length [bare_tool; bare_tool]) r.
Proof.
  apply (report_accounts_for_every_spec (batch_of (map JObject [bare_tool; bare_tool]))
           accepting lambda_role "G1" role_arn "[...]" [bare_tool; bare_tool]
           ToolsProps.fresh); reflexivity.
Defined.

Lemma non_object_aborts_the_batch_witness :
  exists acc w1 msg,
    process_tools accepting lambda_role "G1" role_arn (map JObject [add_tool]) ([], [])
      ToolsProps.fresh = (inr acc, w1)
    /\ length (fst acc) + length (snd acc) = length [add_tool]
    /\ create_lambda_tools
         (batch_of (map JObject [add_tool] ++ JString "echo" :: [JObject echo_tool]))
         accepting lambda_role "G1" "[...]" ToolsProps.fresh
       = (inr (ToolsCreationFailed msg), w1).
Proof.
  apply (non_object_aborts_the_batch
           (batch_of (map JObject [add_tool] ++ JString "echo" :: [JObject echo_tool]))
           accepting lambda_role "G1" role_arn "[...]" [add_tool] (JString "echo")
           [JObject echo_tool] ToolsProps.fresh); try reflexivity.
  discriminate.
Defined.

End BatchProps.

(** ** The requests of the builder tools *)

Module RequestProps.

Import Cloud Tools ToolsProps GatewayProps SessionProps SanitizeFacts.

(** [c] only adds requests that satisfy [P] to the log, and what it
    returns satisfies [Q]. *)
Definition yields {A} (P : request -> Prop) (Q : A -> Prop) (c : M A) : Prop :=
  forall w r w', c w = (r, w') ->
  (exists l, history w' = history w ++ l /\ Forall P l)
  /\ match r with
     | inr a => Q a
     | inl _ => True
     end.

Definition anything {A} (a : A) : Prop := True.

Section yields.
Context (P : request -> Prop).

Lemma yields_ret {A} (Q : A -> Prop) a : Q a -> yields P Q (ret a).
Proof.
  intros Ha w r w' [= <- <-]. split; [|done]. exists []. by rewrite app_nil_r.
Qed.

Lemma yields_raise {A} (Q : A -> Prop) e : yields P Q (raise e).
Proof.
  intros w r w' [= <- <-]. split; [|done]. exists []. by rewrite app_nil_r.
Qed.

Lemma yields_call cp r : P r -> yields P anything (call cp r).
Proof.
  intros Hr w x w' [= <- <-]. split; [|by destruct (cp _ _)].
  exists [r]. split; [done|]. by constructor.
Qed.

Lemma yields_item d key : yields P anything (item d key).
Proof. unfold item. destruct (d !! key); [by apply yields_ret|apply yields_raise]. Qed.

Lemma yields_item_json d key : yields P anything (item_json d key).
Proof.
  unfold item_json. destruct (d !! key); [by apply yields_ret|apply yields_raise].
Qed.

Lemma yields_as_str method v : yields P anything (as_str method v).
Proof. destruct v; simpl; try apply yields_raise. by apply yields_ret. Qed.

Lemma yields_bind {A B} (Q : A -> Prop) (R : B -> Prop) (c : M A) (k : A -> M B) :
  yields P Q c -> (forall a, Q a -> yields P R (k a)) -> yields P R (bind c k).
Proof.
  intros Hc Hk w r w'. unfold bind.
  destruct (c w) as [[e|a] w1] eqn:E.
  - intros [= <- <-]. split; [|done]. eapply Hc, E.
  - intros Hka. destruct (Hc _ _ _ E) as [(l1 & E1 & F1) Ha].
    destruct (Hk _ Ha _ _ _ Hka) as [(l2 & E2 & F2) Hr].
    split; [|done]. exists (l1 ++ l2). rewrite E2, E1, app_assoc. split; [done|].
    by apply Forall_app.
Qed.

Lemma yields_try_except {A} (Q : A -> Prop) (c : M A) h :
  yields P Q c -> (forall e, yields P Q (h e)) -> yields P Q (try_except c h).
Proof.
  intros Hc Hh w r w'. unfold try_except.
  destruct (c w) as [[e|a] w1] eqn:E.
  - intros Hhe. destruct (Hc _ _ _ E) as [(l1 & E1 & F1) _].
    destruct (Hh _ _ _ _ Hhe) as [(l2 & E2 & F2) Hr].
    split; [|done]. exists (l1 ++ l2). rewrite E2, E1, app_assoc. split; [done|].
    by apply Forall_app.
  - intros [= <- <-]. apply (Hc _ _ _ E).
Qed.

Lemma yields_attempt {A} (Q : A -> Prop) (c : M A) :
  yields P Q c -> yields P anything (attempt c).
Proof.
  intros Hc w r w'. unfold attempt.
  destruct (c w) as [x w1] eqn:E. intros [= <- <-]. split; [|done]. eapply Hc, E.
Qed.

Lemma yields_anything {A} (Q : A -> Prop) (c : M A) :
  yields P Q c -> yields P anything c.
Proof.
  intros Hc w r w' E. split; [eapply Hc, E|]. by destruct r.
Qed.
End yields.

(** A handler that returns makes the whole [try] return. *)
Lemma try_except_ret {A} (c : M A) (f : exn -> A) w :
  exists a w1, try_except c (fun e => ret (f e)) w = (inr a, w1).
Proof. unfold try_except, ret. destruct (c w) as [[e|a] w1]; eauto. Qed.

(** The name [create_tool_function] gives the Lambda function of a
    tool. *)
Definition lambda_name (function_prefix tool : string) : string :=
  function_prefix +:+ "-"
    +:+ str (replace_char Sanitize.underscore Sanitize.hyphen
               (replace_char Sanitize.space Sanitize.hyphen (lower (T tool)))).

Section lambda_service.
Variable cp : oracle.

(** X23: [create_tool_function] looks the function up first, under the
    name made of the prefix and the lowered tool name.  It then updates
    the code of the function it found, and creates the function only
    when the lookup, or the update, is answered with
    [ResourceNotFoundException]; after any other error it makes no
    further request.  No [ClientError] leaves it. *)
Theorem create_tool_function_updates_or_creates
    tool code description schema execution_role function_prefix w r w' :
  let source :=
    Synth._generate_lambda_code
      {| Synth.name := T tool; Synth.description := description;
         Synth.input_schema := schema; Synth.handler_code := T code |} in
  let function := lambda_name function_prefix tool in
  let lookup := GetFunction function in
  let update := UpdateFunctionCode function source in
  let create := CreateFunction function execution_role description tool source in
  create_tool_function cp
    {| name := JString tool; description := description;
       input_schema := schema; handler_code := JString code |}
    execution_role function_prefix w = (r, w') ->
  (forall e, r = inl e -> is_client_error e = false)
  /\ history w'
     = history w ++
       match cp (history w) lookup with
       | inr _ =>
           match cp (history w ++ [lookup]) update with
           | inl (Exn ResourceNotFoundException _) => [lookup; update; create]
           | _ => [lookup; update]
           end
       | inl (Exn ResourceNotFoundException _) => [lookup; create]
       | inl _ => [lookup]
       end.
Proof.
  intros source function lookup update create.
  subst source function lookup update create.
  unfold lambda_name, create_tool_function, try_except, bind, attempt, ret, raise,
    call, log, item.
  simpl.
  destruct (cp (history w) (GetFunction _)) as [[k m]|resp] eqn:E1; simpl.
  - destruct k; simpl;
      try (intros [= <- <-]; simpl; split; [by intros ? [= <-]|done]).
    destruct (cp (history w ++ [GetFunction _]) (CreateFunction _ _ _ _ _))
      as [e|resp] eqn:E2; simpl.
    + destruct (is_client_error e) eqn:C; intros [= <- <-]; simpl;
        (split; [intros ? [= <-]; done|by rewrite <- app_assoc]).
    + destruct (fields resp !! "FunctionArn"); simpl; intros [= <- <-]; simpl;
        (split; [intros ? [= <-]; done|by rewrite <- app_assoc]).
  - destruct (cp (history w ++ [GetFunction _]) (UpdateFunctionCode _ _))
      as [[k m]|resp2] eqn:E2; simpl.
    + destruct k; simpl;
        try (intros [= <- <-]; simpl;
             split; [by intros ? [= <-]|by rewrite <- app_assoc]).
      destruct (cp ((history w ++ [GetFunction _]) ++ [UpdateFunctionCode _ _])
                  (CreateFunction _ _ _ _ _)) as [e|resp3] eqn:E3; simpl.
      * destruct (is_client_error e) eqn:C; intros [= <- <-]; simpl;
          (split; [intros ? [= <-]; done|by rewrite <- !app_assoc]).
      * destruct (fields resp3 !! "FunctionArn"); simpl; intros [= <- <-]; simpl;
          (split; [intros ? [= <-]; done|by rewrite <- !app_assoc]).
    + destruct (fields resp2 !! "FunctionArn"); simpl; intros [= <- <-]; simpl;
        (split; [intros ? [= <-]; done|by rewrite <- app_assoc]).
Qed.

End lambda_service.


(** A request that concerns the gateway [gateway_id] only: a Lambda
    function named after the gateway, a target of the gateway, or the
    permission for the gateway to invoke such a function. *)
Definition for_gateway (region gateway_id : string) (r : request) : Prop :=
  match r with
  | GetCallerIdentity => True
  | GetFunction fn | UpdateFunctionCode fn _ | CreateFunction fn _ _ _ _ =>
      exists tool, fn = lambda_name ("gateway-" +:+ gateway_id) tool
  | CreateGatewayTarget g target _ _ _ _ =>
      g = gateway_id /\ SanitizeMore.hyphenated_name 100 (T target)
  | AddPermission fn statement_id source_arn =>
      (exists tool, fn = lambda_name ("gateway-" +:+ gateway_id) tool)
      /\ statement_id = "AllowGatewayInvoke-" +:+ gateway_id
      /\ exists account,
           source_arn = "arn:aws:bedrock-agentcore:" +:+ region +:+ ":" +:+ account
                          +:+ ":gateway/" +:+ gateway_id
  | _ => False
  end.

Section create_lambda_tools.
Variable json_loads : string -> option json.
Variable cp : oracle.
Variable env : environ.
Variable gateway_id : string.

Abbreviation mine := (for_gateway (region env) gateway_id).

Definition named_for_gateway (r : lambda_result) : Prop :=
  exists tool, function_name r = lambda_name ("gateway-" +:+ gateway_id) tool.

Lemma create_tool_function_for_gateway role spec :
  yields mine named_for_gateway
    (create_tool_function cp spec role ("gateway-" +:+ gateway_id)).
Proof.
  unfold create_tool_function.
  apply yields_try_except;
    [|intros e; destruct (is_client_error e); apply yields_raise].
  eapply yields_bind; [apply yields_as_str|]. intros tool _.
  fold (lambda_name ("gateway-" +:+ gateway_id) tool).
  assert (N : exists t, lambda_name ("gateway-" +:+ gateway_id) tool
                        = lambda_name ("gateway-" +:+ gateway_id) t) by eauto.
  eapply yields_bind; [apply yields_as_str|]. intros code _.
  eapply yields_bind.
  { eapply yields_attempt, yields_bind; [by apply yields_call|].
    intros _ _. by apply yields_call. }
  intros r _.
  eapply yields_bind with (Q := anything).
  { destruct r as [e|resp]; [|by apply yields_ret].
    destruct (exn_class e); try apply yields_raise. by apply yields_call. }
  intros resp _.
  eapply yields_bind; [apply yields_item|]. intros arn _.
  by apply yields_ret.
Qed.

Lemma string_text (t : text) : T (str t) = t.
Proof. apply list_ascii_of_string_of_list_ascii. Qed.

Lemma package_for_gateway role d :
  yields mine (fun pr => named_for_gateway (fst pr))
    (package_and_register cp gateway_id role d).
Proof.
  unfold package_and_register.
  destruct (negb _); [apply yields_raise|].
  eapply yields_bind; [apply yields_item_json|]. intros name _.
  eapply yields_bind; [apply yields_item_json|]. intros description _.
  eapply yields_bind; [apply yields_item_json|]. intros schema _.
  eapply yields_bind; [apply yields_item_json|]. intros code _.
  eapply yields_bind; [apply create_tool_function_for_gateway|]. intros r Hr.
  eapply yields_bind; [apply yields_as_str|]. intros tool _.
  eapply yields_bind.
  { apply yields_call. split; [done|]. rewrite string_text.
    apply SanitizeMore.target_shape. lia. }
  intros _ _.
  eapply yields_bind; [by apply yields_call|]. intros ident _.
  eapply yields_bind; [apply yields_item|]. intros account _.
  by apply yields_ret.
Qed.

Lemma process_for_gateway role x acc :
  yields mine anything (process_tool cp env gateway_id role x acc).
Proof.
  destruct x; simpl; try apply yields_raise.
  eapply yields_bind with (Q := anything).
  - eapply yields_attempt. unfold register_tool.
    eapply yields_bind; [apply package_for_gateway|]. intros [r account] Hr.
    eapply yields_bind with (Q := anything).
    + unfold grant_invoke. apply yields_try_except.
      * eapply yields_bind; [|intros; by apply yields_ret].
        apply yields_call. simpl. eauto.
      * intros e. destruct (exn_class e); by apply yields_ret.
    + intros _ _. eapply yields_bind; [apply yields_item_json|].
      intros. by apply (yields_ret _ anything).
  - intros [e|entry] _; by apply yields_ret.
Qed.

Lemma process_all_for_gateway role l acc :
  yields mine anything (process_tools cp env gateway_id role l acc).
Proof.
  revert acc. induction l as [|x l IH]; intros acc; simpl; [by apply yields_ret|].
  eapply yields_bind; [apply process_for_gateway|]. intros acc1 _. apply IH.
Qed.

(** X24: [create_lambda_tools] never raises, and every request it makes
    concerns the gateway it was called for: the Lambda functions it
    looks up, updates or creates are named after the gateway, the
    targets are registered on the gateway under a well-formed name, and
    the permissions let this gateway invoke these functions.  It
    creates no gateway and no runtime. *)
Theorem create_lambda_tools_stays_on_its_gateway tools_spec w :
  exists r w1 l,
    create_lambda_tools json_loads cp env gateway_id tools_spec w = (inr r, w1)
    /\ history w1 = history w ++ l
    /\ Forall (for_gateway (region env) gateway_id) l.
Proof.
  assert (Y : yields mine anything
                (create_lambda_tools json_loads cp env gateway_id tools_spec)).
  { unfold create_lambda_tools.
    apply yields_try_except; [|intros; by apply yields_ret].
    destruct (execution_role env) as [r|]; [|by apply yields_ret].
    destruct (String.eqb r ""); [by apply yields_ret|].
    destruct (json_loads tools_spec) as [[]|]; try by apply yields_ret.
    eapply yields_bind; [apply process_all_for_gateway|]. intros. by apply yields_ret. }
  destruct (create_lambda_tools _ _ _ _ _ w) as [r w1] eqn:E.
  destruct (Y _ _ _ E) as [(l & Hl & F) _].
  assert (exists x, r = inr x) as [x ->]; [|by eauto 6].
  unfold create_lambda_tools in E.
  match type of E with
  | try_except ?c _ _ = _ =>
      destruct (try_except_ret c (fun e => ToolsCreationFailed (exn_msg e)) w)
        as (x & w2 & E2)
  end.
  rewrite E2 in E. injection E as <- _. eauto.
Qed.

End create_lambda_tools.

(** *** Example *)

Definition ping_source : text :=
  Synth._generate_lambda_code
    {| Synth.name := T "ping"; Synth.description := JString "Answer with pong";
       Synth.input_schema := empty_schema;
       Synth.handler_code := T "return {'answer': 'pong'}" |}.

Lemma create_tool_function_updates_or_creates_witness :
  history
    (snd (create_tool_function accepting
            {| name := JString "ping"; description := JString "Answer with pong";
               input_schema := empty_schema;
               handler_code := JString "return {'answer': 'pong'}" |}
            role_arn "gateway-G1" ToolsProps.fresh))
  = history ToolsProps.fresh
    ++ [GetFunction "gateway-G1-ping";
        CreateFunction "gateway-G1-ping" role_arn (JString "Answer with pong") "ping"
          ping_source].
Proof.
  exact (proj2 (create_tool_function_updates_or_creates accepting
                  "ping" "return {'answer': 'pong'}" (JString "Answer with pong")
                  empty_schema role_arn "gateway-G1" ToolsProps.fresh _ _
                  (surjective_pairing _))).
Defined.

End RequestProps.

(** ** The requests of [create_gateway] and [deploy_agent] *)

Module RuntimeRequestProps.

Import Cloud Gateway Deploy GatewayProps SessionProps.

Lemma text_of_string (t : text) : T (string_of_list_ascii t) = t.
Proof. apply list_ascii_of_string_of_list_ascii. Qed.

Lemma runtime_name_shape name :
  SanitizeMore.underscored_name 48 (T (Deploy.sanitize_runtime_name name)).
Proof.
  unfold Deploy.sanitize_runtime_name. rewrite text_of_string.
  apply SanitizeMore.runtime_shape. lia.
Qed.

Lemma gateway_name_shape name :
  SanitizeMore.hyphenated_name 48 (T (Gateway.sanitize_gateway_name name)).
Proof.
  unfold Gateway.sanitize_gateway_name. rewrite text_of_string.
  apply SanitizeMore.gateway_shape. lia.
Qed.

Section facts.
Variable cp : oracle.
Variable env : environ.

(** X25: [create_gateway] makes at most one request: the creation of a
    gateway with the description it was given and the configured role,
    under a name that is well formed whatever name it was given. *)
Theorem create_gateway_sends_well_formed_name name description w x w1 :
  create_gateway cp env name description w = (x, w1) ->
  history w1 = history w
  \/ exists safe_name role,
       history w1 = history w ++ [CreateGateway safe_name description role]
       /\ getenv env "AGENTCORE_EXECUTION_ROLE_ARN" = Some role
       /\ role <> ""
       /\ SanitizeMore.hyphenated_name 48 (T safe_name).
Proof.
  unfold create_gateway. intros H.
  repeat (run; split_matches); simplify_eq; simpl; try (by left);
    right; eexists _, _; (split; [reflexivity|]);
    (split; [done|]); (split; [by intros ->|]); apply gateway_name_shape.
Qed.

(** X26: [deploy_agent] makes its requests in one order: the caller's
    identity, the creation of the runtime and, after that only, the
    listing and the update.  The runtime is created under a well-formed
    name, and the update carries the parameters of the creation.  A
    deployment is reported after the first two requests, an update
    after all four, of the runtime it names. *)
Theorem deploy_agent_requests_in_order a w x w1 :
  deploy_agent cp env a w = (x, w1) ->
  exists account role agent_id l,
    history w1 = history w ++ l
    /\ l `prefix_of`
         [GetCallerIdentity;
          CreateAgentRuntime (Deploy.sanitize_runtime_name (name a))
            (params env account role a);
          ListAgentRuntimes;
          UpdateAgentRuntime agent_id (params env account role a)]
    /\ SanitizeMore.underscored_name 48 (T (Deploy.sanitize_runtime_name (name a)))
    /\ match x with
       | inr (Deployed _ _ _ _) => length l = 2
       | inr (Updated updated _) => length l = 4 /\ updated = agent_id
       | inr (ExistsButNotFound _) => length l = 3
       | inr (Deploy.DuplicateBlocked _) | inr NotConfigured => l = []
       | _ => True
       end.
Proof.
  unfold deploy_agent, mark_deployed. intros H.
  repeat (run; split_matches);
    repeat match goal with
    | H : find_runtime _ _ _ = _ |- _ => apply find_runtime_world in H
    end;
    simplify_eq; simpl;
    eexists _, _, _, _;
    (split; [rewrite <- ?app_assoc; try (symmetry; apply app_nil_r); reflexivity|]);
    (split; [eexists; simpl; reflexivity|]);
    (split; [apply runtime_name_shape|]);
    try done; try (unfold classify; by repeat destruct (_ || _)).
  Unshelve. all: exact "".
Qed.

End facts.

(** *** Examples *)

Lemma create_gateway_sends_well_formed_name_witness :
  let w1 := snd (create_gateway one_gateway configured "Order Gateway" "desc" fresh) in
  history w1 = history fresh
  \/ exists safe_name role,
       history w1 = history fresh ++ [CreateGateway safe_name "desc" role]
       /\ getenv configured "AGENTCORE_EXECUTION_ROLE_ARN" = Some role
       /\ role <> ""
       /\ SanitizeMore.hyphenated_name 48 (T safe_name).
Proof.
  exact (create_gateway_sends_well_formed_name one_gateway configured
           "Order Gateway" "desc" fresh _ _ (surjective_pairing _)).
Defined.

Lemma deploy_agent_requests_in_order_witness :
  exists account role agent_id l,
    history (snd (deploy_agent one_runtime configured order_bot fresh))
    = history fresh ++ l
    /\ l `prefix_of`
         [GetCallerIdentity;
          CreateAgentRuntime (Deploy.sanitize_runtime_name (name order_bot))
            (params configured account role order_bot);
          ListAgentRuntimes;
          UpdateAgentRuntime agent_id (params configured account role order_bot)]
    /\ length l = 2.
Proof.
  destruct (deploy_agent_requests_in_order one_runtime configured order_bot fresh
              (inr (Deployed "R1" "arn:aws:bedrock-agentcore:runtime/R1" "CREATING"
                      order_bot))
              (snd (deploy_agent one_runtime configured order_bot fresh)))
    as (account & role & agent_id & l & H1 & H2 & _ & H4).
  - vm_compute. reflexivity.
  - by exists account, role, agent_id, l.
Defined.

End RuntimeRequestProps.

(** ** The synthesizer on fragments without imports, and the indentation *)

Module SynthMore.

Import Regex Synth TextFacts ScanFacts.

Lemma lstrip_spaces_nil p s : Forall (fun c => p c = true) s -> lstrip p s = [].
Proof. induction 1 as [|c s Hc _ IH]; simpl; [done|]. by rewrite Hc. Qed.

(** X27: A handler code of white space only (the empty one too) gives the
    unit whose body is the placeholder statement, indented, and whose
    import block has the two fixed imports only. *)
Theorem blank_fragment_gets_placeholder {meta} (tool_spec : LambdaToolSpec meta) :
  Forall (fun c => py_isspace c = true) (handler_code tool_spec) ->
  _generate_lambda_code tool_spec
  = render (name tool_spec)
      {| imports := [T "import json"; T "import logging"];
         body := T "        pass  # No implementation provided" |}.
Proof.
  intros H. unfold _generate_lambda_code, strip.
  rewrite (lstrip_spaces_nil _ _ H). reflexivity.
Qed.

Lemma split_lines_cons s : exists l ls, split_lines s = l :: ls.
Proof.
  induction s as [|c s (l & ls & E)]; simpl; [eauto|].
  rewrite E. destruct (is_nl c); eauto.
Qed.

Lemma join_lines_cons c l ls : join_lines ((c :: l) :: ls) = c :: join_lines (l :: ls).
Proof. by destruct ls. Qed.

(** ['\n'.join(s.split('\n'))] is [s]. *)
Lemma join_split_lines s : join_lines (split_lines s) = s.
Proof.
  induction s as [|c s IH]; simpl; [done|].
  destruct (split_lines_cons s) as (l & ls & E). rewrite E in *.
  destruct (is_nl c) eqn:N.
  - apply eqc_eq in N as ->.
    change (join_lines ([] :: l :: ls)) with (nl :: join_lines (l :: ls)).
    f_equal. exact IH.
  - rewrite join_lines_cons. f_equal. exact IH.
Qed.

Lemma filter_all {A} (p : A -> bool) (l : list A) :
  Forall (fun x => p x = true) l -> filter (fun x => p x = true) l = l.
Proof.
  induction 1 as [|x l Hx _ IH]; [done|].
  rewrite filter_cons. destruct (decide (p x = true)); [|done]. by rewrite IH.
Qed.

(** A scan whose pattern matches nowhere in the text copies the text. *)
Lemma re_sub_no_match (m : matcher) : forall fuel bol s,
  (forall bol' a b, s = a ++ b -> m bol' b = None) ->
  re_sub_fuel fuel m bol s = s.
Proof.
  induction fuel as [|fuel IH]; intros bol s H; simpl; [done|].
  destruct s as [|c s]; [done|].
  rewrite (H bol [] (c :: s) eq_refl). f_equal. apply IH.
  intros bol' a b ->. by apply (H bol' (c :: a) b).
Qed.

Lemma plain_import_needs_word bol s h :
  match_plain_import bol s = Some h -> occurs (T "import") s.
Proof.
  unfold match_plain_import. destruct bol; cbn [negb]; [|done].
  pose proof (span_app py_isspace s) as A0.
  destruct (span py_isspace s) as [w0 s1]. simpl in A0.
  destruct (strip_prefix (T "import") s1) as [s2|] eqn:P; [|done].
  apply strip_prefix_spec in P. intros _. subst. apply occurs_here.
Qed.

Lemma from_import_needs_word bol s h :
  match_from_import bol s = Some h -> occurs (T "import") s.
Proof.
  unfold match_from_import. destruct bol; cbn [negb]; [|done].
  pose proof (span_app py_isspace s) as A0.
  destruct (span py_isspace s) as [w0 s1]. simpl in A0.
  destruct (strip_prefix (T "from") s1) as [s2|] eqn:P; [|done].
  apply strip_prefix_spec in P.
  pose proof (span_app py_isspace s2) as A1.
  destruct (span py_isspace s2) as [w1 s3]. simpl in A1.
  pose proof (span_app is_module_char s3) as A2.
  destruct (span is_module_char s3) as [name s4]. simpl in A2.
  pose proof (span_app py_isspace s4) as A3.
  destruct (span py_isspace s4) as [w2 s5]. simpl in A3.
  destruct (strip_prefix (T "import") s5) as [s6|] eqn:Q; [|done].
  apply strip_prefix_spec in Q. intros _. subst.
  do 5 (apply occurs_app_l). exists [], s6. done.
Qed.

Lemma occurs_suffix needle a b : occurs needle b -> occurs needle (a ++ b).
Proof. apply occurs_app_l. Qed.

(** X28: A fragment in which the word [import] does not occur, and which
    has no line of white space only, goes through the removal of the
    import lines unchanged but for the newlines at its start. *)
Theorem import_free_fragment_is_kept h :
  contains (T "import") h = false ->
  Forall (fun l => keep_line l = true) (split_lines h) ->
  strip_imports h = lstrip is_nl h.
Proof.
  intros Hc Hl.
  assert (N : forall a b, h = a ++ b -> ~ occurs (T "import") b).
  { intros a b -> Hb. apply (occurs_app_l _ a), contains_spec in Hb. congruence. }
  unfold strip_imports, re_sub.
  rewrite (re_sub_no_match match_plain_import).
  2: { intros bol a b E. destruct (match_plain_import bol b) eqn:M; [|done].
       apply plain_import_needs_word in M. by destruct (N a b E). }
  rewrite (re_sub_no_match match_from_import).
  2: { intros bol a b E. destruct (match_from_import bol b) eqn:M; [|done].
       apply from_import_needs_word in M. by destruct (N a b E). }
  by rewrite (filter_all keep_line), join_split_lines.
Qed.


(** *** The indentation *)

(** The only line boundary in [h] is the newline. *)
Definition only_newlines (h : text) : Prop :=
  Forall (fun c => is_linebreak c = true -> c = nl) h.

(** A line of white space only, or one that starts with the prefix. *)
Definition blank_or_prefixed (prefix l : text) : Prop :=
  is_blank l = true \/ starts_with prefix l = true.

Lemma spaces_blank l : Forall (fun c => py_isspace c = true) l -> is_blank l = true.
Proof. intros H. unfold is_blank, strip. by rewrite (lstrip_spaces_nil _ _ H). Qed.

Lemma nl_is_linebreak c : is_nl c = true -> is_linebreak c = true.
Proof. intros H. apply eqc_eq in H as ->. reflexivity. Qed.

Lemma not_linebreak_not_nl c : is_linebreak c = false -> is_nl c = false.
Proof.
  intros H. destruct (is_nl c) eqn:N; [|done].
  apply nl_is_linebreak in N. congruence.
Qed.

Lemma split_lines_step c s l ls :
  is_nl c = false -> split_lines s = l :: ls -> split_lines (c :: s) = (c :: l) :: ls.
Proof. intros N E. simpl. by rewrite E, N. Qed.

Lemma split_lines_newline s : split_lines (nl :: s) = [] :: split_lines s.
Proof. simpl. by destruct (split_lines_cons s) as (l & ls & ->). Qed.

Lemma split_lines_prefix p s l ls :
  nl ∉ p -> split_lines s = l :: ls -> split_lines (p ++ s) = (p ++ l) :: ls.
Proof.
  intros Hp E. induction p as [|c p IH]; [done|].
  apply not_elem_of_cons in Hp as [Hc Hp].
  change ((c :: p) ++ s) with (c :: (p ++ s)).
  apply split_lines_step; [|by apply IH].
  destruct (is_nl c) eqn:N; [|done]. by apply eqc_eq in N.
Qed.

Section indentation.
Variable prefix : text.
Hypothesis prefix_line : nl ∉ prefix.

Lemma indent_from_lines s : forall bol,
  only_newlines s ->
  exists l ls,
    split_lines (indent_from prefix bol s) = l :: ls
    /\ Forall (blank_or_prefixed prefix) ls
    /\ (if bol then blank_or_prefixed prefix l
        else line_is_blank s = true -> Forall (fun c => py_isspace c = true) l).
Proof.
  induction s as [|c s IH]; intros bol Hs.
  - exists [], []. split; [done|]. split; [constructor|].
    destruct bol; [by left|constructor].
  - apply Forall_cons in Hs as [Hc Hs].
    change (indent_from prefix bol (c :: s))
      with ((if bol && negb (line_is_blank (c :: s)) then prefix else [])
              ++ c :: indent_from prefix
                        (is_linebreak c && negb (eqc c (chr 13) && starts_with [nl] s)) s).
    change (line_is_blank (c :: s))
      with (if is_linebreak c then true else if py_isspace c then line_is_blank s else false).
    destruct (is_linebreak c) eqn:B.
    + rewrite (Hc eq_refl). change (eqc nl (chr 13)) with false.
      cbn [andb negb]. rewrite andb_false_r. cbn [app].
      destruct (IH true Hs) as (l & ls & E & F & G).
      exists [], (l :: ls). rewrite split_lines_newline, E.
      split; [done|]. split; [by constructor|].
      destruct bol; [by left|constructor].
    + cbn [andb]. pose proof (not_linebreak_not_nl c B) as N.
      destruct (IH false Hs) as (l & ls & E & F & G).
      destruct bol; cbn [andb].
      * destruct (py_isspace c) eqn:S; [destruct (line_is_blank s) eqn:L|]; cbn [negb app].
        -- exists (c :: l), ls. split; [by apply split_lines_step|]. split; [done|].
           left. apply spaces_blank. constructor; [done|]. by apply G.
        -- exists (prefix ++ c :: l), ls.
           split; [by apply split_lines_prefix, split_lines_step|]. split; [done|].
           right. apply starts_with_spec. eauto.
        -- exists (prefix ++ c :: l), ls.
           split; [by apply split_lines_prefix, split_lines_step|]. split; [done|].
           right. apply starts_with_spec. eauto.
      * cbn [app]. exists (c :: l), ls. split; [by apply split_lines_step|].
        split; [done|]. destruct (py_isspace c) eqn:S; cbn beta iota; [|done].
        intros L. constructor; [done|]. by apply G.
Qed.

(** X29: Every line of the indented text is a line of white space only or
    starts with the prefix, when the newline is the only line boundary
    in the text: the body of the unit stays inside the [try] block of
    the handler. *)
Theorem indented_lines_start_with_prefix h :
  only_newlines h ->
  Forall (blank_or_prefixed prefix) (split_lines (indent h prefix)).
Proof.
  intros H. destruct (indent_from_lines h true H) as (l & ls & E & F & G).
  unfold indent. rewrite E. by constructor.
Qed.

End indentation.

(** *** Examples *)

Definition two_lines : text := T "x = 1" ++ nl :: T "return x".

Lemma blank_fragment_gets_placeholder_witness :
  _generate_lambda_code
    {| name := T "noop"; description := tt; input_schema := tt;
       handler_code := [chr 32; nl; chr 9] |}
  = render (T "noop")
      {| imports := [T "import json"; T "import logging"];
         body := T "        pass  # No implementation provided" |}.
Proof.
  apply (blank_fragment_gets_placeholder
           {| name := T "noop"; description := tt; input_schema := tt;
              handler_code := [chr 32; nl; chr 9] |}).
  repeat constructor.
Defined.

Lemma import_free_fragment_is_kept_witness : strip_imports two_lines = two_lines.
Proof.
  apply (import_free_fragment_is_kept two_lines); [reflexivity|].
  vm_compute. repeat constructor.
Defined.

Lemma indented_lines_start_with_prefix_witness :
  Forall (blank_or_prefixed (T "        "))
    (split_lines (indent two_lines (T "        "))).
Proof.
  apply (indented_lines_start_with_prefix (T "        ")).
  - vm_compute. intros H.
    repeat (apply elem_of_cons in H as [H|H]; [discriminate H|]).
    by apply elem_of_nil in H.
  - unfold only_newlines, two_lines. simpl.
    repeat (constructor; [vm_compute; intros H; (discriminate H || reflexivity)|]).
    constructor.
Defined.

End SynthMore.

(** ** From [deploy_agent] to the deployed agent *)

Module TemplateProps.

Import Cloud Deploy Template TextFacts.

(** An agent id that survives the comma-separated variable: it is not
    empty, holds no comma and has no white space at either end. *)
Definition clean (id : string) : Prop :=
  id <> "" /\ (chr 44 ∉ T id) /\ strip py_isspace (T id) = T id.

Lemma T_app (a b : string) : T (a +:+ b) = T a ++ T b.
Proof. unfold T. induction a as [|c a IH]; simpl; [done|]. by rewrite IH. Qed.

Lemma split_commas_cons s : exists l ls, split_commas s = l :: ls.
Proof.
  induction s as [|c s (l & ls & E)]; simpl; [eauto|].
  rewrite E. destruct (eqc c (chr 44)); eauto.
Qed.

Lemma split_commas_word x s :
  chr 44 ∉ x -> split_commas (x ++ chr 44 :: s) = x :: split_commas s.
Proof.
  intros Hx. induction x as [|c x IH].
  - simpl. by destruct (split_commas_cons s) as (l & ls & ->).
  - apply not_elem_of_cons in Hx as [Hc Hx].
    change (split_commas ((c :: x) ++ chr 44 :: s))
      with (match split_commas (x ++ chr 44 :: s) with
            | l :: ls => if eqc c (chr 44) then [] :: l :: ls else (c :: l) :: ls
            | [] => [[c]]
            end).
    rewrite (IH Hx).
    by assert (eqc c (chr 44) = false) as -> by (apply eqc_neq; congruence).
Qed.

Lemma split_commas_last x : chr 44 ∉ x -> split_commas x = [x].
Proof.
  intros Hx. induction x as [|c x IH]; [done|].
  apply not_elem_of_cons in Hx as [Hc Hx].
  change (split_commas (c :: x))
    with (match split_commas x with
          | l :: ls => if eqc c (chr 44) then [] :: l :: ls else (c :: l) :: ls
          | [] => [[c]]
          end).
  rewrite (IH Hx).
  by assert (eqc c (chr 44) = false) as -> by (apply eqc_neq; congruence).
Qed.

Lemma T_nonempty id : id <> "" -> nonempty (T id) = true.
Proof. by destruct id. Qed.

Lemma split_join ids :
  ids <> [] -> Forall clean ids -> split_commas (T (join_commas ids)) = map T ids.
Proof.
  intros Hne H. induction H as [|x ids (Hx & Hc & Hs) Hids IH]; [done|].
  destruct ids as [|y ids].
  - simpl. by apply split_commas_last.
  - change (join_commas (x :: y :: ids))
      with (x +:+ ("," +:+ join_commas (y :: ids))).
    rewrite T_app. change (T ("," +:+ ?s)) with (chr 44 :: T s).
    rewrite split_commas_word by done. by rewrite IH.
Qed.

Lemma read_back ids :
  Forall clean ids ->
  map string_of_list_ascii
    (filter (fun aid => nonempty aid = true) (map (strip py_isspace) (map T ids)))
  = ids.
Proof.
  induction 1 as [|x ids (Hx & Hc & Hs) _ IH]; [done|].
  simpl. rewrite filter_cons, Hs.
  destruct (decide (nonempty (T x) = true)) as [_|N]; [|by rewrite T_nonempty in N].
  simpl. unfold T at 1. by rewrite string_of_list_ascii_of_string, IH.
Qed.

Lemma join_commas_nonempty ids : ids <> [] -> Forall clean ids -> join_commas ids <> "".
Proof.
  intros Hne H. destruct H as [|x ids (Hx & _) _]; [done|].
  destruct ids; [done|]. simpl. by destruct x.
Qed.

Section facts.
Variable env : environ.

Lemma read_mode a :
  AGENT_MODE (env_vars env a)
  = mode_name (derive_agent_mode (gateway_id a) (known_agent_ids a)).
Proof.
  unfold AGENT_MODE, getenv_or, item_or. by rewrite DeployProps.env_vars_mode.
Qed.

Lemma read_known a :
  KNOWN_AGENT_IDS (env_vars env a)
  = match known_agent_ids a with
    | Some (x :: l) => join_commas (x :: l)
    | _ => ""
    end.
Proof.
  unfold KNOWN_AGENT_IDS, getenv_or, item_or, env_vars.
  repeat (rewrite lookup_insert_ne by done). by rewrite lookup_insert_eq.
Qed.

Lemma read_gateway a :
  GATEWAY_ID (env_vars env a)
  = Some (if truthy (gateway_id a) then default "" (gateway_id a) else "").
Proof.
  unfold GATEWAY_ID, getenv, environ, env_vars.
  repeat (rewrite lookup_insert_ne by done). by rewrite lookup_insert_eq.
Qed.

Lemma read_switch a key (b : bool) :
  env_vars env a !! key = Some (bool_name b) -> enabled (env_vars env a) key = b.
Proof. unfold enabled, getenv_or, item_or. intros ->. by destruct b. Qed.

(** X30: What [deploy_agent] writes into the environment of the runtime is
    what the deployed agent reads.  The two switches arrive as they
    were given.  With a gateway, the agent loads the tools of that
    gateway and builds no client tools, whatever agents it was deployed
    with.  Without a gateway, it builds client tools for exactly the
    ids it was deployed with, in their order, when none of them is
    empty, holds a comma or starts or ends with white space. *)
Theorem deployed_agent_reads_its_configuration a :
  ENABLE_CODE_INTERPRETER (env_vars env a) = enable_code_interpreter a
  /\ ENABLE_BROWSER (env_vars env a) = enable_browser a
  /\ (forall g,
        gateway_id a = Some g -> g <> "" ->
        tools_gateway (env_vars env a) = Some g
        /\ client_agent_ids (env_vars env a) = [])
  /\ (forall ids,
        truthy (gateway_id a) = false ->
        known_agent_ids a = Some ids ->
        ids <> [] ->
        Forall clean ids ->
        tools_gateway (env_vars env a) = None
        /\ client_agent_ids (env_vars env a) = ids).
Proof.
  split; [|split; [|split]].
  - apply read_switch. unfold env_vars.
    repeat (rewrite lookup_insert_ne by done). by rewrite lookup_insert_eq.
  - apply read_switch. unfold env_vars.
    repeat (rewrite lookup_insert_ne by done). by rewrite lookup_insert_eq.
  - intros g Hg Hne.
    assert (Ht : truthy (gateway_id a) = true).
    { rewrite Hg. simpl. apply String.eqb_neq in Hne. by rewrite Hne. }
    split.
    + unfold tools_gateway. rewrite read_gateway, Ht, Hg. simpl.
      apply String.eqb_neq in Hne. by rewrite Hne.
    + unfold client_agent_ids. rewrite read_mode. unfold derive_agent_mode.
      by rewrite Ht.
  - intros ids Hg Hk Hne Hc. split.
    + unfold tools_gateway. by rewrite read_gateway, Hg.
    + unfold client_agent_ids, agent_ids. rewrite read_mode, read_known, Hk.
      unfold derive_agent_mode. rewrite Hg.
      destruct ids as [|x l]; [done|]. cbn [mode_name].
      change (String.eqb "client" "client") with true. cbn [andb].
      pose proof (join_commas_nonempty (x :: l) Hne Hc) as N.
      apply String.eqb_neq in N. rewrite N. cbn [negb].
      rewrite split_join by done. by apply read_back.
Qed.

End facts.

(** *** Example *)

Definition caller (ids : list string) : arguments :=
  {| name := "Caller"; purpose := "Calls other agents"; capabilities := [];
     system_prompt := "You call other agents."; gateway_id := None;
     enable_code_interpreter := true; enable_browser := false;
     known_agent_ids := Some ids |}.

Definition with_gateway (g : string) (a : arguments) : arguments :=
  {| name := name a; purpose := purpose a; capabilities := capabilities a;
     system_prompt := system_prompt a; gateway_id := Some g;
     enable_code_interpreter := enable_code_interpreter a;
     enable_browser := enable_browser a;
     known_agent_ids := known_agent_ids a |}.

Lemma deployed_agent_reads_its_configuration_witness :
  client_agent_ids (env_vars ∅ (caller ["agent-a"; "agent-b"])) = ["agent-a"; "agent-b"]
  /\ client_agent_ids (env_vars ∅ (with_gateway "G1" (caller ["agent-a"]))) = [].
Proof.
  split.
  - apply (proj2 (proj2 (proj2
             (deployed_agent_reads_its_configuration ∅ (caller ["agent-a"; "agent-b"]))))
             ["agent-a"; "agent-b"]); try done.
    repeat constructor; try done;
      (vm_compute; intros H;
       repeat (apply elem_of_cons in H as [H|H]; [discriminate H|]);
       by apply elem_of_nil in H).
  - apply (proj1 (proj2 (proj2
             (deployed_agent_reads_its_configuration ∅ (with_gateway "G1" (caller ["agent-a"])))))
             "G1"); done.
Defined.

End TemplateProps.
